(** * deserted: normalize / denormalize over a JavaScript heap

    A shallow embedding of [src/lib/private/util/index.ts],
    [src/lib/converters] and [src/lib/deserted] of the [deserted] library.

    JavaScript values live in an explicit heap: a composite value is a
    location, so that object identity (what [Map<any, Path>] keys on, what
    [toBe] observes) is equality of locations.  The functions of the library
    are written in a result monad threaded with the heap; the recursion of
    [ser], which follows the object graph, takes a fuel argument.

    Modelling conventions:
    - [item.constructor] is the class an object was created by (field
      [ctor]); an own property named [constructor] shadowing it and
      prototype chains are not modelled;
    - the own enumerable properties of an object are an association list in
      enumeration order;
    - converters are functions of the heap that may allocate new objects but
      do not mutate existing ones;
    - [Array.prototype.sort] is stable, as ECMAScript 2019 requires;
    - a JSON text is represented by the document it denotes. *)

From Stdlib Require Import ZArith.
From stdpp Require Import base option list gmap strings pretty sorting.

Open Scope string_scope.
Open Scope list_scope.
Open Scope nat_scope.

(** ** Results of a call: a value, a thrown error, or fuel exhausted *)

Inductive error :=
| ReferenceFound      (* Error('Deserted: reference found while noRefs=true') *)
| NoConstructor       (* Error('no constructor') *)
| UnregisteredClass   (* Error('unregistered class') *)
| NoConverter         (* Error('no converter') *)
| UnknownItem         (* Error('unknown item') *)
| TypeError           (* a TypeError raised by the language itself *)
| Dangling            (* a location outside the heap: never in a real run *)
| Unmodelled.         (* a built-in coercion this development leaves out *)

Inductive res (A : Type) :=
| Ok (a : A)
| Err (e : error)
| OutOfFuel.
Arguments Ok {A} a.
Arguments Err {A} e.
Arguments OutOfFuel {A}.

#[global] Instance error_eq_dec : EqDecision error.
Proof. solve_decision. Defined.

#[global] Instance res_ret : MRet res := @Ok.
#[global] Instance res_bind : MBind res := λ A B f m,
  match m with
  | Ok a => f a
  | Err e => Err e
  | OutOfFuel => OutOfFuel
  end.
#[global] Instance res_fmap : FMap res := λ A B f m,
  match m with
  | Ok a => Ok (f a)
  | Err e => Err e
  | OutOfFuel => OutOfFuel
  end.

Definition is_Ok {A} (m : res A) : Prop := ∃ a, m = Ok a.
Definition terminates {A} (m : res A) : Prop := m ≠ OutOfFuel.

(** ** [Arr] *)

Module Arr.
Definition init {E} (arr : list E) : list E := take (length arr - 1) arr.
Definition last {E} (arr : list E) : option E := arr !! (length arr - 1).
Definition tail {E} (arr : list E) : list E := drop 1 arr.
Definition first {E} (arr : list E) : option E := arr !! 0.
End Arr.

(** ** JavaScript values and the heap *)

Abbreviation loc := nat.

Inductive number :=
| Fin (z : Z)
| NaN
| Infinity (negative : bool).

(** A symbol is either an entry of the global symbol registry
    ([Symbol.for(key)]) or a unique symbol with a description. *)
Inductive symbol :=
| GlobalSymbol (key : string)
| LocalSymbol (id : nat) (description : string).

Inductive value :=
| VUndefined
| VNull
| VBool (b : bool)
| VNum (n : number)
| VStr (s : string)
| VSym (s : symbol)
| VFun (name : string)
| VObj (l : loc).

#[global] Instance number_eq_dec : EqDecision number.
Proof. solve_decision. Defined.
#[global] Instance symbol_eq_dec : EqDecision symbol.
Proof. solve_decision. Defined.
#[global] Instance value_eq_dec : EqDecision value.
Proof. solve_decision. Defined.

(** The class of an object: two classes may carry the same [name]. *)
Record class_ref := Class { class_id : nat; class_name : string }.

#[global] Instance class_ref_eq_dec : EqDecision class_ref.
Proof. solve_decision. Defined.

Inductive slot :=
| Ordinary
| ArrayData (elems : list value)
| PrimitiveValue (v : value)
| MapData (entries : list (value * value))
| SetData (elems : list value).

Record object := Object {
  ctor : option class_ref;
  props : list (string * value);
  internal : slot
}.

Abbreviation heap := (list object).

Definition ObjectClass : class_ref := Class 0 "Object".
Definition ArrayClass : class_ref := Class 1 "Array".
Definition DateClass : class_ref := Class 2 "Date".
Definition BooleanClass : class_ref := Class 3 "Boolean".
Definition StringClass : class_ref := Class 4 "String".
Definition NumberClass : class_ref := Class 5 "Number".
Definition MapClass : class_ref := Class 6 "Map".
Definition SetClass : class_ref := Class 7 "Set".
Definition ErrorClass : class_ref := Class 8 "Error".

Definition plain (props : list (string * value)) : object :=
  Object (Some ObjectClass) props Ordinary.
Definition array (elems : list value) : object :=
  Object (Some ArrayClass) [] (ArrayData elems).

Definition alloc (h : heap) (o : object) : loc * heap := (length h, h ++ [o]).

(** [String(index)] *)
Definition String_ (index : nat) : string := pretty index.

(** *** Association lists used as property tables *)

Fixpoint assoc_get {V} (key : string) (l : list (string * V)) : option V :=
  match l with
  | [] => None
  | (k, v) :: l' => if decide (k = key) then Some v else assoc_get key l'
  end.

(** [obj[key] = v] on a property table: update in place or append. *)
Fixpoint assoc_set {V} (key : string) (v : V) (l : list (string * V))
    : list (string * V) :=
  match l with
  | [] => [(key, v)]
  | (k, w) :: l' =>
      if decide (k = key) then (k, v) :: l' else (k, w) :: assoc_set key v l'
  end.

(** The index a property key denotes among the first [n] indices. *)
Definition index_of (key : string) (n : nat) : option nat :=
  list_find (λ i, String_ i = key) (seq 0 n) ≫= λ p, Some p.2.

(** Whether a key is the canonical decimal form of some index. *)
Fixpoint digits (s : string) (acc : nat) : option nat :=
  match s with
  | EmptyString => Some acc
  | String c s' =>
      let d := Ascii.nat_of_ascii c in
      if decide (48 ≤ d ≤ 57)%nat then digits s' (10 * acc + (d - 48)) else None
  end.

Definition array_index (key : string) : option nat :=
  n ← digits key 0;
  if decide (String_ n = key) then Some n else None.

Definition isArray (o : object) : bool :=
  match internal o with ArrayData _ => true | _ => false end.

(** Own enumerable properties, in [for ... in] order. *)
Definition own_enumerable (o : object) : list (string * value) :=
  match internal o with
  | ArrayData elems => imap (λ i v, (String_ i, v)) elems ++ props o
  | _ => props o
  end.

(** [o[key]] for an object. *)
Definition object_get (o : object) (key : string) : value :=
  match internal o with
  | ArrayData elems =>
      match index_of key (length elems) with
      | Some i => default VUndefined (elems !! i)
      | None =>
          if decide (key = "length") then VNum (Fin (Z.of_nat (length elems)))
          else default VUndefined (assoc_get key (props o))
      end
  | _ => default VUndefined (assoc_get key (props o))
  end.

(** [o[key] = v] for an object; an array grows when the index is past its
    end. *)
Definition object_set (o : object) (key : string) (v : value) : object :=
  match internal o with
  | ArrayData elems =>
      match index_of key (length elems) with
      | Some i => Object (ctor o) (props o) (ArrayData (<[i:=v]> elems))
      | None =>
          match array_index key with
          | Some i =>
              Object (ctor o) (props o)
                (ArrayData (elems ++ replicate (i - length elems) VUndefined ++ [v]))
          | None => Object (ctor o) (assoc_set key v (props o)) (internal o)
          end
      end
  | _ => Object (ctor o) (assoc_set key v (props o)) (internal o)
  end.

(** [v[key]] *)
Definition get (h : heap) (v : value) (key : string) : res value :=
  match v with
  | VUndefined | VNull => Err TypeError
  | VObj l =>
      match h !! l with
      | Some o => Ok (object_get o key)
      | None => Err Dangling
      end
  | VStr s =>
      match index_of key (String.length s) with
      | Some i => Ok (VStr (String.substring i 1 s))
      | None =>
          Ok (if decide (key = "length") then VNum (Fin (Z.of_nat (String.length s)))
              else VUndefined)
      end
  | _ => Ok VUndefined
  end.

(** [v[key] = x] in strict mode. *)
Definition set (h : heap) (v : value) (key : string) (x : value) : res heap :=
  match v with
  | VObj l =>
      match h !! l with
      | Some o => Ok (<[l := object_set o key x]> h)
      | None => Err Dangling
      end
  | _ => Err TypeError
  end.

Arguments index_of : simpl never.
Arguments String_ : simpl never.
Arguments get : simpl never.
Arguments set : simpl never.
Arguments object_get : simpl never.
Arguments object_set : simpl never.

(** ** Intermediate items, paths and actions *)

Abbreviation Path := (list string).

Local Unset Elimination Schemes.
Inductive SerItem :=
| SVal (val : value)
| SRef (ref : Path)
| SObj (obj : list (string * SerItem))
| SFun (fun_ : SerItem)
| SSym (sym : value)
| SArr (items : list SerItem)
| SProto (proto : string) (state : SerItem).
Local Set Elimination Schemes.

Module Path.
(** [find]: the loop stops at [undefined], indexing [null] throws. *)
Fixpoint find (h : heap) (root : value) (path : Path) : res value :=
  match path with
  | [] => Ok root
  | p :: path' =>
      if decide (root = VUndefined) then Ok VUndefined
      else result ← get h root p; find h result path'
  end.

Definition copyProperty (h : heap) (root : value) (sourcePath targetPath : Path)
    : res heap :=
  sourceItem ← find h root sourcePath;
  targetItem ← find h root (Arr.init targetPath);
  set h targetItem (default "undefined" (Arr.last targetPath)) sourceItem.
End Path.

Inductive Action :=
| ReferenceFixup (target source : Path)
| ConversionFixup (convertTo : string) (path : Path).

Module Action.
Definition depth (action : Action) : nat :=
  match action with
  | ConversionFixup _ path => length path
  | ReferenceFixup _ source => length source
  end.

Definition compare (a1 a2 : Action) : Z :=
  (Z.of_nat (depth a2) - Z.of_nat (depth a1))%Z.
End Action.

(** ** Converters *)

(** A converter function receives the heap and returns its result with the
    objects it allocated, which are appended to the heap in that order. *)
Definition conversion := heap → value → res (value * list object).

Record Converter := { from : conversion; to : conversion }.

Module Converter.
Definition create (from to : conversion) : Converter :=
  {| from := from; to := to |}.
End Converter.

(** [ToString] on primitives, as a template literal applies it. *)
Definition to_string (v : value) : res string :=
  match v with
  | VUndefined => Ok "undefined"
  | VNull => Ok "null"
  | VBool b => Ok (if b then "true" else "false")
  | VNum (Fin z) => Ok (pretty z)
  | VNum NaN => Ok "NaN"
  | VNum (Infinity negative) => Ok (if negative then "-Infinity" else "Infinity")
  | VStr s => Ok s
  | VSym _ => Err TypeError
  | VFun _ | VObj _ => Err Unmodelled
  end.

Definition DefaultFunctionConverter : Converter :=
  Converter.create
    (λ h f, match f with
            | VFun name => Ok (VStr name, [])
            | _ => name ← get h f "name"; Ok (name, [])
            end)
    (λ h name, s ← to_string name; Ok (VStr ("[function " +:+ s +:+ "]"), [])).

Definition DefaultSymbolConverter : Converter :=
  Converter.create
    (λ h s, match s with
            | VSym (GlobalSymbol key) => Ok (VStr key, [])
            | VSym (LocalSymbol _ description) => Ok (VStr description, [])
            | _ => Err TypeError
            end)
    (λ h key, s ← to_string key; Ok (VSym (GlobalSymbol s), [])).

Abbreviation ConverterConfig := (gmap string Converter).

(** [Object.assign(target, source)] on converter tables: the keys of
    [source] overwrite those of [target]. *)
Definition assign_config (target source : ConverterConfig) : ConverterConfig :=
  source ∪ target.

(** A class constructor: [new constructor(...args)] builds one object. *)
Record AnyConstructor := {
  class : class_ref;
  construct : heap → list value → res object
}.

Definition new (constructor : AnyConstructor) (h : heap) (args : list value)
    : res (value * list object) :=
  o ← construct constructor h args; Ok (VObj (length h), [o]).

(** [obj.valueOf()] *)
Definition valueOf_method (h : heap) (obj : value) : res value :=
  match obj with
  | VUndefined | VNull => Err TypeError
  | VObj l =>
      match h !! l with
      | Some o => Ok (match internal o with PrimitiveValue v => v | _ => obj end)
      | None => Err Dangling
      end
  | _ => Ok obj
  end.

Fixpoint chars (s : string) : list value :=
  match s with
  | EmptyString => []
  | String c s' => VStr (String c EmptyString) :: chars s'
  end.

(** [[...obj[Symbol.iterator]()]]: the elements and the entry arrays a [Map]
    iterator allocates on the way. *)
Definition iterate (h : heap) (obj : value) : res (list value * list object) :=
  match obj with
  | VStr s => Ok (chars s, [])
  | VObj l =>
      match h !! l with
      | Some o =>
          match internal o with
          | ArrayData elems | SetData elems => Ok (elems, [])
          | MapData entries =>
              Ok (imap (λ i _, VObj (length h + i)) entries,
                  (λ e, array [e.1; e.2]) <$> entries)
          | PrimitiveValue (VStr s) => Ok (chars s, [])
          | _ => Err TypeError
          end
      | None => Err Dangling
      end
  | _ => Err TypeError
  end.

(** The own enumerable properties an object spread or [Object.assign] reads
    from a source. *)
Definition spread (h : heap) (source : value) : res (list (string * value)) :=
  match source with
  | VObj l =>
      match h !! l with
      | Some o => Ok (own_enumerable o)
      | None => Err Dangling
      end
  | VStr s => Ok (imap (λ i c, (String_ i, c)) (chars s))
  | _ => Ok []
  end.

Definition assign (target : object) (source : list (string * value)) : object :=
  foldl (λ t kv, object_set t kv.1 kv.2) target source.

Module Converters.
Definition valueOf (constructor : AnyConstructor) : ConverterConfig :=
  {[ class_name (class constructor) :=
       Converter.create
         (λ h obj, v ← valueOf_method h obj; Ok (v, []))
         (λ h value, new constructor h [value]) ]}.

Definition fromIterable (constructor : AnyConstructor) : ConverterConfig :=
  {[ class_name (class constructor) :=
       Converter.create
         (λ h obj,
            '(elems, fresh) ← iterate h obj;
            Ok (VObj (length h + length fresh), fresh ++ [array elems]))
         (λ h elems, new constructor h [elems]) ]}.

Definition allProps (constructor : AnyConstructor) : ConverterConfig :=
  {[ class_name (class constructor) :=
       Converter.create
         (λ h obj,
            source ← spread h obj;
            Ok (VObj (length h), [assign (plain []) source]))
         (λ h state,
            o ← construct constructor h [];
            source ← spread h state;
            Ok (VObj (length h), [assign o source])) ]}.

Definition pick (constructor : AnyConstructor) (props : list string)
    : ConverterConfig :=
  {[ class_name (class constructor) :=
       Converter.create
         (λ h obj,
            result ← foldl (λ acc prop,
                             result ← acc;
                             v ← get h obj prop;
                             Ok (object_set result prop v))
                       (Ok (plain [])) props;
            Ok (VObj (length h), [result]))
         (λ h obj,
            o ← construct constructor h [];
            source ← spread h obj;
            Ok (VObj (length h), [assign o source])) ]}.

Definition all (toConverter : AnyConstructor → ConverterConfig)
    (constructors : list AnyConstructor) : ConverterConfig :=
  foldl (λ result item, assign_config result (toConverter item)) ∅ constructors.
End Converters.

(** ** The default text codec

    [JSON.stringify] and [JSON.parse] are part of the language, not of the
    library.  A text is represented by the JSON document it denotes, so that
    parsing what was printed gives the document back; what the model keeps
    is what printing loses: a property whose value is [undefined], a function
    or a symbol is omitted, and a number that is not finite becomes [null]. *)

Local Unset Elimination Schemes.
Inductive json :=
| JNull
| JBool (b : bool)
| JNum (z : Z)
| JStr (s : string)
| JArr (items : list json)
| JObj (fields : list (string * json)).
Local Set Elimination Schemes.

Module JSON.
(** The JSON form of a property value held by an item; [None] when the
    property is omitted. *)
Definition of_value (v : value) : res (option json) :=
  match v with
  | VUndefined | VFun _ | VSym _ => Ok None
  | VNull => Ok (Some JNull)
  | VBool b => Ok (Some (JBool b))
  | VNum (Fin z) => Ok (Some (JNum z))
  | VNum _ => Ok (Some JNull)
  | VStr s => Ok (Some (JStr s))
  | VObj _ => Err Unmodelled
  end.

Definition field (key : string) (v : value) : res (list (string * json)) :=
  o ← of_value v;
  Ok (match o with Some j => [(key, j)] | None => [] end).

(** [JSON.stringify(item)] for an intermediate item, which in JavaScript is
    the object [{val}], [{ref}], [{obj}], [{fun}], [{sym}], an array or
    [{proto, state}]. *)
Fixpoint stringify (item : SerItem) : res json :=
  match item with
  | SVal val => JObj <$> field "val" val
  | SRef ref => Ok (JObj [("ref", JArr (JStr <$> ref))])
  | SObj obj =>
      fields ← (fix go (obj : list (string * SerItem)) :=
                  match obj with
                  | [] => Ok []
                  | (key, sub) :: obj' =>
                      j ← stringify sub; js ← go obj'; Ok ((key, j) :: js)
                  end) obj;
      Ok (JObj [("obj", JObj fields)])
  | SFun fun_ => j ← stringify fun_; Ok (JObj [("fun", j)])
  | SSym sym => JObj <$> field "sym" sym
  | SArr items =>
      js ← (fix go (items : list SerItem) :=
              match items with
              | [] => Ok []
              | sub :: items' => j ← stringify sub; js ← go items'; Ok (j :: js)
              end) items;
      Ok (JArr js)
  | SProto proto state =>
      j ← stringify state; Ok (JObj [("proto", JStr proto); ("state", j)])
  end.

(** A parsed primitive as a JavaScript value. *)
Definition to_value (j : json) : res value :=
  match j with
  | JNull => Ok VNull
  | JBool b => Ok (VBool b)
  | JNum z => Ok (VNum (Fin z))
  | JStr s => Ok (VStr s)
  | JArr _ | JObj _ => Err Unmodelled
  end.

Definition to_path (j : json) : res Path :=
  match j with
  | JArr items =>
      foldr (λ j acc, match j with
                      | JStr s => path ← acc; Ok (s :: path)
                      | _ => Err Unmodelled
                      end) (Ok []) items
  | _ => Err Unmodelled
  end.

(** [JSON.parse(text)] read as an intermediate item, with the tests of
    [des] in their order: ['val' in item], ['fun' in item], ['sym' in
    item], ['ref' in item], ['obj' in item], [Array.isArray(item)],
    ['proto' in item]; anything else is the [unknown item] of [des], and
    the [in] operator on a primitive is a [TypeError]. *)
Fixpoint parse (text : json) : res SerItem :=
  match text with
  | JNull | JBool _ | JNum _ | JStr _ => Err TypeError
  | JArr items =>
      SArr <$> (fix go (items : list json) :=
                  match items with
                  | [] => Ok []
                  | j :: items' => sub ← parse j; subs ← go items'; Ok (sub :: subs)
                  end) items
  | JObj fields =>
      (* each field with its value read as an item or, under the key
         [obj], as a table of items *)
      let parsed :=
        (fix go (fields : list (string * json)) :=
           match fields with
           | [] => []
           | (key, j) :: fields' =>
               (key, (j,
                  if decide (key = "obj") then
                    match j with
                    | JObj inner =>
                        SObj <$> (fix table (inner : list (string * json)) :=
                                    match inner with
                                    | [] => Ok []
                                    | (k, j') :: inner' =>
                                        sub ← parse j'; subs ← table inner';
                                        Ok ((k, sub) :: subs)
                                    end) inner
                    | _ => Err Unmodelled
                    end
                  else parse j)) :: go fields'
           end) fields in
      match assoc_get "val" parsed with
      | Some (j, _) => SVal <$> to_value j
      | None =>
      match assoc_get "fun" parsed with
      | Some (_, sub) => SFun <$> sub
      | None =>
      match assoc_get "sym" parsed with
      | Some (j, _) => SSym <$> to_value j
      | None =>
      match assoc_get "ref" parsed with
      | Some (j, _) => SRef <$> to_path j
      | None =>
      match assoc_get "obj" parsed with
      | Some (_, table) => table
      | None =>
      match assoc_get "proto" parsed with
      | Some (JStr proto, _) =>
          match assoc_get "state" parsed with
          | Some (_, sub) => SProto proto <$> sub
          | None => Err TypeError
          end
      | Some _ => Err Unmodelled
      | None => Err UnknownItem
      end end end end end end
  end.
End JSON.

(** ** Options *)

Record Stringifier := {
  convertToString : SerItem → res json;
  convertFromString : json → res SerItem
}.

Record Options := {
  noRefs : bool;
  functionConverter : Converter;
  symbolConverter : Converter;
  stringifier : Stringifier
}.

Definition defaultOptions : Options := {|
  noRefs := false;
  functionConverter := DefaultFunctionConverter;
  symbolConverter := DefaultSymbolConverter;
  stringifier := {| convertToString := λ value, JSON.stringify value;
                    convertFromString := λ value, JSON.parse value |}
|}.

(** ** The two passes *)

(** Calling a converter function: its fresh objects join the heap. *)
Definition call (f : conversion) (h : heap) (v : value) : res (value * heap) :=
  '(r, fresh) ← f h v; Ok (r, h ++ fresh).

(** [array.sort(compare)]: the stable arrangement in which [a] comes before
    [b] whenever [compare a b < 0]. *)
Fixpoint sort_insert {A} (compare : A → A → Z) (a : A) (sorted : list A) : list A :=
  match sorted with
  | [] => [a]
  | b :: rest =>
      if decide (compare a b ≤ 0)%Z then a :: b :: rest
      else b :: sort_insert compare a rest
  end.

Definition sort {A} (compare : A → A → Z) (l : list A) : list A :=
  foldr (sort_insert compare) [] l.

Abbreviation Dict := (gmap loc Path).

Section engine.
(** [const { converters, options } = this] *)
Context (converters : ConverterConfig) (options : Options).

(** [item.map((elem, index) => ser(elem, [...path, String(index)]))] *)
Fixpoint ser_elems (ser : value → Path → heap → Dict → res (SerItem * (heap * Dict)))
    (path : Path) (elems : list value) (index : nat) (h : heap) (dict : Dict)
    : res (list SerItem * (heap * Dict)) :=
  match elems with
  | [] => Ok ([], (h, dict))
  | elem :: rest =>
      '(r, (h, dict)) ← ser elem (path ++ [String_ index]) h dict;
      '(rs, st) ← ser_elems ser path rest (S index) h dict;
      Ok (r :: rs, st)
  end.

(** [for (const key in item) obj[key] = ser(item[key], [...path, key])] *)
Fixpoint ser_props (ser : value → Path → heap → Dict → res (SerItem * (heap * Dict)))
    (path : Path) (entries : list (string * value)) (obj : list (string * SerItem))
    (h : heap) (dict : Dict) : res (list (string * SerItem) * (heap * Dict)) :=
  match entries with
  | [] => Ok (obj, (h, dict))
  | (key, v) :: rest =>
      '(r, (h, dict)) ← ser v (path ++ [key]) h dict;
      ser_props ser path rest (assoc_set key r obj) h dict
  end.

Fixpoint ser (fuel : nat) (item : value) (path : Path) (h : heap) (dict : Dict)
    : res (SerItem * (heap * Dict)) :=
  match fuel with
  | 0 => OutOfFuel
  | S fuel =>
      match item with
      | VFun _ =>
          '(state, h) ← call (from (functionConverter options)) h item;
          '(r, st) ← ser fuel state path h dict;
          Ok (SFun r, st)
      | VUndefined | VNull | VBool _ | VNum _ | VStr _ => Ok (SVal item, (h, dict))
      | VSym _ =>
          '(sym, h) ← call (from (symbolConverter options)) h item;
          Ok (SSym sym, (h, dict))
      | VObj l =>
          match dict !! l with
          | Some ref =>
              if noRefs options then Err ReferenceFound
              else Ok (SRef ref, (h, dict))
          | None =>
              let dict := <[l := path]> dict in
              match h !! l with
              | None => Err Dangling
              | Some o =>
                  match internal o with
                  | ArrayData elems =>
                      '(items, st) ← ser_elems (ser fuel) path elems 0 h dict;
                      Ok (SArr items, st)
                  | _ =>
                      match ctor o with
                      | None => Err NoConstructor
                      | Some constructor =>
                          let name := class_name constructor in
                          if decide (name = "Object") then
                            '(obj, st) ← ser_props (ser fuel) path (own_enumerable o) [] h dict;
                            Ok (SObj obj, st)
                          else
                            match converters !! name with
                            | None => Err UnregisteredClass
                            | Some converter =>
                                '(state, h) ← call (from converter) h item;
                                '(r, st) ← ser fuel state path h dict;
                                Ok (SProto name r, st)
                            end
                      end
                  end
              end
          end
      end
  end.

Definition normalize (fuel : nat) (h : heap) (input : value) : res (SerItem * heap) :=
  '(r, (h, _)) ← ser fuel input [] h ∅; Ok (r, h).

(** The first pass of [denormalize]; [actions.push] appends. *)
Fixpoint des (item : SerItem) (path : Path) (h : heap) (actions : list Action)
    : res (value * (heap * list Action)) :=
  match item with
  | SVal val => Ok (val, (h, actions))
  | SFun fun_ =>
      '(r, (h, actions)) ← des fun_ path h actions;
      '(v, h) ← call (to (functionConverter options)) h r;
      Ok (v, (h, actions))
  | SSym sym =>
      '(v, h) ← call (to (symbolConverter options)) h sym;
      Ok (v, (h, actions))
  | SRef ref => Ok (VNull, (h, actions ++ [ReferenceFixup path ref]))
  | SObj obj =>
      let result := VObj (length h) in
      st ← (fix go (obj : list (string * SerItem)) (h : heap) (actions : list Action) :=
              match obj with
              | [] => Ok (h, actions)
              | (key, sub) :: obj' =>
                  '(v, (h, actions)) ← des sub (path ++ [key]) h actions;
                  h ← set h result key v;
                  go obj' h actions
              end) obj (h ++ [plain []]) actions;
      Ok (result, st)
  | SArr items =>
      '(elems, (h, actions)) ←
        (fix go (items : list SerItem) (index : nat) (h : heap) (actions : list Action) :=
           match items with
           | [] => Ok ([], (h, actions))
           | elem :: items' =>
               '(v, (h, actions)) ← des elem (path ++ [String_ index]) h actions;
               '(vs, st) ← go items' (S index) h actions;
               Ok (v :: vs, st)
           end) items 0 h actions;
      Ok (VObj (length h), (h ++ [array elems], actions))
  | SProto proto state =>
      des state path h (actions ++ [ConversionFixup proto path])
  end.

(** The second pass: [for (const action of actions)], with the [return]
    from inside the loop when a conversion addresses the root. *)
Fixpoint fixup (actions : list Action) (result : value) (h : heap)
    : res (value * heap) :=
  match actions with
  | [] => Ok (result, h)
  | ReferenceFixup target source :: rest =>
      h ← Path.copyProperty h result source target;
      fixup rest result h
  | ConversionFixup convertTo path :: rest =>
      match converters !! convertTo with
      | None => Err NoConverter
      | Some converter =>
          if decide (length path ≤ 0) then call (to converter) h result
          else
            parent ← Path.find h result (Arr.init path);
            let propName := default "undefined" (Arr.last path) in
            current ← get h parent propName;
            '(v, h) ← call (to converter) h current;
            h ← set h parent propName v;
            fixup rest result h
      end
  end.

Definition denormalize (h : heap) (input : SerItem) : res (value * heap) :=
  '(result, (h, actions)) ← des input [] h [];
  fixup (sort Action.compare actions) result h.

Definition clone (fuel : nat) (h : heap) (input : value) : res (value * heap) :=
  '(r, h) ← normalize fuel h input; denormalize h r.

Definition serialize (fuel : nat) (h : heap) (input : value) : res (json * heap) :=
  '(r, h) ← normalize fuel h input;
  text ← convertToString (stringifier options) r;
  Ok (text, h).

Definition deserialize (h : heap) (input : json) : res (value * heap) :=
  r ← convertFromString (stringifier options) input;
  denormalize h r.
End engine.

(** ** Built-in classes behind [Converters.default]

    The constructors of the language, as far as the default registry calls
    them: each receives what the matching converter extracted. *)

Module Builtin.
(** [ToBoolean] *)
Definition to_boolean (v : value) : bool :=
  match v with
  | VUndefined | VNull | VBool false | VNum NaN | VStr EmptyString => false
  | VNum (Fin z) => bool_decide (z ≠ 0%Z)
  | _ => true
  end.

Fixpoint map_set (entries : list (value * value)) (k v : value) : list (value * value) :=
  match entries with
  | [] => [(k, v)]
  | (k', v') :: rest =>
      if decide (k' = k) then (k', v) :: rest else (k', v') :: map_set rest k v
  end.

Definition set_add (elems : list value) (v : value) : list value :=
  if decide (v ∈ elems) then elems else elems ++ [v].

Definition Date : AnyConstructor := {|
  class := DateClass;
  construct := λ h args,
    match args with
    | [VNum n] => Ok (Object (Some DateClass) [] (PrimitiveValue (VNum n)))
    | _ => Err Unmodelled
    end
|}.

Definition Boolean : AnyConstructor := {|
  class := BooleanClass;
  construct := λ h args,
    Ok (Object (Some BooleanClass) []
          (PrimitiveValue (VBool (to_boolean (default VUndefined (args !! 0))))))
|}.

Definition String : AnyConstructor := {|
  class := StringClass;
  construct := λ h args,
    match args with
    | [VStr s] => Ok (Object (Some StringClass) [] (PrimitiveValue (VStr s)))
    | _ => Err Unmodelled
    end
|}.

Definition Number : AnyConstructor := {|
  class := NumberClass;
  construct := λ h args,
    match args with
    | [VNum n] => Ok (Object (Some NumberClass) [] (PrimitiveValue (VNum n)))
    | _ => Err Unmodelled
    end
|}.

Definition Map : AnyConstructor := {|
  class := MapClass;
  construct := λ h args,
    match default VUndefined (args !! 0) with
    | VUndefined | VNull => Ok (Object (Some MapClass) [] (MapData []))
    | iterable =>
        '(entries, fresh) ← iterate h iterable;
        data ← foldl (λ acc entry,
                        data ← acc;
                        match entry with
                        | VObj _ =>
                            k ← get (h ++ fresh) entry "0";
                            v ← get (h ++ fresh) entry "1";
                            Ok (map_set data k v)
                        | _ => Err TypeError
                        end) (Ok []) entries;
        Ok (Object (Some MapClass) [] (MapData data))
    end
|}.

Definition Set_ : AnyConstructor := {|
  class := SetClass;
  construct := λ h args,
    match default VUndefined (args !! 0) with
    | VUndefined | VNull => Ok (Object (Some SetClass) [] (SetData []))
    | iterable =>
        '(elems, _) ← iterate h iterable;
        Ok (Object (Some SetClass) [] (SetData (foldl set_add [] elems)))
    end
|}.

Definition Error : AnyConstructor := {|
  class := ErrorClass;
  construct := λ h args, Ok (Object (Some ErrorClass) [] Ordinary)
|}.
End Builtin.

Module ConvertersDefault.
(** [Converters.default] *)
Definition default : ConverterConfig :=
  assign_config
    (assign_config
       (assign_config ∅
          (Converters.all Converters.valueOf
             [Builtin.Date; Builtin.Boolean; Builtin.String; Builtin.Number]))
       (Converters.all Converters.fromIterable [Builtin.Map; Builtin.Set_]))
    (Converters.pick Builtin.Error ["name"; "message"]).
End ConvertersDefault.

(** ** The engine façade

    An engine holds references to a converter table and to an options
    object.  Both are JavaScript objects: they live in a store of their own,
    and [withConverters] and [withOptions] allocate in it. *)

Record Store := {
  tables : list ConverterConfig;
  settings : list Options
}.

Record Deserted := {
  converters : nat;
  options : nat
}.

#[global] Instance Deserted_eq_dec : EqDecision Deserted.
Proof. solve_decision. Defined.

(** The keys an options argument carries. *)
Record OptionsPatch := {
  patch_noRefs : option bool;
  patch_functionConverter : option Converter;
  patch_symbolConverter : option Converter;
  patch_stringifier : option Stringifier
}.

(** [{ ...base, ...patch }] *)
Definition spread_options (base : Options) (patch : OptionsPatch) : Options := {|
  noRefs := default (noRefs base) (patch_noRefs patch);
  functionConverter := default (functionConverter base) (patch_functionConverter patch);
  symbolConverter := default (symbolConverter base) (patch_symbolConverter patch);
  stringifier := default (stringifier base) (patch_stringifier patch)
|}.

Module Deserted.
(** [new Deserted(converters, options)] with both arguments already in
    the store. *)
Definition make (converters options : nat) : Deserted :=
  {| converters := converters; options := options |}.

(** The store a program starts from: [Converters.default], the empty
    table literal of [Deserted.empty] and [defaultOptions]. *)
Definition initial : Store :=
  {| tables := [ConvertersDefault.default; ∅]; settings := [defaultOptions] |}.

Definition default : Deserted := make 0 0.
Definition empty : Deserted := make 1 0.

Definition table (st : Store) (this : Deserted) : res ConverterConfig :=
  match tables st !! converters this with
  | Some t => Ok t
  | None => Err Dangling
  end.

Definition setting (st : Store) (this : Deserted) : res Options :=
  match settings st !! options this with
  | Some o => Ok o
  | None => Err Dangling
  end.

(** [withConverters]: a copy of the table of [this] is allocated and each
    fragment is assigned onto the copy, in the store. *)
Definition withConverters (st : Store) (this : Deserted)
    (fragments : list ConverterConfig) : res (Deserted * Store) :=
  current ← table st this;
  let newConverters := length (tables st) in
  let st := {| tables := tables st ++ [current]; settings := settings st |} in
  st ← foldl (λ acc converter,
                st ← acc;
                match tables st !! newConverters with
                | Some target =>
                    Ok {| tables := <[newConverters := assign_config target converter]> (tables st);
                          settings := settings st |}
                | None => Err Dangling
                end) (Ok st) fragments;
  Ok (make newConverters (options this), st).

Definition withOptions (st : Store) (this : Deserted) (patch : OptionsPatch)
    : res (Deserted * Store) :=
  current ← setting st this;
  let newOptions := length (settings st) in
  Ok (make (converters this) newOptions,
      {| tables := tables st; settings := settings st ++ [spread_options current patch] |}).

Definition normalize (st : Store) (this : Deserted) (fuel : nat) (h : heap) (input : value) :=
  c ← table st this; o ← setting st this; normalize c o fuel h input.

Definition denormalize (st : Store) (this : Deserted) (h : heap) (input : SerItem) :=
  c ← table st this; o ← setting st this; denormalize c o h input.

Definition clone (st : Store) (this : Deserted) (fuel : nat) (h : heap) (input : value) :=
  c ← table st this; o ← setting st this; clone c o fuel h input.

Definition serialize (st : Store) (this : Deserted) (fuel : nat) (h : heap) (input : value) :=
  c ← table st this; o ← setting st this; serialize c o fuel h input.

Definition deserialize (st : Store) (this : Deserted) (h : heap) (input : json) :=
  c ← table st this; o ← setting st this; deserialize c o h input.
End Deserted.

(** [export const deserted = Deserted.default()] *)
Definition deserted : Deserted := Deserted.default.

(** ** Notions the properties are stated with *)




Definition ser_fn := value → Path → heap → Dict → res (SerItem * (heap * Dict)).

(** [f] extends the state it is given: the heap by appending, the identity
    map by new keys. *)
Definition extending (f : ser_fn) : Prop :=
  ∀ v p h d r h' d', f v p h d = Ok (r, (h', d')) → h `prefix_of` h' ∧ d ⊆ d'.

(** Two classes that share the runtime name [Test], and an instance with a
    self reference, for concrete runs. *)
Definition TestClass : class_ref := Class 100 "Test".
Definition OtherTestClass : class_ref := Class 101 "Test".

Definition Test : AnyConstructor := {|
  class := TestClass;
  construct := λ h args, Ok (Object (Some TestClass) [] Ordinary)
|}.

Definition OtherTest : AnyConstructor := {|
  class := OtherTestClass;
  construct := λ h args, Ok (Object (Some OtherTestClass) [("other", VBool true)] Ordinary)
|}.

Definition the_converter (c : ConverterConfig) (name : string) : Converter :=
  default DefaultFunctionConverter (c !! name).

(** *** Structural equality of two values of one heap

    [similar n] compares down to depth [n]: primitives are equal, composites
    have the same class, the same keys in the same order and the same kind
    of internal data, with similar parts.  Two values are structurally equal
    when they are similar at every depth, which also covers cyclic values. *)

Definition similar_list (R : value → value → Prop) (l1 l2 : list value) : Prop :=
  Forall2 R l1 l2.

Fixpoint similar (n : nat) (h : heap) (v1 v2 : value) : Prop :=
  match n with
  | 0 => True
  | S n =>
      match v1, v2 with
      | VObj l1, VObj l2 =>
          match h !! l1, h !! l2 with
          | Some o1, Some o2 =>
              ctor o1 = ctor o2
              ∧ (props o1).*1 = (props o2).*1
              ∧ similar_list (similar n h) (props o1).*2 (props o2).*2
              ∧ match internal o1, internal o2 with
                | Ordinary, Ordinary => True
                | ArrayData e1, ArrayData e2 => similar_list (similar n h) e1 e2
                | PrimitiveValue p1, PrimitiveValue p2 => similar n h p1 p2
                | MapData m1, MapData m2 =>
                    similar_list (similar n h) m1.*1 m2.*1
                    ∧ similar_list (similar n h) m1.*2 m2.*2
                | SetData e1, SetData e2 => similar_list (similar n h) e1 e2
                | _, _ => False
                end
          | _, _ => False
          end
      | VObj _, _ | _, VObj _ => False
      | _, _ => v1 = v2
      end
  end.

Definition structurally_equal (h : heap) (v1 v2 : value) : Prop :=
  ∀ n, similar n h v1 v2.

(** *** Plain data: primitives, arrays and plain objects *)

Definition plain_value_in (n : nat) (v : value) : bool :=
  match v with
  | VSym _ | VFun _ => false
  | VObj l => bool_decide (l < n)
  | _ => true
  end.

Definition plain_object_in (n : nat) (o : object) : bool :=
  match internal o with
  | ArrayData elems =>
      bool_decide (ctor o = Some ArrayClass) && bool_decide (props o = [])
      && forallb (plain_value_in n) elems
  | Ordinary =>
      bool_decide (ctor o = Some ObjectClass) && bool_decide (NoDup (props o).*1)
      && forallb (plain_value_in n) (props o).*2
  | _ => false
  end.

(** Every object of the heap is an array or a plain object, its parts are
    primitives or objects of the heap, and its keys are distinct. *)
Definition plain_heap (h : heap) : Prop :=
  forallb (plain_object_in (length h)) h = true.

(** *** Reaching a value along a path of own properties *)

Definition child (h : heap) (v : value) (s : string) (c : value) : Prop :=
  ∃ l o, v = VObj l ∧ h !! l = Some o ∧ (s, c) ∈ own_enumerable o.

Inductive reach (h : heap) : value → Path → value → Prop :=
| reach_here v : reach h v [] v
| reach_step v s c p v' : child h v s c → reach h c p v' → reach h v (s :: p) v'.




(** *** Positions of an intermediate tree *)

Fixpoint sub_at (t : SerItem) (p : Path) : option SerItem :=
  match p with
  | [] => Some t
  | s :: p' =>
      match t with
      | SArr items =>
          i ← index_of s (length items); x ← items !! i; sub_at x p'
      | SObj obj => x ← assoc_get s obj; sub_at x p'
      | _ => None
      end
  end.

Definition is_node (t : SerItem) : Prop :=
  match t with SArr _ | SObj _ => True | _ => False end.

(** Trees of plain data: values, references, objects with distinct keys and
    arrays. *)
Fixpoint wf_tree (t : SerItem) : Prop :=
  match t with
  | SVal v => plain_value_in 0 v = true
  | SRef _ => True
  | SObj obj =>
      NoDup obj.*1
      ∧ (fix go (obj : list (string * SerItem)) :=
           match obj with [] => True | kx :: obj' => wf_tree kx.2 ∧ go obj' end) obj
  | SArr items =>
      (fix go (items : list SerItem) :=
         match items with [] => True | x :: items' => wf_tree x ∧ go items' end) items
  | _ => False
  end.

(** *** What the first pass of [denormalize] builds

    [size t] objects are allocated for [t]; laid out from location [b] they
    are [lay ρ t b path], and the value returned is [val ρ t b path], where
    [ρ] gives the value standing at the position of each reference. *)

Fixpoint size (t : SerItem) : nat :=
  match t with
  | SObj obj =>
      S ((fix go (obj : list (string * SerItem)) :=
            match obj with [] => 0 | kx :: obj' => size kx.2 + go obj' end) obj)
  | SArr items =>
      S ((fix go (items : list SerItem) :=
            match items with [] => 0 | x :: items' => size x + go items' end) items)
  | _ => 0
  end.

Definition sizes (items : list SerItem) : nat := sum_list (size <$> items).

Definition val (ρ : Path → value) (t : SerItem) (b : nat) (path : Path) : value :=
  match t with
  | SVal v => v
  | SRef _ => ρ path
  | SObj _ => VObj b
  | SArr items => VObj (b + sizes items)
  | _ => VUndefined
  end.

Fixpoint vals_obj (ρ : Path → value) (path : Path) (obj : list (string * SerItem))
    (b : nat) : list (string * value) :=
  match obj with
  | [] => []
  | (k, x) :: obj' => (k, val ρ x b (path ++ [k])) :: vals_obj ρ path obj' (b + size x)
  end.

Fixpoint vals_arr (ρ : Path → value) (path : Path) (items : list SerItem)
    (index b : nat) : list value :=
  match items with
  | [] => []
  | x :: items' =>
      val ρ x b (path ++ [String_ index]) :: vals_arr ρ path items' (S index) (b + size x)
  end.

Fixpoint lay (ρ : Path → value) (t : SerItem) (b : nat) (path : Path) : list object :=
  match t with
  | SObj obj =>
      plain (vals_obj ρ path obj (S b))
      :: (fix go (obj : list (string * SerItem)) (b : nat) :=
            match obj with
            | [] => []
            | kx :: obj' => lay ρ kx.2 b (path ++ [kx.1]) ++ go obj' (b + size kx.2)
            end) obj (S b)
  | SArr items =>
      (fix go (items : list SerItem) (index b : nat) :=
         match items with
         | [] => []
         | x :: items' =>
             lay ρ x b (path ++ [String_ index]) ++ go items' (S index) (b + size x)
         end) items 0 b
      ++ [array (vals_arr ρ path items 0 b)]
  | _ => []
  end.

Definition lay_obj (ρ : Path → value) (path : Path) :=
  fix go (obj : list (string * SerItem)) (b : nat) : list object :=
    match obj with
    | [] => []
    | kx :: obj' => lay ρ kx.2 b (path ++ [kx.1]) ++ go obj' (b + size kx.2)
    end.

Definition lay_arr (ρ : Path → value) (path : Path) :=
  fix go (items : list SerItem) (index b : nat) : list object :=
    match items with
    | [] => []
    | x :: items' =>
        lay ρ x b (path ++ [String_ index]) ++ go items' (S index) (b + size x)
    end.

(** The reference fixups the first pass records, in its order. *)
Fixpoint refs (t : SerItem) (path : Path) : list Action :=
  match t with
  | SRef ref => [ReferenceFixup path ref]
  | SObj obj =>
      (fix go (obj : list (string * SerItem)) :=
         match obj with
         | [] => []
         | kx :: obj' => refs kx.2 (path ++ [kx.1]) ++ go obj'
         end) obj
  | SArr items =>
      (fix go (items : list SerItem) (index : nat) :=
         match items with
         | [] => []
         | x :: items' => refs x (path ++ [String_ index]) ++ go items' (S index)
         end) items 0
  | _ => []
  end.

Definition refs_obj (path : Path) :=
  fix go (obj : list (string * SerItem)) : list Action :=
    match obj with
    | [] => []
    | kx :: obj' => refs kx.2 (path ++ [kx.1]) ++ go obj'
    end.

Definition refs_arr (path : Path) :=
  fix go (items : list SerItem) (index : nat) : list Action :=
    match items with
    | [] => []
    | x :: items' => refs x (path ++ [String_ index]) ++ go items' (S index)
    end.

(** The subtree at a position together with the location its objects are
    laid out from. *)
Fixpoint locate_obj (obj : list (string * SerItem)) (s : string) (b : nat)
    : option (SerItem * nat) :=
  match obj with
  | [] => None
  | (k, x) :: obj' =>
      if decide (k = s) then Some (x, b) else locate_obj obj' s (b + size x)
  end.

Fixpoint locate_arr (items : list SerItem) (i : nat) (b : nat)
    : option (SerItem * nat) :=
  match items, i with
  | [], _ => None
  | x :: _, 0 => Some (x, b)
  | x :: items', S i => locate_arr items' i (b + size x)
  end.

Fixpoint locate (t : SerItem) (b : nat) (p : Path) : option (SerItem * nat) :=
  match p with
  | [] => Some (t, b)
  | s :: p' =>
      match t with
      | SArr items =>
          i ← index_of s (length items);
          '(x, b') ← locate_arr items i b;
          locate x b' p'
      | SObj obj =>
          '(x, b') ← locate_obj obj s (S b);
          locate x b' p'
      | _ => None
      end
  end.

(** The value the second pass leaves at the position of a reference: the
    object laid out for the source of the reference. *)
Definition resolved (t : SerItem) (b : nat) (p : Path) : value :=
  match sub_at t p with
  | Some (SRef source) =>
      match locate t b source with
      | Some (x, b') => val (λ _, VNull) x b' source
      | None => VUndefined
      end
  | _ => VNull
  end.

Definition fn_update (ρ : Path → value) (p : Path) (x : value) : Path → value :=
  λ q, if decide (q = p) then x else ρ q.

(** *** What [ser] computes on plain data *)

(** The tree [t] standing at [path] describes the value [v]: a primitive by
    itself, a composite either by a reference to its canonical path or, at
    its canonical path, by a node. *)
Definition describes (d : Dict) (t : SerItem) (path : Path) (v : value) : Prop :=
  match v with
  | VObj l =>
      (∃ ref, t = SRef ref ∧ d !! l = Some ref) ∨ (d !! l = Some path ∧ is_node t)
  | _ => t = SVal v
  end.

Definition describes_object (d : Dict) (o : object) (t : SerItem) (path : Path) : Prop :=
  match internal o with
  | ArrayData elems =>
      ∃ items, t = SArr items ∧ length items = length elems ∧
        ∀ i e x, elems !! i = Some e → items !! i = Some x →
                 describes d x (path ++ [String_ i]) e
  | _ =>
      ∃ obj, t = SObj obj ∧ obj.*1 = (props o).*1 ∧
        ∀ i k e x, props o !! i = Some (k, e) → obj !! i = Some (k, x) →
                   describes d x (path ++ [k]) e
  end.

(** The loops of [des], named. *)
Definition des_obj (options : Options) (result : value) (path : Path) :=
  fix go (obj : list (string * SerItem)) (h : heap) (actions : list Action)
      : res (heap * list Action) :=
    match obj with
    | [] => Ok (h, actions)
    | (key, sub) :: obj' =>
        '(v, (h, actions)) ← des options sub (path ++ [key]) h actions;
        h ← set h result key v;
        go obj' h actions
    end.

Definition des_arr (options : Options) (path : Path) :=
  fix go (items : list SerItem) (index : nat) (h : heap) (actions : list Action)
      : res (list value * (heap * list Action)) :=
    match items with
    | [] => Ok ([], (h, actions))
    | elem :: items' =>
        '(v, (h, actions)) ← des options elem (path ++ [String_ index]) h actions;
        '(vs, st) ← go items' (S index) h actions;
        Ok (v :: vs, st)
    end.

(** The references of the first pass stand for [null]. *)
Definition pending : Path → value := λ _, VNull.

(** The first pass on [t] returns [val] and appends [lay] and [refs]. *)
Definition des_lays (options : Options) (t : SerItem) : Prop :=
  wf_tree t → ∀ path h actions,
    des options t path h actions =
      Ok (val pending t (length h) path,
          (h ++ lay pending t (length h) path, actions ++ refs t path)).

(** The object the first pass allocates for a node, and where. *)
Definition node_loc (t : SerItem) (b : nat) : nat :=
  match t with
  | SArr items => b + sizes items
  | _ => b
  end.

Definition node_object (ρ : Path → value) (t : SerItem) (b : nat) (path : Path) : object :=
  match t with
  | SArr items => array (vals_arr ρ path items 0 b)
  | SObj obj => plain (vals_obj ρ path obj (S b))
  | _ => plain []
  end.

(** The heap holds, for every node of [T] laid out from [b], its object
    with [ρ] at the references. *)
Definition laid_out (T : SerItem) (b : nat) (ρ : Path → value) (H : heap) : Prop :=
  ∀ q node bq,
    locate T b q = Some (node, bq) → is_node node →
    H !! node_loc node bq = Some (node_object ρ node bq q).

(** The references at the positions [done] resolved, the others pending. *)
Definition after (T : SerItem) (b : nat) (done : list Path) : Path → value :=
  λ p, if decide (p ∈ done) then resolved T b p else VNull.

(** Every reference of the tree stands below the root and points at a
    node. *)
Definition refs_resolvable (T : SerItem) : Prop :=
  ∀ p source, sub_at T p = Some (SRef source) →
    p ≠ [] ∧ ∃ node, sub_at T source = Some node ∧ is_node node.

Arguments fn_update : simpl never.
Arguments after : simpl never.
Arguments resolved : simpl never.

(** An action that resolves a reference of [T]. *)
Definition resolves (T : SerItem) (a : Action) : Prop :=
  ∃ target source, a = ReferenceFixup target source ∧ sub_at T target = Some (SRef source).

(** What a successful [ser] of plain data establishes: the identity map
    grew from [d] to [d']; the tree is well formed and describes the item;
    each reference in it is the canonical path of some composite; and each
    composite recorded by this call was walked: its canonical path lies
    below [path] and the subtree there describes the object. *)
Definition ser_good (h : heap) (d : Dict) (path : Path) (item : value)
    (t : SerItem) (d' : Dict) : Prop :=
  d ⊆ d'
  ∧ wf_tree t
  ∧ describes d' t path item
  ∧ (∀ l, item = VObj l → d !! l = None → is_node t)
  ∧ (∀ q source, sub_at t q = Some (SRef source) → ∃ l, d' !! l = Some source)
  ∧ (∀ l pl, d !! l = None → d' !! l = Some pl →
       ∃ q o t', pl = path ++ q ∧ h !! l = Some o
                 ∧ sub_at t q = Some t' ∧ describes_object d' o t' pl).

(** The weight of the objects that are not in the identity map yet. *)
Fixpoint potential_from (w : object → nat) (k : nat) (h : heap) (d : Dict) : nat :=
  match h with
  | [] => 0
  | o :: h' =>
      (if d !! k is Some _ then 0 else w o) + potential_from w (S k) h' d
  end.

Definition potential (w : object → nat) (h : heap) (d : Dict) : nat :=
  potential_from w 0 h d.

(** [ser] with [fuel] is as [ser_good] says on the plain heap [h]. *)
Definition ser_plain_at (converters : ConverterConfig) (options : Options)
    (h : heap) (fuel : nat) : Prop :=
  ∀ item path d t h' d',
    plain_value_in (length h) item = true →
    ser converters options fuel item path h d = Ok (t, (h', d')) →
    h' = h ∧ ser_good h d path item t d'.

(** The outcomes of [ser] on plain data: a tree, with the heap as it was,
    or the error of [noRefs]. *)
Definition settles (options : Options) (h : heap) {A} (r : res (A * (heap * Dict))) : Prop :=
  (∃ t d', r = Ok (t, (h, d'))) ∨ (noRefs options = true ∧ r = Err ReferenceFound).

Definition unit_weight : object → nat := λ _, 1.

(** *** Copies

    [rename_object φ o] is [o] with every reference to a composite [l]
    replaced by the reference to [φ l]. *)
Definition rename_value (φ : loc → loc) (v : value) : value :=
  match v with
  | VObj l => VObj (φ l)
  | _ => v
  end.

Definition rename_object (φ : loc → loc) (o : object) : object :=
  Object (ctor o)
    ((λ kv, (kv.1, rename_value φ kv.2)) <$> props o)
    (match internal o with
     | Ordinary => Ordinary
     | ArrayData elems => ArrayData (rename_value φ <$> elems)
     | PrimitiveValue v => PrimitiveValue (rename_value φ v)
     | MapData entries =>
         MapData ((λ e, (rename_value φ e.1, rename_value φ e.2)) <$> entries)
     | SetData elems => SetData (rename_value φ <$> elems)
     end).

(** The composites reached from a value. *)
Definition reachable (h : heap) (v : value) (l : loc) : Prop :=
  ∃ p, reach h v p (VObj l).

(** [h'] holds a copy of what [v] reaches in [h]: every composite [l]
    reached from [v] has one image [φ l], allocated after [h], and the image
    holds the object of [l] with its references redirected to the images. *)
Definition copy_along (φ : loc → loc) (h : heap) (v : value) (h' : heap) : Prop :=
  ∀ l, reachable h v l →
    length h ≤ φ l ∧ ∃ o, h !! l = Some o ∧ h' !! φ l = Some (rename_object φ o).

(** The location laid out for the canonical path of a composite. *)
Definition image (T : SerItem) (b : nat) (D : Dict) (l : loc) : loc :=
  match D !! l with
  | Some pl =>
      match locate T b pl with
      | Some (node, bq) => node_loc node bq
      | None => 0
      end
  | None => 0
  end.

(** *** Concrete inputs *)

(** [{ ...defaultOptions, noRefs: true }] *)
Definition strictOptions : Options :=
  spread_options defaultOptions
    {| patch_noRefs := Some true; patch_functionConverter := None;
       patch_symbolConverter := None; patch_stringifier := None |}.


(** [o = {}; o.self = o] *)
Definition example_cycle : heap := [plain [("self", VObj 0)]].

(** [[f, f]] for a function [f]. *)
Definition example_functions : heap := [array [VFun "f"; VFun "f"]].

(** *** What [ser] itself walks

    [ser] goes from an array to its elements and from an object whose class
    is named [Object] to its own enumerable properties. *)
Definition walks (h : heap) (v : value) (s : string) (c : value) : Prop :=
  ∃ l o, v = VObj l ∧ h !! l = Some o ∧
    match internal o with
    | ArrayData elems => ∃ i, s = String_ i ∧ elems !! i = Some c
    | _ => ∃ cl, ctor o = Some cl ∧ class_name cl = "Object" ∧ (s, c) ∈ own_enumerable o
    end.

Inductive walk (h : heap) : value → Path → value → Prop :=
| walk_here v : walk h v [] v
| walk_step v s c p v' : walks h v s c → walk h c p v' → walk h v (s :: p) v'.

(** The composite [l] has been dealt with: its parts are in the identity
    map, or it is an instance of a registered class. *)
Definition dealt_with (converters : ConverterConfig) (h : heap) (d : Dict) (l : loc) : Prop :=
  ∃ o, h !! l = Some o ∧
    match internal o with
    | ArrayData elems => ∀ i l', elems !! i = Some (VObj l') → is_Some (d !! l')
    | _ =>
        ∃ cl, ctor o = Some cl ∧
          if decide (class_name cl = "Object")
          then ∀ s l', (s, VObj l') ∈ own_enumerable o → is_Some (d !! l')
          else is_Some (converters !! class_name cl)
    end.

(** [f] records the composite it is given and deals with every composite
    it records. *)
Definition thorough (converters : ConverterConfig) (f : ser_fn) : Prop :=
  ∀ v p h d r h' d', f v p h d = Ok (r, (h', d')) →
    (∀ l, v = VObj l → is_Some (d' !! l))
    ∧ ∀ l, d !! l = None → is_Some (d' !! l) → dealt_with converters h' d' l.

(** [[new Test()]], the array at location 1. *)
Definition example_instance : heap :=
  [Object (Some TestClass) [("x", VNull)] Ordinary; array [VObj 0]].

(** [shared = {value: 123}; [shared, {value: shared}, new Map([[1, shared]])]],
    the array at location 3: the advanced example of the README. *)
Definition example_readme : heap :=
  [plain [("value", VNum (Fin 123))];
   plain [("value", VObj 0)];
   Object (Some MapClass) [] (MapData [(VNum (Fin 1), VObj 0)]);
   array [VObj 0; VObj 1; VObj 2]].

(** [shared = {value: 123}; [shared, {m: new Map([[1, shared]])}]], the
    array at location 3. *)
Definition example_map_below : heap :=
  [plain [("value", VNum (Fin 123))];
   Object (Some MapClass) [] (MapData [(VNum (Fin 1), VObj 0)]);
   plain [("m", VObj 1)];
   array [VObj 0; VObj 2]].

(** [[new Map([[1, shared]]), shared]], the array at location 2: the order
    the test suite uses. *)
Definition example_map_first : heap :=
  [plain [("value", VNum (Fin 123))];
   Object (Some MapClass) [] (MapData [(VNum (Fin 1), VObj 0)]);
   array [VObj 1; VObj 0]].

(** [t = new Test(); t.self = t] *)
Definition example_self_instance : heap :=
  [Object (Some TestClass) [("self", VObj 0)] Ordinary].

(** [{a: t}] with [t = new Test(); t.self = t], the object at location 1. *)
Definition example_self_instance_below : heap :=
  [Object (Some TestClass) [("self", VObj 0)] Ordinary; plain [("a", VObj 0)]].

(** *** Converters under which normalize terminates

    Converter functions are arbitrary code.  [ser] recurses into what they
    return, so termination needs their help: a converter function returns
    (it never stands for a computation out of fuel); the function and symbol
    converters allocate nothing and the function converter does not answer
    with a function; and the state a registered converter extracts from an
    instance of its class is made of fresh objects that weigh less than the
    instance. *)
Definition is_function (v : value) : Prop :=
  match v with VFun _ => True | _ => False end.

Definition is_symbol (v : value) : Prop :=
  match v with VSym _ => True | _ => False end.

(** [o] is an instance that [ser] hands to the converter registered under
    [name]. *)
Definition instance_of (name : string) (o : object) : Prop :=
  isArray o = false ∧ name ≠ "Object" ∧ ∃ cl, ctor o = Some cl ∧ class_name cl = name.

Record tame (converters : ConverterConfig) (options : Options) (w : object → nat) : Prop := {
  tame_positive : ∀ o, 0 < w o;
  tame_function_returns :
    ∀ h v, is_function v → from (functionConverter options) h v ≠ OutOfFuel;
  tame_function_state :
    ∀ h v state fresh, is_function v →
      from (functionConverter options) h v = Ok (state, fresh) →
      fresh = [] ∧ ¬ is_function state;
  tame_symbol_returns :
    ∀ h v, is_symbol v → from (symbolConverter options) h v ≠ OutOfFuel;
  tame_symbol_state :
    ∀ h v state fresh, is_symbol v →
      from (symbolConverter options) h v = Ok (state, fresh) → fresh = [];
  tame_registry_returns :
    ∀ name converter h l, converters !! name = Some converter →
      from converter h (VObj l) ≠ OutOfFuel;
  tame_registry_extracts :
    ∀ name converter h l o state fresh,
      converters !! name = Some converter →
      h !! l = Some o → instance_of name o →
      from converter h (VObj l) = Ok (state, fresh) →
      sum_list_with w fresh < w o
}.

(** [f] does not raise the potential. *)
Definition lowering (w : object → nat) (f : ser_fn) : Prop :=
  ∀ v p h d r h' d', f v p h d = Ok (r, (h', d')) → potential w h' d' ≤ potential w h d.

(** A weight under which the default registry extracts less: an array or a
    plain object weighs 1, an instance 2, and a [Map] one more per entry,
    for the entry arrays its iterator allocates. *)
Definition default_weight (o : object) : nat :=
  if isArray o then 1
  else match ctor o with
       | Some cl =>
           if decide (class_name cl = "Object") then 1
           else match internal o with
                | MapData entries => 2 + length entries
                | _ => 2
                end
       | None => 1
       end.

(** [o = {}; o.self = o; o.m = new Map([[1, o]])], the object at
    location 0. *)
Definition example_self_with_map : heap :=
  [plain [("self", VObj 0); ("m", VObj 1)];
   Object (Some MapClass) [] (MapData [(VNum (Fin 1), VObj 0)])].

(** *** What the remaining properties are stated with *)

(** Values that [ser] copies as they are. *)
Definition is_primitive (v : value) : bool :=
  match v with
  | VObj _ | VFun _ | VSym _ => false
  | _ => true
  end.

(** The primitive a wrapper object of the language holds: a number in a
    [Number] or a [Date], a string in a [String], a boolean in a
    [Boolean]. *)
Definition wrapper (constructor : AnyConstructor) (v : value) : Prop :=
  match v with
  | VNum _ => constructor = Builtin.Number ∨ constructor = Builtin.Date
  | VStr _ => constructor = Builtin.String
  | VBool _ => constructor = Builtin.Boolean
  | _ => False
  end.

(** [{ ...first, ...second }] on two options arguments: a key of [second]
    overrides the same key of [first]. *)
Definition spread_patch (first second : OptionsPatch) : OptionsPatch := {|
  patch_noRefs := patch_noRefs second ∪ patch_noRefs first;
  patch_functionConverter := patch_functionConverter second ∪ patch_functionConverter first;
  patch_symbolConverter := patch_symbolConverter second ∪ patch_symbolConverter first;
  patch_stringifier := patch_stringifier second ∪ patch_stringifier first
|}.

(** [{}] as an options argument. *)
Definition empty_patch : OptionsPatch := {|
  patch_noRefs := None; patch_functionConverter := None;
  patch_symbolConverter := None; patch_stringifier := None
|}.

(** Two engines, each in its store, that give the same result on every
    call. *)
Definition same_behaviour (st1 : Store) (e1 : Deserted) (st2 : Store) (e2 : Deserted)
    : Prop :=
  ∀ fuel h input item text,
    Deserted.normalize st1 e1 fuel h input = Deserted.normalize st2 e2 fuel h input
    ∧ Deserted.denormalize st1 e1 h item = Deserted.denormalize st2 e2 h item
    ∧ Deserted.clone st1 e1 fuel h input = Deserted.clone st2 e2 fuel h input
    ∧ Deserted.serialize st1 e1 fuel h input = Deserted.serialize st2 e2 fuel h input
    ∧ Deserted.deserialize st1 e1 h text = Deserted.deserialize st2 e2 h text.

(** Whether an intermediate tree holds a reference item. *)
Fixpoint has_ref (t : SerItem) : bool :=
  match t with
  | SRef _ => true
  | SObj obj => existsb (λ kx, has_ref kx.2) obj
  | SFun fun_ => has_ref fun_
  | SArr items => existsb has_ref items
  | SProto _ state => has_ref state
  | SVal _ | SSym _ => false
  end.

(** [f] returns trees without a reference item. *)
Definition refless (f : ser_fn) : Prop :=
  ∀ v p h d r h' d', f v p h d = Ok (r, (h', d')) → has_ref r = false.










(** Whether an intermediate tree holds a typed item. *)
Fixpoint has_proto (t : SerItem) : bool :=
  match t with
  | SProto _ _ => true
  | SObj obj => existsb (λ kx, has_proto kx.2) obj
  | SFun fun_ => has_proto fun_
  | SArr items => existsb has_proto items
  | SVal _ | SRef _ | SSym _ => false
  end.

Definition is_reference (a : Action) : Prop :=
  match a with ReferenceFixup _ _ => True | ConversionFixup _ _ => False end.

(** [{ noRefs: b }] as an options argument. *)
Definition only_noRefs (b : bool) : OptionsPatch := {|
  patch_noRefs := Some b; patch_functionConverter := None;
  patch_symbolConverter := None; patch_stringifier := None
|}.

(** Whatever [f1] returns, [f2] returns as well. *)
Definition agrees (f1 f2 : ser_fn) : Prop :=
  ∀ v p h d x, f1 v p h d = Ok x → f2 v p h d = Ok x.

(** * Properties *)

(** ** The result monad *)

Lemma bind_Ok {A B} (m : res A) (f : A → res B) (b : B) :
  m ≫= f = Ok b ↔ ∃ a, m = Ok a ∧ f a = Ok b.
Proof.
  destruct m; simpl; split; eauto.
  - by intros (? & [= <-] & ?).
  - intros [=].
  - by intros (? & [=] & ?).
  - intros [=].
  - by intros (? & [=] & ?).
Qed.

Lemma fmap_Ok {A B} (m : res A) (f : A → B) (b : B) :
  f <$> m = Ok b ↔ ∃ a, m = Ok a ∧ b = f a.
Proof.
  destruct m; simpl; split.
  - intros [= <-]; eauto.
  - by intros (? & [= <-] & ->).
  - intros [=].
  - by intros (? & [=] & ?).
  - intros [=].
  - by intros (? & [=] & ?).
Qed.

Lemma call_Ok f h v r h' :
  call f h v = Ok (r, h') ↔ ∃ fresh, f h v = Ok (r, fresh) ∧ h' = h ++ fresh.
Proof.
  unfold call. destruct (f h v) as [[r0 fresh]| |]; simpl; split.
  - intros [= <- <-]; eauto.
  - by intros (? & [= <- <-] & ->).
  - intros [=].
  - by intros (? & [=] & ?).
  - intros [=].
  - by intros (? & [=] & ?).
Qed.

Ltac inv_res :=
  repeat match goal with
  | H : _ ≫= _ = Ok _ |- _ => apply bind_Ok in H as (? & ? & H)
  | H : _ <$> _ = Ok _ |- _ => apply fmap_Ok in H as (? & ? & ?)
  | H : call _ _ _ = Ok (_, _) |- _ => apply call_Ok in H as (? & ? & ?)
  | H : Ok _ = Ok _ |- _ => injection H as H
  | H : Err _ = Ok _ |- _ => discriminate H
  | H : OutOfFuel = Ok _ |- _ => discriminate H
  | x : (_ * _)%type |- _ => destruct x
  end; simplify_eq/=.

(** ** Sorting the actions *)

Section sorting.
Context {A : Type} (compare : A → A → Z).

Lemma sort_insert_Permutation a l : sort_insert compare a l ≡ₚ a :: l.
Proof.
  induction l as [|b l IH]; simpl; [done|].
  case_decide; [done|]. rewrite IH. apply Permutation_swap.
Qed.

Lemma sort_Permutation l : sort compare l ≡ₚ l.
Proof.
  induction l as [|a l IH]; simpl; [done|].
  by rewrite sort_insert_Permutation, IH.
Qed.
End sorting.




(** ** Normalize: the heap and the identity map only grow *)

Lemma ser_elems_extending f path elems index h d rs h' d' :
  extending f →
  ser_elems f path elems index h d = Ok (rs, (h', d')) →
  h `prefix_of` h' ∧ d ⊆ d'.
Proof.
  intros Hf. revert index h d rs.
  induction elems as [|elem rest IH]; intros index h d rs H; simpl in H.
  - by inv_res.
  - apply bind_Ok in H as ([r [h1 d1]] & H1 & H).
    apply bind_Ok in H as ([rs' [h2 d2]] & H2 & H). inv_res.
    apply Hf in H1 as [? ?]. apply IH in H2 as [? ?].
    split; by etrans.
Qed.

Lemma ser_props_extending f path entries obj h d obj' h' d' :
  extending f →
  ser_props f path entries obj h d = Ok (obj', (h', d')) →
  h `prefix_of` h' ∧ d ⊆ d'.
Proof.
  intros Hf. revert obj h d.
  induction entries as [|[key v] rest IH]; intros obj h d H; simpl in H.
  - by inv_res.
  - apply bind_Ok in H as ([r [h1 d1]] & H1 & H).
    apply Hf in H1 as [? ?]. apply IH in H as [? ?].
    split; by etrans.
Qed.

Section ser_facts.
Context (converters : ConverterConfig) (options : Options).
Local Abbreviation ser := (ser converters options).

Lemma ser_extending fuel : extending (ser fuel).
Proof.
  induction fuel as [|fuel IH]; intros v p h d r h' d' H; [done|].
  simpl in H. destruct v.
  1-5: by inv_res.
  - (* symbol *) inv_res. split; [by apply prefix_app_r|done].
  - (* function *)
    apply bind_Ok in H as ([state h1] & Hc & H).
    apply bind_Ok in H as ([r1 [h2 d2]] & Hs & H). inv_res.
    apply IH in Hs as [? ?].
    split; [|done]. etrans; [|done]. by apply prefix_app_r.
  - (* object *)
    destruct (d !! l) as [ref|] eqn:Hd.
    { destruct (noRefs options); by inv_res. }
    assert (d ⊆ <[l:=p]> d) by by apply insert_subseteq.
    destruct (h !! l) as [o|]; [|done].
    assert (Hplain : ∀ r h' d',
      match ctor o with
      | Some constructor =>
          if decide (class_name constructor = "Object") then
            '(obj, st) ← ser_props (ser fuel) p (own_enumerable o) [] h (<[l:=p]> d);
            Ok (SObj obj, st)
          else
            match converters !! class_name constructor with
            | Some converter =>
                '(state, h0) ← call (from converter) h (VObj l);
                '(r, st) ← ser fuel state p h0 (<[l:=p]> d);
                Ok (SProto (class_name constructor) r, st)
            | None => Err UnregisteredClass
            end
      | None => Err NoConstructor
      end = Ok (r, (h', d')) → h `prefix_of` h' ∧ d ⊆ d').
    { clear H. intros r0 h0 d0 H.
      destruct (ctor o) as [c|]; [|done]. case_decide.
      - apply bind_Ok in H as ([obj [h1 d1]] & Hs & H). inv_res.
        eapply ser_props_extending in Hs as [? ?]; [|done].
        split; [done|by etrans].
      - destruct (converters !! class_name c); [|done].
        apply bind_Ok in H as ([state h1] & Hc & H).
        apply bind_Ok in H as ([r1 [h2 d2]] & Hs & H). inv_res.
        apply IH in Hs as [? ?].
        split; [etrans; [|done]; by apply prefix_app_r | by etrans]. }
    destruct (internal o) eqn:Hi; try by eapply Hplain, H.
    apply bind_Ok in H as ([items [h1 d1]] & Hs & H). inv_res.
    eapply ser_elems_extending in Hs as [? ?]; [|done].
    split; [done|by etrans].
Qed.

(** The canonical path of a composite is recorded when it is first met
    and never changes. *)
Lemma ser_records fuel l path h d r h' d' :
  d !! l = None →
  ser fuel (VObj l) path h d = Ok (r, (h', d')) →
  d' !! l = Some path.
Proof.
  intros Hd H. destruct fuel as [|fuel]; [done|].
  assert (Hin : <[l:=path]> d !! l = Some path) by apply lookup_insert_eq.
  simpl in H. rewrite Hd in H.
  destruct (h !! l) as [o|]; [|done].
  assert (Hplain :
      match ctor o with
      | Some constructor =>
          if decide (class_name constructor = "Object") then
            '(obj, st) ← ser_props (ser fuel) path (own_enumerable o) [] h (<[l:=path]> d);
            Ok (SObj obj, st)
          else
            match converters !! class_name constructor with
            | Some converter =>
                '(state, h0) ← call (from converter) h (VObj l);
                '(r, st) ← ser fuel state path h0 (<[l:=path]> d);
                Ok (SProto (class_name constructor) r, st)
            | None => Err UnregisteredClass
            end
      | None => Err NoConstructor
      end = Ok (r, (h', d')) → d' !! l = Some path).
  { clear H. intros H.
    destruct (ctor o) as [c|]; [|done]. case_decide.
    - apply bind_Ok in H as ([obj [h1 d1]] & Hs & H). inv_res.
      eapply ser_props_extending in Hs as [? Hsub]; [|apply ser_extending].
      by eapply lookup_weaken.
    - destruct (converters !! class_name c); [|done].
      apply bind_Ok in H as ([state h1] & Hc & H).
      apply bind_Ok in H as ([r1 [h2 d2]] & Hs & H). inv_res.
      apply ser_extending in Hs as [? Hsub]. by eapply lookup_weaken. }
  destruct (internal o) eqn:Hi; try by apply Hplain.
  apply bind_Ok in H as ([items [h1 d1]] & Hs & H). inv_res.
  eapply ser_elems_extending in Hs as [? Hsub]; [|apply ser_extending].
  by eapply lookup_weaken.
Qed.

(** A composite that is in the identity map is not walked again: one unit
    of fuel suffices and the state is returned as it was. *)
Lemma ser_revisit fuel l ref path h d :
  d !! l = Some ref →
  ser (S fuel) (VObj l) path h d =
    if noRefs options then Err ReferenceFound else Ok (SRef ref, (h, d)).
Proof. intros Hd. simpl. by rewrite Hd. Qed.

(** The first visit of a custom-typed instance. *)
Lemma ser_custom fuel l o c converter path h d :
  d !! l = None → h !! l = Some o → isArray o = false →
  ctor o = Some c → class_name c ≠ "Object" →
  converters !! class_name c = Some converter →
  ser (S fuel) (VObj l) path h d =
    '(state, h1) ← call (from converter) h (VObj l);
    '(r, st) ← ser fuel state path h1 (<[l := path]> d);
    Ok (SProto (class_name c) r, st).
Proof.
  intros Hd Hh Ha Hc Hn Hr. simpl. rewrite Hd, Hh, Hc, Hr.
  unfold isArray in Ha. destruct (internal o); try done; by case_decide.
Qed.

End ser_facts.

(** ** The converter table of an extended engine *)

Lemma assign_config_lookup_source target source k y :
  source !! k = Some y → assign_config target source !! k = Some y.
Proof. intros H. unfold assign_config. by apply lookup_union_Some_l. Qed.

Lemma assign_config_lookup_target target source k :
  source !! k = None → assign_config target source !! k = target !! k.
Proof. intros H. unfold assign_config. by apply lookup_union_r. Qed.

Lemma withConverters_spec st this t fragments :
  Deserted.table st this = Ok t →
  Deserted.withConverters st this fragments =
    Ok (Deserted.make (length (tables st)) (options this),
        {| tables := tables st ++ [foldl assign_config t fragments];
           settings := settings st |}).
Proof.
  intros Ht. unfold Deserted.withConverters. rewrite Ht. simpl.
  set (n := length (tables st)).
  assert (Hfold : ∀ fragments t,
    foldl (λ acc converter,
             st0 ← acc;
             match tables st0 !! n with
             | Some target =>
                 Ok {| tables := <[n := assign_config target converter]> (tables st0);
                       settings := settings st0 |}
             | None => Err Dangling
             end)
          (Ok {| tables := tables st ++ [t]; settings := settings st |}) fragments
    = Ok {| tables := tables st ++ [foldl assign_config t fragments];
            settings := settings st |}).
  { clear. intros fragments. induction fragments as [|c fragments IH]; intros t; [done|].
    simpl. rewrite lookup_app_r by (subst n; lia).
    replace (n - length (tables st)) with 0 by (subst n; lia). simpl.
    rewrite <- IH. do 3 f_equal.
    rewrite insert_app_r_alt by (subst n; lia).
    by replace (n - length (tables st)) with 0 by (subst n; lia). }
  by rewrite Hfold.
Qed.

Lemma table_valid st this t :
  Deserted.table st this = Ok t → tables st !! converters this = Some t.
Proof. unfold Deserted.table. destruct (_ !! _); naive_solver. Qed.

Lemma setting_valid st this o :
  Deserted.setting st this = Ok o → settings st !! options this = Some o.
Proof. unfold Deserted.setting. destruct (_ !! _); naive_solver. Qed.



(** ** C7: the state of a typed instance is normalized at the instance's path *)

(** C7. When [ser] meets an unvisited instance of a custom type that has a
    registered converter, the extracted state is normalized at the same
    path: the result is [SProto name r] with [r] the state normalized at
    [path], and [des] records the conversion at the path at which it rebuilds
    the state; the identity map sends the instance, and the state when it
    is a composite not seen before, to that one path; and any later
    encounter of either yields the reference to that path. *)
Theorem state_normalized_at_instance_path
    converters options fuel l o c converter path h d state fresh :
  noRefs options = false →
  d !! l = None → h !! l = Some o → isArray o = false →
  ctor o = Some c → class_name c ≠ "Object" →
  converters !! class_name c = Some converter →
  from converter h (VObj l) = Ok (state, fresh) →
  ser converters options (S fuel) (VObj l) path h d =
    ('(r, st) ← ser converters options fuel state path (h ++ fresh) (<[l := path]> d);
     Ok (SProto (class_name c) r, st))
  ∧ ∀ r h' d',
      ser converters options (S fuel) (VObj l) path h d = Ok (r, (h', d')) →
      (∃ r0, r = SProto (class_name c) r0 ∧
         ∀ p hh actions,
           des options r p hh actions =
           des options r0 p hh (actions ++ [ConversionFixup (class_name c) p]))
      ∧ d' !! l = Some path
      ∧ (∀ s, state = VObj s → d !! s = None → d' !! s = Some path)
      ∧ (∀ s fuel' p2, s = l ∨ (state = VObj s ∧ d !! s = None) →
           ser converters options (S fuel') (VObj s) p2 h' d' = Ok (SRef path, (h', d'))).
Proof.
  intros Hrefs Hd Hh Ha Hc Hn Hr Hfrom.
  assert (Heq : ser converters options (S fuel) (VObj l) path h d =
    ('(r, st) ← ser converters options fuel state path (h ++ fresh) (<[l := path]> d);
     Ok (SProto (class_name c) r, st))).
  { erewrite ser_custom by done. unfold call. by rewrite Hfrom. }
  split; [done|]. intros r h' d' H. rewrite Heq in H.
  apply bind_Ok in H as ([r0 [h1 d1]] & Hs & H). injection H as <- <- <-.
  assert (Hl : d1 !! l = Some path).
  { apply ser_extending in Hs as [_ Hsub].
    eapply lookup_weaken; [|done]. apply lookup_insert_eq. }
  assert (Hstate : ∀ s, state = VObj s → d !! s = None → d1 !! s = Some path).
  { intros s -> Hds. destruct (decide (s = l)) as [->|Hne]; [done|].
    eapply ser_records; [|done]. by rewrite lookup_insert_ne. }
  split_and!; [by eexists | done | done |].
  intros s fuel' p2 Hs'. rewrite (ser_revisit _ _ _ _ path), Hrefs; [done|].
  destruct Hs' as [->|[-> ?]]; auto.
Qed.

Lemma state_normalized_at_instance_path_witness :
  ser (Converters.allProps Test) defaultOptions 3 (VObj 0) ["a"]
      [Object (Some TestClass) [("x", VNull)] Ordinary] ∅ =
    ('(r, st) ← ser (Converters.allProps Test) defaultOptions 2 (VObj 1) ["a"]
                  ([Object (Some TestClass) [("x", VNull)] Ordinary] ++ [plain [("x", VNull)]])
                  (<[0 := ["a"]]> ∅);
     Ok (SProto "Test" r, st)).
Proof.
  refine (proj1 (state_normalized_at_instance_path
    (Converters.allProps Test) defaultOptions 2 0
    (Object (Some TestClass) [("x", VNull)] Ordinary) TestClass
    (the_converter (Converters.allProps Test) "Test") ["a"]
    [Object (Some TestClass) [("x", VNull)] Ordinary] ∅ (VObj 1) [plain [("x", VNull)]]
    _ _ _ _ _ _ _ _)); try reflexivity.
  simpl. discriminate.
Defined.

(** ** C8: the order of the fixups *)



(** ** C9: extending an engine leaves the engine as it was *)



(** ** C10: the table is keyed by the class name and a later entry wins *)

(** C10. The entry a converter factory builds for a class is keyed by the
    name of the class; when two fragments [c1] and [c2] both bind the key
    [k], [withConverters(c1, c2)] succeeds and its engine resolves [k] to the
    converter of [c2]; [Converters.all] applied to two classes of one name
    keeps the entry of the second; and [ser] resolves an instance by the
    name of its class alone, so an instance of any class named [k] is
    handed to that one converter. *)
Theorem later_registration_wins st this t c1 c2 k x y :
  Deserted.table st this = Ok t →
  c1 !! k = Some x →
  c2 !! k = Some y →
  (∃ e' st' t',
     Deserted.withConverters st this [c1; c2] = Ok (e', st')
     ∧ Deserted.table st' e' = Ok t'
     ∧ t' !! k = Some y
     ∧ ∀ options fuel l o c path h d,
         d !! l = None → h !! l = Some o → isArray o = false →
         ctor o = Some c → class_name c = k → k ≠ "Object" →
         ser t' options (S fuel) (VObj l) path h d =
           '(state, h1) ← call (from y) h (VObj l);
           '(r, st) ← ser t' options fuel state path h1 (<[l := path]> d);
           Ok (SProto k r, st))
  ∧ (∀ A B : AnyConstructor,
       class_name (class A) = class_name (class B) →
       Converters.all Converters.allProps [A; B] !! class_name (class A)
         = Converters.allProps B !! class_name (class B)
       ∧ Converters.all Converters.valueOf [A; B] !! class_name (class A)
         = Converters.valueOf B !! class_name (class B)
       ∧ Converters.all Converters.fromIterable [A; B] !! class_name (class A)
         = Converters.fromIterable B !! class_name (class B)
       ∧ is_Some (Converters.allProps B !! class_name (class B))).
Proof.
  intros Ht H1 H2. split.
  - eexists _, _, _. split; [by apply withConverters_spec|].
    assert (Hy : foldl assign_config t [c1; c2] !! k = Some y).
    { simpl. by apply assign_config_lookup_source. }
    split_and!.
    + unfold Deserted.table. simpl. by rewrite lookup_app_r, Nat.sub_diag.
    + done.
    + intros options fuel l o c path h d Hd Hh Ha Hc <- Hn.
      by erewrite ser_custom.
  - intros A B Hname. unfold Converters.all. simpl.
    unfold Converters.allProps, Converters.valueOf, Converters.fromIterable.
    rewrite Hname. split_and!.
    + erewrite assign_config_lookup_source by apply lookup_singleton_eq.
      by rewrite lookup_singleton_eq.
    + erewrite assign_config_lookup_source by apply lookup_singleton_eq.
      by rewrite lookup_singleton_eq.
    + erewrite assign_config_lookup_source by apply lookup_singleton_eq.
      by rewrite lookup_singleton_eq.
    + rewrite lookup_singleton_eq. by eexists.
Qed.

Lemma later_registration_wins_witness :
  ∃ e' st' t',
    Deserted.withConverters Deserted.initial Deserted.empty
      [Converters.allProps Test; Converters.allProps OtherTest] = Ok (e', st')
    ∧ Deserted.table st' e' = Ok t'
    ∧ t' !! "Test" = Converters.allProps OtherTest !! "Test".
Proof.
  destruct (later_registration_wins Deserted.initial Deserted.empty ∅
    (Converters.allProps Test) (Converters.allProps OtherTest) "Test"
    (the_converter (Converters.allProps Test) "Test")
    (the_converter (Converters.allProps OtherTest) "Test")
    eq_refl eq_refl eq_refl) as [(e' & st' & t' & H1 & H2 & H3 & _) _].
  exists e', st', t'. split_and!; assumption.
Defined.

(** ** Intermediate trees *)

Lemma SerItem_ind (P : SerItem → Prop) :
  (∀ val, P (SVal val)) →
  (∀ ref, P (SRef ref)) →
  (∀ obj, Forall (λ kx, P kx.2) obj → P (SObj obj)) →
  (∀ fun_, P fun_ → P (SFun fun_)) →
  (∀ sym, P (SSym sym)) →
  (∀ items, Forall P items → P (SArr items)) →
  (∀ proto state, P state → P (SProto proto state)) →
  ∀ t, P t.
Proof.
  intros Hval Href Hobj Hfun Hsym Harr Hproto.
  fix IH 1. intros [val|ref|obj|fun_|sym|items|proto state].
  - apply Hval.
  - apply Href.
  - apply Hobj. induction obj as [|[k x] obj IHobj]; constructor; [apply IH|apply IHobj].
  - apply Hfun, IH.
  - apply Hsym.
  - apply Harr. induction items as [|x items IHitems]; constructor; [apply IH|apply IHitems].
  - apply Hproto, IH.
Qed.

Lemma des_SObj options obj path h actions :
  des options (SObj obj) path h actions =
    st ← des_obj options (VObj (length h)) path obj (h ++ [plain []]) actions;
    Ok (VObj (length h), st).
Proof. done. Qed.

Lemma des_SArr options items path h actions :
  des options (SArr items) path h actions =
    '(elems, (h', actions)) ← des_arr options path items 0 h actions;
    Ok (VObj (length h'), (h' ++ [array elems], actions)).
Proof. done. Qed.

Lemma lay_SObj ρ obj b path :
  lay ρ (SObj obj) b path = plain (vals_obj ρ path obj (S b)) :: lay_obj ρ path obj (S b).
Proof. done. Qed.

Lemma lay_SArr ρ items b path :
  lay ρ (SArr items) b path =
    lay_arr ρ path items 0 b ++ [array (vals_arr ρ path items 0 b)].
Proof. done. Qed.

Lemma size_SObj obj : size (SObj obj) = S (sizes obj.*2).
Proof.
  unfold sizes. simpl. f_equal. induction obj as [|[k x] obj IH]; simpl; [done|].
  by rewrite IH.
Qed.

Lemma size_SArr items : size (SArr items) = S (sizes items).
Proof.
  unfold sizes. simpl. f_equal. induction items as [|x items IH]; simpl; [done|].
  by rewrite IH.
Qed.

Lemma wf_tree_SObj obj :
  wf_tree (SObj obj) ↔ NoDup obj.*1 ∧ Forall (λ kx, wf_tree kx.2) obj.
Proof.
  simpl. apply and_iff_compat_l.
  induction obj as [|kx obj IH]; simpl.
  - split; [constructor|done].
  - rewrite Forall_cons. by rewrite IH.
Qed.

Lemma wf_tree_SArr items : wf_tree (SArr items) ↔ Forall wf_tree items.
Proof.
  simpl. induction items as [|x items IH]; simpl.
  - split; [constructor|done].
  - rewrite Forall_cons. by rewrite IH.
Qed.

Lemma length_lay ρ t b path : length (lay ρ t b path) = size t.
Proof.
  revert b path. induction t as [| |obj IH| | |items IH|] using SerItem_ind;
    intros b path; try done.
  - rewrite lay_SObj, size_SObj. simpl. f_equal.
    generalize (S b). unfold sizes.
    induction IH as [|[k x] obj Hx _ IHobj]; intros b'; simpl; [done|].
    by rewrite length_app, Hx, IHobj.
  - rewrite lay_SArr, size_SArr, length_app. simpl. rewrite Nat.add_1_r. f_equal.
    generalize 0 b. unfold sizes.
    induction IH as [|x items Hx _ IHitems]; intros i b'; simpl; [done|].
    by rewrite length_app, Hx, IHitems.
Qed.

Lemma length_lay_obj ρ path obj b : length (lay_obj ρ path obj b) = sizes obj.*2.
Proof.
  revert b. unfold sizes. induction obj as [|[k x] obj IH]; intros b; simpl; [done|].
  by rewrite length_app, length_lay, IH.
Qed.

Lemma length_lay_arr ρ path items i b : length (lay_arr ρ path items i b) = sizes items.
Proof.
  revert i b. unfold sizes. induction items as [|x items IH]; intros i b; simpl; [done|].
  by rewrite length_app, length_lay, IH.
Qed.

(** ** The first pass of denormalize lays the tree out *)

Lemma assoc_set_fresh {V} key (v : V) acc :
  key ∉ acc.*1 → assoc_set key v acc = acc ++ [(key, v)].
Proof.
  induction acc as [|[k w] acc IH]; simpl; [done|].
  intros Hk. case_decide as Heq.
  - subst. exfalso. apply Hk. left.
  - rewrite IH; [done|]. intros ?. apply Hk. by right.
Qed.

Lemma set_result h acc G key v :
  key ∉ acc.*1 →
  set (h ++ plain acc :: G) (VObj (length h)) key v =
    Ok (h ++ plain (acc ++ [(key, v)]) :: G).
Proof.
  intros Hk. unfold set.
  rewrite lookup_app_r, Nat.sub_diag by lia. simpl.
  unfold object_set. simpl. rewrite assoc_set_fresh by done.
  f_equal. rewrite insert_app_r_alt, Nat.sub_diag by lia. done.
Qed.

Section first_pass.
Context (options : Options).

Lemma des_obj_lay path h obj :
  Forall (λ kx, des_lays options kx.2) obj →
  Forall (λ kx, wf_tree kx.2) obj →
  NoDup obj.*1 →
  ∀ acc G actions,
    (∀ k, k ∈ obj.*1 → k ∉ acc.*1) →
    des_obj options (VObj (length h)) path obj (h ++ plain acc :: G) actions =
      Ok (h ++ plain (acc ++ vals_obj pending path obj (S (length h + length G)))
            :: G ++ lay_obj pending path obj (S (length h + length G)),
          actions ++ refs_obj path obj).
Proof.
  induction obj as [|[k x] obj IH]; intros Hdes Hwf Hnd acc G actions Hacc.
  - simpl. by rewrite !app_nil_r.
  - apply Forall_cons in Hdes as [Hx Hdes]. apply Forall_cons in Hwf as [Hwx Hwf].
    rewrite fmap_cons in Hnd, Hacc.
    apply NoDup_cons in Hnd as [Hk Hnd]. simpl.
    rewrite (Hx Hwx). simpl.
    replace (length (h ++ plain acc :: G)) with (S (length h + length G))
      by (rewrite length_app; simpl; lia).
    rewrite <- app_assoc. simpl.
    rewrite set_result by (apply Hacc; left). simpl.
    rewrite IH; try done.
    + rewrite length_app, length_lay.
      replace (S (length h + (length G + size x)))
        with (S (length h + length G) + size x) by lia.
      by rewrite <- !app_assoc.
    + intros k' Hk'. rewrite fmap_app, elem_of_app. simpl.
      intros [?|Hin%list_elem_of_singleton].
      * eapply Hacc; [|done]. by right.
      * by subst.
Qed.

Lemma des_arr_lay path items :
  Forall (des_lays options) items →
  Forall wf_tree items →
  ∀ index h actions,
    des_arr options path items index h actions =
      Ok (vals_arr pending path items index (length h),
          (h ++ lay_arr pending path items index (length h),
           actions ++ refs_arr path items index)).
Proof.
  induction items as [|x items IH]; intros Hdes Hwf index h actions.
  - simpl. by rewrite !app_nil_r.
  - apply Forall_cons in Hdes as [Hx Hdes]. apply Forall_cons in Hwf as [Hwx Hwf].
    simpl. rewrite (Hx Hwx). simpl. rewrite IH by done. simpl.
    rewrite length_app, length_lay. by rewrite <- !app_assoc.
Qed.

Lemma des_lay t : des_lays options t.
Proof.
  induction t as [v|ref|obj IH| | |items IH|] using SerItem_ind;
    intros Hwf path h actions; try done.
  - simpl. by rewrite !app_nil_r.
  - simpl. by rewrite app_nil_r.
  - apply wf_tree_SObj in Hwf as [Hnd Hwf].
    rewrite des_SObj.
    pose proof (des_obj_lay path h obj IH Hwf Hnd [] [] actions) as Hobj.
    simpl in Hobj. rewrite Nat.add_0_r in Hobj.
    rewrite Hobj by (intros; apply not_elem_of_nil).
    rewrite lay_SObj. done.
  - apply wf_tree_SArr in Hwf.
    rewrite des_SArr, des_arr_lay, lay_SArr by done.
    cbn [mbind res_bind]. rewrite length_app, length_lay_arr.
    by rewrite <- app_assoc.
Qed.
End first_pass.

(** ** Property keys that are indices *)

Lemma index_of_Some key n i :
  index_of key n = Some i ↔ key = String_ i ∧ i < n.
Proof.
  unfold index_of. split.
  - intros H. destruct (list_find _ _) as [[j x]|] eqn:Hf; simplify_eq/=.
    apply list_find_Some in Hf as (Hl & Hx & _).
    apply lookup_seq in Hl as [-> ?]. done.
  - intros [-> Hlt].
    destruct (list_find (λ j, String_ j = String_ i) (seq 0 n)) as [[j x]|] eqn:Hf.
    + simpl. apply list_find_Some in Hf as (Hl & Hx & _).
      f_equal. symmetry. by apply (inj pretty).
    + apply list_find_None in Hf. rewrite Forall_forall in Hf.
      exfalso. apply (Hf i); [|done]. apply elem_of_seq. lia.
Qed.

Lemma index_of_String i n : i < n → index_of (String_ i) n = Some i.
Proof. intros. by apply index_of_Some. Qed.

Lemma String_inj i j : String_ i = String_ j → i = j.
Proof. apply (inj pretty). Qed.

(** ** Locating a subtree *)

Lemma sizes_cons x items : sizes (x :: items) = size x + sizes items.
Proof. done. Qed.

Lemma locate_obj_lookup obj s b x bx :
  locate_obj obj s b = Some (x, bx) →
  assoc_get s obj = Some x
  ∧ b ≤ bx ∧ bx + size x ≤ b + sizes obj.*2.
Proof.
  revert b. induction obj as [|[k y] obj IH]; intros b H; simpl in H; [done|].
  rewrite fmap_cons, sizes_cons. simpl. case_decide.
  - simplify_eq. split_and!; [done|lia|lia].
  - apply IH in H as (? & ? & ?). split_and!; [done|lia|lia].
Qed.

Lemma locate_obj_of_get obj s b x :
  assoc_get s obj = Some x → ∃ bx, locate_obj obj s b = Some (x, bx).
Proof.
  revert b. induction obj as [|[k y] obj IH]; intros b H; simpl in *; [done|].
  case_decide; [simplify_eq; eauto|]. by apply IH.
Qed.

Lemma locate_arr_lookup items i b x bx :
  locate_arr items i b = Some (x, bx) →
  items !! i = Some x
  ∧ b ≤ bx ∧ bx + size x ≤ b + sizes items.
Proof.
  revert i b. induction items as [|y items IH]; intros i b H; simpl in H; [done|].
  rewrite sizes_cons. destruct i as [|i].
  - simplify_eq. split_and!; [done|lia|lia].
  - apply IH in H as (? & ? & ?). split_and!; [done|lia|lia].
Qed.

Lemma locate_arr_of_lookup items i b x :
  items !! i = Some x → ∃ bx, locate_arr items i b = Some (x, bx).
Proof.
  revert i b. induction items as [|y items IH]; intros i b H; [done|].
  destruct i as [|i]; simpl in *; [simplify_eq; eauto|]. by apply IH.
Qed.

(** Two different children occupy disjoint ranges of locations. *)
Lemma locate_obj_disjoint obj s1 s2 b x1 b1 x2 b2 :
  s1 ≠ s2 →
  locate_obj obj s1 b = Some (x1, b1) →
  locate_obj obj s2 b = Some (x2, b2) →
  b1 + size x1 ≤ b2 ∨ b2 + size x2 ≤ b1.
Proof.
  intros Hne. revert b. induction obj as [|[k y] obj IH]; intros b H1 H2; simpl in *; [done|].
  destruct (decide (k = s1)) as [?|?], (decide (k = s2)) as [?|?]; simplify_eq.
  - apply locate_obj_lookup in H2 as (_ & ? & _). left. lia.
  - apply locate_obj_lookup in H1 as (_ & ? & _). right. lia.
  - by eapply IH.
Qed.

Lemma locate_arr_disjoint items i1 i2 b x1 b1 x2 b2 :
  i1 ≠ i2 →
  locate_arr items i1 b = Some (x1, b1) →
  locate_arr items i2 b = Some (x2, b2) →
  b1 + size x1 ≤ b2 ∨ b2 + size x2 ≤ b1.
Proof.
  revert i1 i2 b. induction items as [|y items IH]; intros i1 i2 b Hne H1 H2; [done|].
  destruct i1 as [|i1], i2 as [|i2]; simpl in *; simplify_eq.
  - apply locate_arr_lookup in H2 as (_ & ? & _). left. lia.
  - apply locate_arr_lookup in H1 as (_ & ? & _). right. lia.
  - eapply (IH i1 i2); [lia|done|done].
Qed.

Lemma sub_at_locate t b p :
  sub_at t p = fst <$> locate t b p.
Proof.
  revert t b. induction p as [|s p IH]; intros t b; [done|].
  destruct t as [| |obj| | |items|]; simpl; try done.
  - destruct (assoc_get s obj) as [x|] eqn:Hg.
    + destruct (locate_obj_of_get obj s (S b) x Hg) as [bx Hl].
      rewrite Hl. simpl. apply IH.
    + destruct (locate_obj obj s (S b)) as [[x bx]|] eqn:Hl; [|done].
      apply locate_obj_lookup in Hl as (? & _). congruence.
  - destruct (index_of s (length items)) as [i|]; [|done]. simpl.
    destruct (items !! i) as [x|] eqn:Hg.
    + destruct (locate_arr_of_lookup items i b x Hg) as [bx Hl].
      rewrite Hl. simpl. apply IH.
    + destruct (locate_arr items i b) as [[x bx]|] eqn:Hl; [|done].
      apply locate_arr_lookup in Hl as (? & _). congruence.
Qed.

Lemma locate_app t b p q t1 b1 :
  locate t b p = Some (t1, b1) → locate t b (p ++ q) = locate t1 b1 q.
Proof.
  revert t b. induction p as [|s p IH]; intros t b H; simpl in *; [by simplify_eq|].
  destruct t as [| |obj| | |items|]; try done.
  - destruct (locate_obj obj s (S b)) as [[x bx]|]; [|done]. simpl in *. by apply IH.
  - destruct (index_of s (length items)) as [i|]; [|done]. simpl in *.
    destruct (locate_arr items i b) as [[x bx]|]; [|done]. simpl in *. by apply IH.
Qed.

Lemma locate_snoc t b p s t1 b1 :
  locate t b p = Some (t1, b1) → locate t b (p ++ [s]) = locate t1 b1 [s].
Proof. apply locate_app. Qed.

(** A node lies within the range of the tree it belongs to. *)
Lemma locate_range t b p node bn :
  locate t b p = Some (node, bn) → is_node node →
  b ≤ node_loc node bn < b + size t.
Proof.
  revert t b. induction p as [|s p IH]; intros t b H Hn; simpl in H.
  - simplify_eq. destruct node; try done.
    + rewrite size_SObj. simpl. lia.
    + rewrite size_SArr. simpl. lia.
  - destruct t as [| |obj| | |items|]; try done.
    + destruct (locate_obj obj s (S b)) as [[x bx]|] eqn:Hl; [|done]. simpl in H.
      apply locate_obj_lookup in Hl as (_ & ? & ?).
      apply IH in H; [|done]. rewrite size_SObj. lia.
    + destruct (index_of s (length items)) as [i|]; [|done]. simpl in H.
      destruct (locate_arr items i b) as [[x bx]|] eqn:Hl; [|done]. simpl in H.
      apply locate_arr_lookup in Hl as (_ & ? & ?).
      apply IH in H; [|done]. rewrite size_SArr. lia.
Qed.

(** Two nodes at one location are one node. *)
Lemma locate_inj t b p1 p2 n1 b1 n2 b2 :
  locate t b p1 = Some (n1, b1) → is_node n1 →
  locate t b p2 = Some (n2, b2) → is_node n2 →
  node_loc n1 b1 = node_loc n2 b2 →
  p1 = p2.
Proof.
  revert t b p2. induction p1 as [|s1 p1 IH]; intros t b p2 H1 Hn1 H2 Hn2 Heq.
  - destruct p2 as [|s2 p2]; [done|]. simpl in H1. simplify_eq. exfalso.
    simpl in H2. destruct n1 as [| |obj| | |items|]; try done.
    + destruct (locate_obj obj s2 (S b1)) as [[x bx]|] eqn:Hl; [|done]. simpl in *.
      apply locate_obj_lookup in Hl as (_ & ? & ?).
      apply locate_range in H2; [|done]. lia.
    + destruct (index_of s2 (length items)) as [i|]; [|done]. simpl in *.
      destruct (locate_arr items i b1) as [[x bx]|] eqn:Hl; [|done]. simpl in *.
      apply locate_arr_lookup in Hl as (_ & ? & ?).
      apply locate_range in H2; [|done]. lia.
  - destruct p2 as [|s2 p2].
    + simpl in H2. simplify_eq. exfalso.
      simpl in H1. destruct n2 as [| |obj| | |items|]; try done.
      * destruct (locate_obj obj s1 (S b2)) as [[x bx]|] eqn:Hl; [|done]. simpl in *.
        apply locate_obj_lookup in Hl as (_ & ? & ?).
        apply locate_range in H1; [|done]. lia.
      * destruct (index_of s1 (length items)) as [i|]; [|done]. simpl in *.
        destruct (locate_arr items i b2) as [[x bx]|] eqn:Hl; [|done]. simpl in *.
        apply locate_arr_lookup in Hl as (_ & ? & ?).
        apply locate_range in H1; [|done]. lia.
    + simpl in H1, H2. destruct t as [| |obj| | |items|]; try done.
      * destruct (locate_obj obj s1 (S b)) as [[x1 bx1]|] eqn:Hl1; [|done].
        destruct (locate_obj obj s2 (S b)) as [[x2 bx2]|] eqn:Hl2; [|done].
        simpl in *. destruct (decide (s1 = s2)) as [->|Hne].
        -- simplify_eq. f_equal. by eapply IH.
        -- exfalso. pose proof (locate_obj_disjoint _ _ _ _ _ _ _ _ Hne Hl1 Hl2).
           apply locate_range in H1; [|done]. apply locate_range in H2; [|done]. lia.
      * destruct (index_of s1 (length items)) as [i1|] eqn:Hi1; [|done].
        destruct (index_of s2 (length items)) as [i2|] eqn:Hi2; [|done]. simpl in *.
        destruct (locate_arr items i1 b) as [[x1 bx1]|] eqn:Hl1; [|done].
        destruct (locate_arr items i2 b) as [[x2 bx2]|] eqn:Hl2; [|done].
        simpl in *. apply index_of_Some in Hi1 as [-> ?]. apply index_of_Some in Hi2 as [-> ?].
        destruct (decide (i1 = i2)) as [->|Hne].
        -- simplify_eq. f_equal. by eapply IH.
        -- exfalso. pose proof (locate_arr_disjoint _ _ _ _ _ _ _ _ Hne Hl1 Hl2).
           apply locate_range in H1; [|done]. apply locate_range in H2; [|done]. lia.
Qed.

(** ** The objects of a laid out tree *)

Lemma val_node ρ node b path :
  is_node node → val ρ node b path = VObj (node_loc node b).
Proof. by destruct node. Qed.

Lemma val_ext ρ1 ρ2 t b path :
  ρ1 path = ρ2 path → val ρ1 t b path = val ρ2 t b path.
Proof. intros H. by destruct t. Qed.

Lemma vals_obj_ext ρ1 ρ2 path obj b :
  (∀ k, ρ1 (path ++ [k]) = ρ2 (path ++ [k])) →
  vals_obj ρ1 path obj b = vals_obj ρ2 path obj b.
Proof.
  intros H. revert b. induction obj as [|[k x] obj IH]; intros b; simpl; [done|].
  rewrite IH. f_equal. f_equal. by apply val_ext.
Qed.

Lemma vals_arr_ext ρ1 ρ2 path items i b :
  (∀ k, ρ1 (path ++ [k]) = ρ2 (path ++ [k])) →
  vals_arr ρ1 path items i b = vals_arr ρ2 path items i b.
Proof.
  intros H. revert i b. induction items as [|x items IH]; intros i b; simpl; [done|].
  rewrite IH. f_equal. by apply val_ext.
Qed.

Lemma node_object_ext ρ1 ρ2 node b path :
  (∀ k, ρ1 (path ++ [k]) = ρ2 (path ++ [k])) →
  node_object ρ1 node b path = node_object ρ2 node b path.
Proof.
  intros H. destruct node; simpl; try done.
  - f_equal. by apply vals_obj_ext.
  - f_equal. by apply vals_arr_ext.
Qed.

Lemma vals_obj_keys ρ path obj b : (vals_obj ρ path obj b).*1 = obj.*1.
Proof.
  revert b. induction obj as [|[k x] obj IH]; intros b; simpl; [done|]. by rewrite IH.
Qed.

Lemma length_vals_arr ρ path items i b : length (vals_arr ρ path items i b) = length items.
Proof.
  revert i b. induction items as [|x items IH]; intros i b; simpl; [done|]. by rewrite IH.
Qed.

Lemma vals_obj_get ρ path obj s b x bx :
  locate_obj obj s b = Some (x, bx) →
  assoc_get s (vals_obj ρ path obj b) = Some (val ρ x bx (path ++ [s])).
Proof.
  revert b. induction obj as [|[k y] obj IH]; intros b H; simpl in *; [done|].
  case_decide; [by simplify_eq|]. by apply IH.
Qed.

Lemma vals_obj_get_None ρ path obj s b :
  locate_obj obj s b = None → assoc_get s (vals_obj ρ path obj b) = None.
Proof.
  revert b. induction obj as [|[k y] obj IH]; intros b H; simpl in *; [done|].
  case_decide; [done|]. by apply IH.
Qed.

Lemma vals_arr_lookup ρ path items i0 i b x bx :
  locate_arr items i b = Some (x, bx) →
  vals_arr ρ path items i0 b !! i = Some (val ρ x bx (path ++ [String_ (i0 + i)])).
Proof.
  revert i0 i b. induction items as [|y items IH]; intros i0 i b H; [done|].
  destruct i as [|i]; simpl in *.
  - simplify_eq. by rewrite Nat.add_0_r.
  - rewrite (IH (S i0) i _ H). by replace (i0 + S i) with (S i0 + i) by lia.
Qed.

Lemma lay_obj_segment ρ path obj s b x bx j :
  locate_obj obj s b = Some (x, bx) → j < size x →
  lay_obj ρ path obj b !! (bx - b + j) = lay ρ x bx (path ++ [s]) !! j.
Proof.
  revert b. induction obj as [|[k y] obj IH]; intros b H Hj; simpl in H; [done|].
  simpl. case_decide.
  - simplify_eq. rewrite Nat.sub_diag. simpl.
    rewrite lookup_app_l; [done|]. by rewrite length_lay.
  - pose proof (locate_obj_lookup _ _ _ _ _ H) as (_ & ? & _).
    rewrite lookup_app_r by (rewrite length_lay; lia).
    rewrite length_lay, <- (IH _ H Hj). f_equal. lia.
Qed.

Lemma lay_arr_segment ρ path items i0 i b x bx j :
  locate_arr items i b = Some (x, bx) → j < size x →
  lay_arr ρ path items i0 b !! (bx - b + j) =
    lay ρ x bx (path ++ [String_ (i0 + i)]) !! j.
Proof.
  revert i0 i b. induction items as [|y items IH]; intros i0 i b H Hj; [done|].
  destruct i as [|i]; simpl in H; simpl.
  - simplify_eq. rewrite Nat.sub_diag, Nat.add_0_r. simpl.
    rewrite lookup_app_l; [done|]. by rewrite length_lay.
  - pose proof (locate_arr_lookup _ _ _ _ _ H) as (_ & ? & _).
    rewrite lookup_app_r by (rewrite length_lay; lia).
    rewrite length_lay.
    replace (bx - b + j - size y) with (bx - (b + size y) + j) by lia.
    rewrite (IH (S i0) i _ H Hj). by replace (i0 + S i) with (S i0 + i) by lia.
Qed.

Lemma lay_lookup_node ρ t b p0 q node bq :
  locate t b q = Some (node, bq) → is_node node →
  lay ρ t b p0 !! (node_loc node bq - b) = Some (node_object ρ node bq (p0 ++ q)).
Proof.
  revert t b p0. induction q as [|s q IH]; intros t b p0 H Hn; simpl in H.
  - simplify_eq. rewrite app_nil_r. destruct node as [| |obj| | |items|]; try done.
    + rewrite lay_SObj. simpl. by rewrite Nat.sub_diag.
    + rewrite lay_SArr. simpl.
      rewrite lookup_app_r by (rewrite length_lay_arr; lia).
      rewrite length_lay_arr.
      by replace (bq + sizes items - bq - sizes items) with 0 by lia.
  - destruct t as [| |obj| | |items|]; try done.
    + destruct (locate_obj obj s (S b)) as [[x bx]|] eqn:Hl; [|done]. simpl in H.
      pose proof (locate_obj_lookup _ _ _ _ _ Hl) as (_ & ? & ?).
      pose proof (locate_range _ _ _ _ _ H Hn) as [? ?].
      rewrite lay_SObj.
      replace (node_loc node bq - b) with (S (bx - S b + (node_loc node bq - bx))) by lia.
      simpl. rewrite (lay_obj_segment _ _ _ _ _ _ _ _ Hl) by lia.
      rewrite (IH _ _ _ H Hn). by rewrite <- app_assoc.
    + destruct (index_of s (length items)) as [i|] eqn:Hi; [|done]. simpl in H.
      destruct (locate_arr items i b) as [[x bx]|] eqn:Hl; [|done]. simpl in H.
      apply index_of_Some in Hi as [-> ?].
      pose proof (locate_arr_lookup _ _ _ _ _ Hl) as (_ & ? & ?).
      pose proof (locate_range _ _ _ _ _ H Hn) as [? ?].
      rewrite lay_SArr.
      rewrite lookup_app_l by (rewrite length_lay_arr; lia).
      replace (node_loc node bq - b) with (bx - b + (node_loc node bq - bx)) by lia.
      rewrite (lay_arr_segment _ _ _ 0 _ _ _ _ _ Hl) by lia.
      rewrite (IH _ _ _ H Hn). by rewrite <- app_assoc.
Qed.

Lemma after_nil T b p : after T b [] p = pending p.
Proof. unfold after. case_decide as H; [|done]. by apply not_elem_of_nil in H. Qed.

Lemma laid_out_ext T b ρ1 ρ2 H :
  (∀ p, ρ1 p = ρ2 p) → laid_out T b ρ1 H → laid_out T b ρ2 H.
Proof.
  intros Heq Hl q node bq Hq Hn. rewrite (Hl q node bq Hq Hn).
  f_equal. by apply node_object_ext.
Qed.

Lemma laid_out_first_pass T h :
  laid_out T (length h) (after T (length h) []) (h ++ lay pending T (length h) []).
Proof.
  apply (laid_out_ext _ _ pending); [intros; by rewrite after_nil|].
  intros q node bq Hq Hn.
  pose proof (locate_range _ _ _ _ _ Hq Hn) as [? ?].
  rewrite lookup_app_r by lia.
  by rewrite (lay_lookup_node _ _ _ [] _ _ _ Hq Hn).
Qed.

(** ** Following a path in a laid out tree *)

Lemma get_plain H l kvs s :
  H !! l = Some (plain kvs) →
  get H (VObj l) s = Ok (default VUndefined (assoc_get s kvs)).
Proof. intros Hl. unfold get. by rewrite Hl. Qed.

Lemma get_array H l vals i :
  H !! l = Some (array vals) → i < length vals →
  get H (VObj l) (String_ i) = Ok (default VUndefined (vals !! i)).
Proof.
  intros Hl Hi. unfold get. rewrite Hl. unfold object_get. simpl.
  by rewrite index_of_String.
Qed.

Lemma find_laid_out T b ρ H q :
  laid_out T b ρ H →
  ∀ q0 t0 b0 t' b',
    locate T b q0 = Some (t0, b0) →
    locate t0 b0 q = Some (t', b') →
    Path.find H (val ρ t0 b0 q0) q = Ok (val ρ t' b' (q0 ++ q)).
Proof.
  intros Hl. induction q as [|s q IH]; intros q0 t0 b0 t' b' H0 Hq; simpl in Hq.
  - simplify_eq. by rewrite app_nil_r.
  - destruct t0 as [| |obj| | |items|]; try done.
    + destruct (locate_obj obj s (S b0)) as [[x bx]|] eqn:Hx; [|done]. simpl in Hq.
      simpl. rewrite (get_plain _ _ (vals_obj ρ q0 obj (S b0))).
      2: { by apply (Hl q0 (SObj obj) b0). }
      rewrite (vals_obj_get _ _ _ _ _ _ _ Hx). simpl.
      rewrite (IH (q0 ++ [s]) x bx t' b'); [by rewrite <- app_assoc| |done].
      rewrite (locate_snoc _ _ _ _ _ _ H0). simpl. by rewrite Hx.
    + destruct (index_of s (length items)) as [i|] eqn:Hi; [|done]. simpl in Hq.
      destruct (locate_arr items i b0) as [[x bx]|] eqn:Hx; [|done]. simpl in Hq.
      pose proof Hi as Hi'. apply index_of_Some in Hi' as [-> ?].
      simpl. rewrite (get_array _ _ (vals_arr ρ q0 items 0 b0)).
      2: { by apply (Hl q0 (SArr items) b0). }
      2: { by rewrite length_vals_arr. }
      rewrite (vals_arr_lookup _ _ _ 0 _ _ _ _ Hx). simpl.
      rewrite (IH (q0 ++ [String_ i]) x bx t' b'); [by rewrite <- app_assoc| |done].
      rewrite (locate_snoc _ _ _ _ _ _ H0). simpl. rewrite Hi. simpl. by rewrite Hx.
Qed.

Lemma locate_app_inv t b p q r :
  locate t b (p ++ q) = Some r →
  ∃ t1 b1, locate t b p = Some (t1, b1) ∧ locate t1 b1 q = Some r.
Proof.
  revert t b. induction p as [|s p IH]; intros t b H; simpl in *; [eauto|].
  destruct t as [| |obj| | |items|]; try done.
  - destruct (locate_obj obj s (S b)) as [[x bx]|]; [|done]. simpl in *. by apply IH.
  - destruct (index_of s (length items)) as [i|]; [|done]. simpl in *.
    destruct (locate_arr items i b) as [[x bx]|]; [|done]. simpl in *. by apply IH.
Qed.

Lemma locate_wf t b p t1 b1 :
  wf_tree t → locate t b p = Some (t1, b1) → wf_tree t1.
Proof.
  revert t b. induction p as [|s p IH]; intros t b Hwf H; simpl in H; [by simplify_eq|].
  destruct t as [| |obj| | |items|]; try done.
  - destruct (locate_obj obj s (S b)) as [[x bx]|] eqn:Hx; [|done]. simpl in H.
    apply locate_obj_lookup in Hx as (Hg & _).
    apply wf_tree_SObj in Hwf as [_ Hwf]. eapply IH; [|done].
    clear -Hg Hwf. induction Hwf as [|[k y] obj Hy _ IHobj]; simpl in *; [done|].
    case_decide; [by simplify_eq|]. by apply IHobj.
  - destruct (index_of s (length items)) as [i|]; [|done]. simpl in H.
    destruct (locate_arr items i b) as [[x bx]|] eqn:Hx; [|done]. simpl in H.
    apply locate_arr_lookup in Hx as (Hg & _).
    apply wf_tree_SArr in Hwf. eapply IH; [|done].
    rewrite Forall_forall in Hwf. apply Hwf. by eapply list_elem_of_lookup_2.
Qed.

Lemma Arr_init_snoc {E} (l : list E) x : Arr.init (l ++ [x]) = l.
Proof.
  unfold Arr.init. rewrite length_app. simpl.
  replace (length l + 1 - 1) with (length l) by lia.
  by rewrite take_app_length.
Qed.

Lemma Arr_last_snoc {E} (l : list E) x : Arr.last (l ++ [x]) = Some x.
Proof.
  unfold Arr.last. rewrite length_app. simpl.
  replace (length l + 1 - 1) with (length l) by lia.
  by rewrite lookup_app_r, Nat.sub_diag.
Qed.

(** ** Writing a reference into a laid out tree *)

Lemma fn_update_eq ρ p x : fn_update ρ p x p = x.
Proof. unfold fn_update. by case_decide. Qed.

Lemma fn_update_ne ρ p x q : q ≠ p → fn_update ρ p x q = ρ q.
Proof. unfold fn_update. by case_decide. Qed.

Lemma vals_obj_update_other ρ path obj b s x :
  s ∉ obj.*1 →
  vals_obj (fn_update ρ (path ++ [s]) x) path obj b = vals_obj ρ path obj b.
Proof.
  revert b. induction obj as [|[k y] obj IH]; intros b Hs; simpl; [done|].
  rewrite fmap_cons, not_elem_of_cons in Hs. destruct Hs as [Hk Hs]. simpl in Hk.
  rewrite IH by done. do 2 f_equal. apply val_ext, fn_update_ne.
  intros Heq. by apply app_inj_tail in Heq as [_ ->].
Qed.

Lemma vals_obj_update ρ path obj b s x source :
  NoDup obj.*1 → assoc_get s obj = Some (SRef source) →
  assoc_set s x (vals_obj ρ path obj b) =
    vals_obj (fn_update ρ (path ++ [s]) x) path obj b.
Proof.
  revert b. induction obj as [|[k y] obj IH]; intros b Hnd Hg; simpl in *; [done|].
  apply NoDup_cons in Hnd as [Hk Hnd]. case_decide.
  - simplify_eq. simpl. rewrite fn_update_eq.
    by rewrite vals_obj_update_other.
  - rewrite IH by done. do 2 f_equal. symmetry. apply val_ext, fn_update_ne.
    intros Heq. by apply app_inj_tail in Heq as [_ ->].
Qed.

Lemma vals_arr_update_other ρ path items i1 b k x :
  k < i1 →
  vals_arr (fn_update ρ (path ++ [String_ k]) x) path items i1 b =
    vals_arr ρ path items i1 b.
Proof.
  revert i1 b. induction items as [|y items IH]; intros i1 b Hk; simpl; [done|].
  rewrite IH by lia. f_equal. apply val_ext, fn_update_ne.
  intros Heq. apply app_inj_tail in Heq as [_ Heq]. apply String_inj in Heq. lia.
Qed.

Lemma vals_arr_update ρ path items i0 b i x source :
  items !! i = Some (SRef source) →
  <[i := x]> (vals_arr ρ path items i0 b) =
    vals_arr (fn_update ρ (path ++ [String_ (i0 + i)]) x) path items i0 b.
Proof.
  revert i0 b i. induction items as [|y items IH]; intros i0 b i Hi; [done|].
  destruct i as [|i]; simpl in *.
  - simplify_eq. simpl. rewrite !Nat.add_0_r, fn_update_eq. f_equal.
    by rewrite vals_arr_update_other by lia.
  - rewrite (IH (S i0) _ i Hi).
    replace (i0 + S i) with (S i0 + i) by lia. f_equal.
    symmetry. apply val_ext, fn_update_ne.
    intros Heq. apply app_inj_tail in Heq as [_ Heq]. apply String_inj in Heq. lia.
Qed.

Lemma set_object H l o s x :
  H !! l = Some o → set H (VObj l) s x = Ok (<[l := object_set o s x]> H).
Proof. intros Hl. unfold set. by rewrite Hl. Qed.

Lemma object_set_plain kvs s x :
  object_set (plain kvs) s x = plain (assoc_set s x kvs).
Proof. done. Qed.

Lemma object_set_array vals i x :
  i < length vals →
  object_set (array vals) (String_ i) x = array (<[i := x]> vals).
Proof. intros Hi. unfold object_set. simpl. by rewrite index_of_String. Qed.

Lemma node_object_update ρ node bq q s source bt x :
  wf_tree node →
  locate node bq [s] = Some (SRef source, bt) →
  object_set (node_object ρ node bq q) s x =
    node_object (fn_update ρ (q ++ [s]) x) node bq q.
Proof.
  intros Hwf Hs. simpl in Hs. destruct node as [| |obj| | |items|]; try done.
  - destruct (locate_obj obj s (S bq)) as [[y by_]|] eqn:Hy; [|done].
    simpl in Hs. simplify_eq.
    apply locate_obj_lookup in Hy as (Hg & _).
    apply wf_tree_SObj in Hwf as [Hnd _].
    simpl. rewrite object_set_plain. f_equal. by eapply vals_obj_update.
  - destruct (index_of s (length items)) as [i|] eqn:Hi; [|done]. simpl in Hs.
    destruct (locate_arr items i bq) as [[y by_]|] eqn:Hy; [|done].
    simpl in Hs. simplify_eq.
    apply index_of_Some in Hi as [-> ?].
    apply locate_arr_lookup in Hy as (Hg & _).
    simpl. rewrite object_set_array by by rewrite length_vals_arr.
    f_equal. by erewrite (vals_arr_update _ _ _ 0).
Qed.

Lemma copy_step T b ρ H q s source nsrc bsrc :
  wf_tree T → laid_out T b ρ H →
  sub_at T (q ++ [s]) = Some (SRef source) →
  locate T b source = Some (nsrc, bsrc) → is_node nsrc →
  ∃ H',
    Path.copyProperty H (val ρ T b []) source (q ++ [s]) = Ok H'
    ∧ laid_out T b (fn_update ρ (q ++ [s]) (VObj (node_loc nsrc bsrc))) H'
    ∧ length H' = length H
    ∧ ∀ l, l < b → H' !! l = H !! l.
Proof.
  intros Hwf Hl Hsub Hsrc Hnsrc.
  rewrite (sub_at_locate _ b) in Hsub.
  destruct (locate T b (q ++ [s])) as [[t bt]|] eqn:Ht; [|done].
  simpl in Hsub. simplify_eq.
  apply locate_app_inv in Ht as (node & bq & Hq & Hs).
  assert (Hnode : is_node node) by (by destruct node).
  pose proof (locate_wf _ _ _ _ _ Hwf Hq) as Hwfn.
  pose proof (Hl q node bq Hq Hnode) as Hobj.
  pose proof (locate_range _ _ _ _ _ Hq Hnode) as [? ?].
  unfold Path.copyProperty.
  rewrite (find_laid_out T b ρ H source Hl [] T b nsrc bsrc eq_refl Hsrc).
  rewrite Arr_init_snoc, Arr_last_snoc.
  rewrite (find_laid_out T b ρ H q Hl [] T b node bq eq_refl Hq).
  simpl. rewrite !val_node by done.
  rewrite (set_object _ _ _ _ _ Hobj).
  rewrite (node_object_update _ _ _ _ _ _ _ _ Hwfn Hs).
  eexists. split; [done|]. split_and!.
  - intros q2 n2 b2 Hq2 Hn2.
    destruct (decide (node_loc n2 b2 = node_loc node bq)) as [Heq|Hne].
    + assert (q2 = q) as -> by (by eapply locate_inj).
      simplify_eq. rewrite list_lookup_insert_eq; [done|].
      by eapply lookup_lt_Some.
    + rewrite list_lookup_insert_ne by done.
      rewrite (Hl q2 n2 b2 Hq2 Hn2). f_equal.
      apply node_object_ext. intros k. symmetry. apply fn_update_ne.
      intros Heq. apply app_inj_tail in Heq as [-> _]. simplify_eq.
  - by rewrite length_insert.
  - intros l Hlt. rewrite list_lookup_insert_ne; [done|lia].
Qed.

(** ** The reference fixups of a tree *)

Lemma refs_SObj obj path : refs (SObj obj) path = refs_obj path obj.
Proof. done. Qed.

Lemma refs_SArr items path : refs (SArr items) path = refs_arr path items 0.
Proof. done. Qed.

Lemma assoc_get_elem_of {V} s (l : list (string * V)) x :
  assoc_get s l = Some x → (s, x) ∈ l.
Proof.
  induction l as [|[k y] l IH]; simpl; [done|].
  case_decide; intros; simplify_eq; [left|right; auto].
Qed.

Lemma assoc_get_NoDup {V} s (l : list (string * V)) x :
  NoDup l.*1 → (s, x) ∈ l → assoc_get s l = Some x.
Proof.
  induction l as [|[k y] l IH]; simpl; intros Hnd Hin.
  - by apply elem_of_nil in Hin.
  - apply NoDup_cons in Hnd as [Hk Hnd].
    apply elem_of_cons in Hin as [?|Hin]; simplify_eq.
    + by case_decide.
    + case_decide; [|by apply IH]. subst. exfalso. apply Hk.
      apply list_elem_of_fmap. by exists (s, x).
Qed.

Lemma app_cons_snoc {A} (p : list A) s q : p ++ s :: q = (p ++ [s]) ++ q.
Proof. by rewrite <- app_assoc. Qed.

Lemma refs_complete t p0 q source :
  sub_at t q = Some (SRef source) → ReferenceFixup (p0 ++ q) source ∈ refs t p0.
Proof.
  revert t p0. induction q as [|s q IH]; intros t p0 H; simpl in H.
  - simplify_eq. rewrite app_nil_r. simpl. left.
  - destruct t as [| |obj| | |items|]; try done.
    + destruct (assoc_get s obj) as [x|] eqn:Hg; [|done]. simpl in H.
      apply assoc_get_elem_of in Hg. rewrite refs_SObj.
      induction obj as [|[k y] obj IHobj]; [by apply elem_of_nil in Hg|].
      simpl. apply elem_of_app. apply elem_of_cons in Hg as [?|Hg]; simplify_eq.
      * left. rewrite app_cons_snoc. by apply IH.
      * right. by apply IHobj.
    + destruct (index_of s (length items)) as [i|] eqn:Hi; [|done]. simpl in H.
      destruct (items !! i) as [x|] eqn:Hg; [|done]. simpl in H.
      apply index_of_Some in Hi as [-> _]. rewrite refs_SArr.
      replace (String_ i) with (String_ (0 + i)) by done.
      generalize 0. revert i Hg.
      induction items as [|y items IHitems]; intros i Hg i0; [done|].
      simpl. apply elem_of_app. destruct i as [|i]; simpl in Hg; simplify_eq.
      * left. rewrite Nat.add_0_r, app_cons_snoc. by apply IH.
      * right. replace (i0 + S i) with (S i0 + i) by lia. by apply IHitems.
Qed.

Lemma refs_sound t p0 a :
  wf_tree t → a ∈ refs t p0 →
  ∃ q source, a = ReferenceFixup (p0 ++ q) source ∧ sub_at t q = Some (SRef source).
Proof.
  revert p0. induction t as [| |obj IH| | |items IH|] using SerItem_ind;
    intros p0 Hwf Ha; try done.
  - by apply elem_of_nil in Ha.
  - apply list_elem_of_singleton in Ha as ->. exists [], ref. by rewrite app_nil_r.
  - apply wf_tree_SObj in Hwf as [Hnd Hwf]. rewrite refs_SObj in Ha.
    assert (∃ k x, (k, x) ∈ obj ∧ a ∈ refs x (p0 ++ [k])) as (k & x & Hin & Hax).
    { clear -Ha. induction obj as [|[k y] obj IHobj]; [by apply elem_of_nil in Ha|].
      simpl in Ha. apply elem_of_app in Ha as [Ha|Ha].
      - exists k, y. split; [left|done].
      - destruct (IHobj Ha) as (k' & x & ? & ?). exists k', x. split; [by right|done]. }
    rewrite Forall_forall in IH, Hwf.
    destruct (IH _ Hin (p0 ++ [k]) (Hwf _ Hin) Hax) as (q & source & -> & Hq).
    exists (k :: q), source. split; [by rewrite <- app_assoc|].
    simpl. by rewrite (assoc_get_NoDup _ _ _ Hnd Hin).
  - apply wf_tree_SArr in Hwf. rewrite refs_SArr in Ha.
    assert (∃ i x, items !! i = Some x ∧ a ∈ refs x (p0 ++ [String_ (0 + i)]))
      as (i & x & Hin & Hax).
    { clear -Ha. revert Ha. generalize 0.
      induction items as [|y items IHitems]; intros i0 Ha; [by apply elem_of_nil in Ha|].
      simpl in Ha. apply elem_of_app in Ha as [Ha|Ha].
      - exists 0, y. split; [done|]. by rewrite Nat.add_0_r.
      - destruct (IHitems _ Ha) as (i & x & ? & ?). exists (S i), x. split; [done|].
        by replace (i0 + S i) with (S i0 + i) by lia. }
    rewrite Forall_forall in IH, Hwf.
    pose proof (list_elem_of_lookup_2 _ _ _ Hin) as Hin'.
    destruct (IH _ Hin' (p0 ++ [String_ i]) (Hwf _ Hin') Hax) as (q & source & -> & Hq).
    exists (String_ i :: q), source. split; [by rewrite <- app_assoc|].
    simpl. rewrite index_of_String by by eapply lookup_lt_Some.
    simpl. by rewrite Hin.
Qed.

(** ** The second pass resolves every reference *)

Lemma after_update T b done target source nsrc bsrc p :
  sub_at T target = Some (SRef source) →
  locate T b source = Some (nsrc, bsrc) → is_node nsrc →
  fn_update (after T b done) target (VObj (node_loc nsrc bsrc)) p =
    after T b (target :: done) p.
Proof.
  intros Hsub Hsrc Hn. unfold fn_update, after.
  destruct (decide (p = target)) as [->|Hne].
  - rewrite decide_True by left. unfold resolved. rewrite Hsub, Hsrc.
    by rewrite val_node.
  - destruct (decide (p ∈ done)).
    + by rewrite decide_True by by right.
    + rewrite decide_False; [done|]. rewrite not_elem_of_cons. done.
Qed.

Lemma snoc_of_nonempty {A} (l : list A) : l ≠ [] → ∃ q s, l = q ++ [s].
Proof.
  destruct l as [|x l] using rev_ind; [done|]. intros _. eauto.
Qed.

Lemma fixup_refs converters T b actions :
  wf_tree T → refs_resolvable T → is_node T →
  Forall (resolves T) actions →
  ∀ done H,
    laid_out T b (after T b done) H →
    ∃ H' done',
      fixup converters actions (VObj (node_loc T b)) H = Ok (VObj (node_loc T b), H')
      ∧ laid_out T b (after T b done') H'
      ∧ (∀ p, p ∈ done' ↔ p ∈ done ∨ ∃ source, ReferenceFixup p source ∈ actions)
      ∧ length H' = length H
      ∧ ∀ l, l < b → H' !! l = H !! l.
Proof.
  intros Hwf Hres Hroot Hacts.
  induction Hacts as [|a actions Ha _ IH]; intros done H Hl.
  - exists H, done. split_and!; try done.
    intros p. split; [auto|]. intros [?|[? Hin]]; [done|]. by apply elem_of_nil in Hin.
  - destruct Ha as (target & source & -> & Hsub).
    destruct (Hres _ _ Hsub) as (Hne & nsrc & Hsrc & Hnsrc).
    apply snoc_of_nonempty in Hne as (q & s & ->).
    rewrite (sub_at_locate _ b) in Hsrc.
    destruct (locate T b source) as [[nsrc' bsrc]|] eqn:Hloc; [|done].
    simpl in Hsrc. simplify_eq.
    destruct (copy_step T b _ H q s source nsrc bsrc Hwf Hl Hsub Hloc Hnsrc)
      as (H1 & Hcopy & Hl1 & Hlen1 & Hpre1).
    rewrite val_node in Hcopy by done.
    assert (Hl1' : laid_out T b (after T b ((q ++ [s]) :: done)) H1).
    { eapply laid_out_ext; [|exact Hl1]. intros p. by eapply after_update. }
    destruct (IH _ _ Hl1') as (H' & done' & Hfix & Hl' & Hdone & Hlen & Hpre).
    exists H', done'. simpl. rewrite Hcopy. simpl. split_and!; try done.
    + intros p. rewrite Hdone, elem_of_cons. split.
      * intros [[->|?]|[src ?]]; [right; exists source; left|by left|].
        right. exists src. by right.
      * intros [?|[src Hin]]; [left; by right|].
        apply elem_of_cons in Hin as [?|?]; simplify_eq; [left; by left|].
        right. by exists src.
    + by rewrite Hlen.
    + intros l Hlt. by rewrite Hpre, Hpre1.
Qed.

(** [denormalize] on a tree of plain data: the nodes of the tree are
    allocated after the heap it starts from, which it leaves alone, and at
    the end every reference holds the object of its source. *)
Lemma resolved_not_ref T b p :
  (∀ source, sub_at T p ≠ Some (SRef source)) → resolved T b p = VNull.
Proof.
  intros H. unfold resolved. destruct (sub_at T p) as [[]|]; try done.
  by edestruct H.
Qed.

Lemma denormalize_plain converters options h T :
  wf_tree T → refs_resolvable T → is_node T →
  ∃ H',
    denormalize converters options h T = Ok (VObj (node_loc T (length h)), H')
    ∧ laid_out T (length h) (resolved T (length h)) H'
    ∧ ∀ l, l < length h → H' !! l = h !! l.
Proof.
  intros Hwf Hres Hroot. unfold denormalize.
  rewrite (des_lay options T Hwf). simpl.
  rewrite val_node by done.
  assert (Hacts : Forall (resolves T) (sort Action.compare ([] ++ refs T []))).
  { rewrite sort_Permutation. simpl. apply Forall_forall. intros a Ha.
    destruct (refs_sound _ _ _ Hwf Ha) as (q & source & -> & Hq).
    by exists q, source. }
  destruct (fixup_refs converters T (length h) _ Hwf Hres Hroot Hacts []
              _ (laid_out_first_pass T h)) as (H' & done' & Hfix & Hl & Hdone & _ & Hpre).
  exists H'. split_and!; [done| |].
  - eapply laid_out_ext; [|exact Hl]. intros p. unfold after.
    case_decide as Hp; [done|].
    symmetry. apply resolved_not_ref. intros source Hsub.
    apply Hp, Hdone. right. exists source.
    rewrite sort_Permutation. simpl.
    by apply (refs_complete _ []).
  - intros l Hlt. rewrite Hpre by done. by rewrite lookup_app_l.
Qed.

(** ** Plain heaps *)

Lemma plain_heap_lookup h l o :
  plain_heap h → h !! l = Some o → plain_object_in (length h) o = true.
Proof.
  unfold plain_heap. rewrite forallb_forall. intros Hh Hl.
  apply Hh. apply list_elem_of_In. by eapply list_elem_of_lookup_2.
Qed.


Lemma plain_object_cases n o :
  plain_object_in n o = true →
  (∃ elems, o = array elems ∧ forallb (plain_value_in n) elems = true)
  ∨ (∃ kvs, o = plain kvs ∧ NoDup kvs.*1 ∧ forallb (plain_value_in n) kvs.*2 = true).
Proof.
  destruct o as [c kvs i]. unfold plain_object_in. simpl.
  destruct i; try done; intros H;
    apply andb_prop in H as [H H3]; apply andb_prop in H as [H1 H2];
    apply bool_decide_eq_true in H1, H2; subst.
  - right. by exists kvs.
  - left. by exists elems.
Qed.

(** ** What [ser] establishes on plain data *)

Lemma describes_mono d d' t path v :
  d ⊆ d' → describes d t path v → describes d' t path v.
Proof.
  intros Hsub. destruct v; simpl; try done.
  intros [(ref & -> & Hl)|[Hl Hn]].
  - left. exists ref. split; [done|]. by eapply lookup_weaken.
  - right. split; [|done]. by eapply lookup_weaken.
Qed.

Lemma describes_object_mono d d' o t path :
  d ⊆ d' → describes_object d o t path → describes_object d' o t path.
Proof.
  intros Hsub. unfold describes_object.
  destruct (internal o).
  2: { intros (items & -> & Hlen & H). exists items. split_and!; try done.
       intros. eapply describes_mono; eauto. }
  all: intros (obj & -> & Hk & H); exists obj; split_and!; try done;
    intros; eapply describes_mono; eauto.
Qed.

Lemma sub_at_SArr items i q :
  i < length items →
  sub_at (SArr items) (String_ i :: q) = items !! i ≫= λ x, sub_at x q.
Proof. intros Hi. simpl. by rewrite index_of_String. Qed.

Section ser_plain.
Context (converters : ConverterConfig) (options : Options) (h : heap).
Local Abbreviation ser := (ser converters options).

Lemma ser_elems_plain fuel path elems :
  ser_plain_at converters options h fuel →
  forallb (plain_value_in (length h)) elems = true →
  ∀ i0 d items h' d',
    ser_elems (ser fuel) path elems i0 h d = Ok (items, (h', d')) →
    h' = h ∧ d ⊆ d' ∧ length items = length elems ∧ Forall wf_tree items
    ∧ (∀ i e x, elems !! i = Some e → items !! i = Some x →
         describes d' x (path ++ [String_ (i0 + i)]) e)
    ∧ (∀ i x q source, items !! i = Some x → sub_at x q = Some (SRef source) →
         ∃ l, d' !! l = Some source)
    ∧ (∀ l pl, d !! l = None → d' !! l = Some pl →
         ∃ i x q o t', items !! i = Some x ∧ pl = path ++ String_ (i0 + i) :: q
           ∧ h !! l = Some o ∧ sub_at x q = Some t' ∧ describes_object d' o t' pl).
Proof.
  intros Hser. induction elems as [|elem rest IH]; intros Hplain i0 d items h' d' H.
  - simpl in H. simplify_eq. split_and!; try done.
    intros l pl Hn Hs. congruence.
  - simpl in Hplain. apply andb_prop in Hplain as [Helem Hrest].
    simpl in H.
    apply bind_Ok in H as ([r [h1 d1]] & Hr & H).
    apply bind_Ok in H as ([rs [h2 d2]] & Hrs & H). simplify_eq.
    apply Hser in Hr as (-> & Hsub1 & Hwf1 & Hdesc1 & _ & Hrefs1 & Hnew1); [|done].
    apply IH in Hrs as (-> & Hsub2 & Hlen & Hwf2 & Hdesc2 & Hrefs2 & Hnew2); [|done].
    split_and!.
    + done.
    + by etrans.
    + simpl. by rewrite Hlen.
    + by constructor.
    + intros [|i] e x He Hx; simpl in *; simplify_eq.
      * rewrite Nat.add_0_r. by eapply describes_mono.
      * replace (i0 + S i) with (S i0 + i) by lia. by eapply Hdesc2.
    + intros [|i] x q source Hx Hq; simpl in *; simplify_eq.
      * destruct (Hrefs1 _ _ Hq) as (l & Hl). exists l. by eapply lookup_weaken.
      * by eapply Hrefs2.
    + intros l pl Hn Hs. destruct (d1 !! l) as [pl1|] eqn:Hl1.
      * assert (pl1 = pl) as ->.
        { eapply lookup_weaken in Hl1; [|exact Hsub2]. congruence. }
        destruct (Hnew1 _ _ Hn Hl1) as (q & o & t' & -> & Ho & Hq & Hdo).
        exists 0, r, q, o, t'. split_and!; try done.
        -- by rewrite Nat.add_0_r, <- app_assoc.
        -- by eapply describes_object_mono.
      * destruct (Hnew2 _ _ Hl1 Hs) as (i & x & q & o & t' & Hx & -> & Ho & Hq & Hdo).
        exists (S i), x, q, o, t'. split_and!; try done.
        by replace (i0 + S i) with (S i0 + i) by lia.
Qed.

Lemma ser_props_plain fuel path entries :
  ser_plain_at converters options h fuel →
  forallb (plain_value_in (length h)) entries.*2 = true →
  ∀ acc d obj h' d',
    NoDup (acc.*1 ++ entries.*1) →
    ser_props (ser fuel) path entries acc h d = Ok (obj, (h', d')) →
    h' = h ∧ d ⊆ d'
    ∧ ∃ new, obj = acc ++ new ∧ new.*1 = entries.*1
      ∧ Forall (λ kx, wf_tree kx.2) new
      ∧ (∀ i k e k' x, entries !! i = Some (k, e) → new !! i = Some (k', x) →
           describes d' x (path ++ [k]) e)
      ∧ (∀ i k x q source, new !! i = Some (k, x) → sub_at x q = Some (SRef source) →
           ∃ l, d' !! l = Some source)
      ∧ (∀ l pl, d !! l = None → d' !! l = Some pl →
           ∃ i k x q o t', new !! i = Some (k, x) ∧ pl = path ++ k :: q
             ∧ h !! l = Some o ∧ sub_at x q = Some t' ∧ describes_object d' o t' pl).
Proof.
  intros Hser. induction entries as [|[key e] rest IH];
    intros Hplain acc d obj h' d' Hnd H.
  - simpl in H. simplify_eq. split_and!; try done.
    exists []. rewrite app_nil_r. split_and!; try done.
    intros l pl Hn Hs. congruence.
  - rewrite fmap_cons in Hplain. simpl in Hplain.
    apply andb_prop in Hplain as [Helem Hrest].
    rewrite fmap_cons in Hnd. simpl in Hnd.
    assert (Hkey : key ∉ acc.*1).
    { apply NoDup_app in Hnd as (_ & Hnd & _). intros Hin.
      apply (Hnd _ Hin). left. }
    simpl in H.
    apply bind_Ok in H as ([r [h1 d1]] & Hr & H).
    apply Hser in Hr as (-> & Hsub1 & Hwf1 & Hdesc1 & _ & Hrefs1 & Hnew1); [|done].
    rewrite assoc_set_fresh in H by done.
    apply IH in H as (-> & Hsub2 & new & -> & Hkeys & Hwf2 & Hdesc2 & Hrefs2 & Hnew2);
      [|done|].
    2: { rewrite fmap_app. simpl. rewrite <- app_assoc. done. }
    split_and!; [done|by etrans|].
    exists ((key, r) :: new). split_and!.
    + by rewrite <- app_assoc.
    + rewrite !fmap_cons. simpl. by rewrite Hkeys.
    + by constructor.
    + intros [|i] k e' k' x He Hx; simpl in *; simplify_eq.
      * by eapply describes_mono.
      * by eapply Hdesc2.
    + intros [|i] k x q source Hx Hq; simpl in *; simplify_eq.
      * destruct (Hrefs1 _ _ Hq) as (l & Hl). exists l. by eapply lookup_weaken.
      * by eapply Hrefs2.
    + intros l pl Hn Hs. destruct (d1 !! l) as [pl1|] eqn:Hl1.
      * assert (pl1 = pl) as ->.
        { eapply lookup_weaken in Hl1; [|exact Hsub2]. congruence. }
        destruct (Hnew1 _ _ Hn Hl1) as (q & o & t' & -> & Ho & Hq & Hdo).
        exists 0, key, r, q, o, t'. split_and!; try done.
        -- by rewrite <- app_assoc.
        -- by eapply describes_object_mono.
      * destruct (Hnew2 _ _ Hl1 Hs) as (i & k & x & q & o & t' & Hx & -> & Ho & Hq & Hdo).
        by exists (S i), k, x, q, o, t'.
Qed.
End ser_plain.

Lemma sub_at_leaf_ref t q source :
  ¬ is_node t → sub_at t q = Some (SRef source) → q = [] ∧ t = SRef source.
Proof.
  intros Hn. destruct q as [|s q]; simpl; [naive_solver|].
  destruct t; try done; by destruct Hn.
Qed.

Lemma ser_good_leaf h d path v :
  plain_value_in 0 v = true → ser_good h d path v (SVal v) d.
Proof.
  intros Hv. split_and!; try done.
  - by destruct v.
  - by intros l ->.
  - intros q source [? ?]%sub_at_leaf_ref; [done|tauto].
  - intros l pl Hn Hs. congruence.
Qed.

Lemma ser_plain converters options h fuel :
  plain_heap h → ser_plain_at converters options h fuel.
Proof.
  intros Hh. induction fuel as [|fuel IH]; intros item path d t h' d' Hitem H; [done|].
  simpl in H. destruct item as [| | | | | | |l]; try done.
  1-5: simplify_eq; split; [done|]; by apply ser_good_leaf.
  simpl in Hitem. apply bool_decide_eq_true in Hitem.
  destruct (lookup_lt_is_Some_2 h l Hitem) as [o Ho].
  destruct (d !! l) as [ref|] eqn:Hd.
  { destruct (noRefs options); [done|]. simplify_eq. split; [done|]. split_and!; try done.
    - left. by exists ref.
    - intros l' [= <-] ?. congruence.
    - intros q source [? ?]%sub_at_leaf_ref; [|tauto]. simplify_eq. by exists l.
    - intros l' pl Hn Hs. congruence. }
  rewrite Ho in H.
  assert (Hd1 : <[l:=path]> d !! l = Some path) by apply lookup_insert_eq.
  assert (Hsub0 : d ⊆ <[l:=path]> d) by by apply insert_subseteq.
  destruct (plain_object_cases _ _ (plain_heap_lookup _ _ _ Hh Ho))
    as [(elems & -> & Helems)|(kvs & -> & Hnd & Hkvs)]; simpl in H.
  - (* an array *)
    apply bind_Ok in H as ([items [h1 d1]] & Hs & H). simplify_eq.
    eapply ser_elems_plain in Hs as (-> & Hsub & Hlen & Hwf & Hdesc & Hrefs & Hnew);
      [|done|done].
    assert (Hl : d' !! l = Some path) by by eapply lookup_weaken.
    assert (Hobj : describes_object d' (array elems) (SArr items) path).
    { exists items. split_and!; try done; intros i e x He Hx; by apply (Hdesc i). }
    split; [done|]. split_and!.
    + by etrans.
    + by apply wf_tree_SArr.
    + right. done.
    + done.
    + intros [|s q] source Hq; [done|]. simpl in Hq.
      destruct (index_of s (length items)) as [i|]; [|done]. simpl in Hq.
      destruct (items !! i) as [x|] eqn:Hx; [|done]. simpl in Hq.
      by eapply Hrefs.
    + intros l' pl Hn Hs. destruct (decide (l' = l)) as [->|Hne].
      * exists [], (array elems), (SArr items). rewrite app_nil_r.
        split_and!; try done; congruence.
      * rewrite <- (lookup_insert_ne d l l' path) in Hn by done.
        destruct (Hnew _ _ Hn Hs) as (i & x & q & o & t' & Hx & -> & Hlo & Hq & Hdo).
        exists (String_ i :: q), o, t'. split_and!; try done.
        rewrite sub_at_SArr by by eapply lookup_lt_Some.
        by rewrite Hx.
  - (* a plain object *)
    apply bind_Ok in H as ([obj [h1 d1]] & Hs & H). simplify_eq.
    eapply ser_props_plain in Hs
      as (-> & Hsub & new & -> & Hkeys & Hwf & Hdesc & Hrefs & Hnew); [|done|done|done].
    simpl in *.
    assert (Hl : d' !! l = Some path) by by eapply lookup_weaken.
    assert (Hobj : describes_object d' (plain kvs) (SObj new) path).
    { exists new. split_and!; try done; intros i k e x He Hx; by eapply Hdesc. }
    assert (Hndnew : NoDup new.*1) by by rewrite Hkeys.
    split; [done|]. split_and!.
    + by etrans.
    + by apply wf_tree_SObj.
    + right. done.
    + done.
    + intros [|s q] source Hq; [done|]. simpl in Hq.
      destruct (assoc_get s new) as [x|] eqn:Hx; [|done]. simpl in Hq.
      apply assoc_get_elem_of, list_elem_of_lookup in Hx as [i Hx].
      by eapply Hrefs.
    + intros l' pl Hn Hs. destruct (decide (l' = l)) as [->|Hne].
      * exists [], (plain kvs), (SObj new). rewrite app_nil_r.
        split_and!; try done; congruence.
      * rewrite <- (lookup_insert_ne d l l' path) in Hn by done.
        destruct (Hnew _ _ Hn Hs) as (i & k & x & q & o & t' & Hx & -> & Hlo & Hq & Hdo).
        exists (k :: q), o, t'. split_and!; try done.
        simpl. rewrite (assoc_get_NoDup k new x); [done|done|].
        by eapply list_elem_of_lookup_2.
Qed.

(** ** The potential of a state of normalize *)

Section potential.
Context (w : object → nat).

Lemma potential_from_insert_lt k h d j p :
  j < k → potential_from w k h (<[j:=p]> d) = potential_from w k h d.
Proof.
  revert k. induction h as [|o h IH]; intros k Hj; simpl; [done|].
  rewrite lookup_insert_ne by lia. rewrite IH by lia. done.
Qed.

Lemma potential_from_insert k h d l o p :
  h !! l = Some o → d !! (k + l) = None →
  potential_from w k h (<[k + l := p]> d) + w o = potential_from w k h d.
Proof.
  revert k l. induction h as [|o' h IH]; intros k l Hl Hd; [done|].
  destruct l as [|l]; simpl in *.
  - simplify_eq. rewrite Nat.add_0_r in *. rewrite lookup_insert_eq, Hd.
    rewrite potential_from_insert_lt by lia. lia.
  - rewrite lookup_insert_ne by lia.
    replace (k + S l) with (S k + l) in * by lia.
    rewrite <- (IH (S k) l Hl Hd). lia.
Qed.

Lemma potential_insert h d l o p :
  h !! l = Some o → d !! l = None →
  potential w h (<[l := p]> d) + w o = potential w h d.
Proof. apply (potential_from_insert 0). Qed.

Lemma potential_from_mono k h d d' :
  d ⊆ d' → potential_from w k h d' ≤ potential_from w k h d.
Proof.
  intros Hsub. revert k. induction h as [|o h IH]; intros k; simpl; [done|].
  specialize (IH (S k)).
  destruct (d !! k) as [p|] eqn:Hd.
  - rewrite (lookup_weaken _ _ _ _ Hd Hsub). lia.
  - destruct (d' !! k); lia.
Qed.

Lemma potential_mono h d d' : d ⊆ d' → potential w h d' ≤ potential w h d.
Proof. apply potential_from_mono. Qed.

Lemma potential_from_app k h fresh d :
  potential_from w k (h ++ fresh) d ≤ potential_from w k h d + sum_list_with w fresh.
Proof.
  revert k. induction h as [|o h IH]; intros k; simpl.
  - revert k. induction fresh as [|o fresh IH]; intros k; simpl; [done|].
    specialize (IH (S k)). destruct (d !! k); lia.
  - specialize (IH (S k)). lia.
Qed.

Lemma potential_app h fresh d :
  potential w (h ++ fresh) d ≤ potential w h d + sum_list_with w fresh.
Proof. apply potential_from_app. Qed.
End potential.

(** ** Normalize settles on plain data *)

Section progress.
Context (converters : ConverterConfig) (options : Options) (h : heap).
Local Abbreviation ser := (ser converters options).

Lemma ser_elems_settles fuel path elems :
  (∀ item p d, plain_value_in (length h) item = true →
     potential unit_weight h d < fuel → settles options h (ser fuel item p h d)) →
  forallb (plain_value_in (length h)) elems = true →
  ∀ i0 d, potential unit_weight h d < fuel →
    settles options h (ser_elems (ser fuel) path elems i0 h d).
Proof.
  intros Hser. induction elems as [|elem rest IH]; intros Hplain i0 d Hpot.
  - left. by eexists _, _.
  - simpl in Hplain. apply andb_prop in Hplain as [Helem Hrest]. simpl.
    destruct (Hser elem (path ++ [String_ i0]) d Helem Hpot)
      as [(t & d1 & Ht)|[Hno Ht]]; rewrite Ht; simpl; [|by right].
    apply ser_extending in Ht as [_ Hsub].
    destruct (IH Hrest (S i0) d1) as [(ts & d2 & Hts)|[Hno Hts]].
    + pose proof (potential_mono unit_weight h _ _ Hsub). lia.
    + rewrite Hts. left. by eexists _, _.
    + rewrite Hts. by right.
Qed.

Lemma ser_props_settles fuel path entries :
  (∀ item p d, plain_value_in (length h) item = true →
     potential unit_weight h d < fuel → settles options h (ser fuel item p h d)) →
  forallb (plain_value_in (length h)) entries.*2 = true →
  ∀ acc d, potential unit_weight h d < fuel →
    settles options h (ser_props (ser fuel) path entries acc h d).
Proof.
  intros Hser. induction entries as [|[key e] rest IH]; intros Hplain acc d Hpot.
  - left. by eexists _, _.
  - rewrite fmap_cons in Hplain. simpl in Hplain.
    apply andb_prop in Hplain as [Helem Hrest]. simpl.
    destruct (Hser e (path ++ [key]) d Helem Hpot)
      as [(t & d1 & Ht)|[Hno Ht]]; rewrite Ht; simpl; [|by right].
    apply ser_extending in Ht as [_ Hsub].
    apply IH; [done|].
    pose proof (potential_mono unit_weight h _ _ Hsub). lia.
Qed.

Lemma ser_settles fuel :
  plain_heap h →
  ∀ item path d, plain_value_in (length h) item = true →
    potential unit_weight h d < fuel → settles options h (ser fuel item path h d).
Proof.
  intros Hh. induction fuel as [|fuel IH]; intros item path d Hitem Hpot; [lia|].
  simpl. destruct item as [| | | | | | |l]; try done.
  1-5: left; by eexists _, _.
  simpl in Hitem. apply bool_decide_eq_true in Hitem.
  destruct (lookup_lt_is_Some_2 h l Hitem) as [o Ho].
  destruct (d !! l) as [ref|] eqn:Hd.
  { destruct (noRefs options) eqn:Hno; [by right|]. left. by eexists _, _. }
  rewrite Ho.
  pose proof (potential_insert unit_weight h d l o path Ho Hd) as Hins.
  unfold unit_weight at 2 in Hins.
  destruct (plain_object_cases _ _ (plain_heap_lookup _ _ _ Hh Ho))
    as [(elems & -> & Helems)|(kvs & -> & Hnd & Hkvs)]; simpl.
  - destruct (ser_elems_settles fuel path elems IH Helems 0 (<[l:=path]> d))
      as [(ts & d2 & Hts)|[Hno Hts]]; [lia| |].
    + rewrite Hts. left. by eexists _, _.
    + rewrite Hts. by right.
  - change (own_enumerable (plain kvs)) with kvs.
    destruct (ser_props_settles fuel path kvs IH Hkvs [] (<[l:=path]> d))
      as [(ts & d2 & Hts)|[Hno Hts]]; [lia| |].
    + rewrite Hts. left. by eexists _, _.
    + rewrite Hts. by right.
Qed.
End progress.

(** ** The clone of plain data is structurally equal to the original *)

Lemma similar_refl_primitive n h v :
  (∀ l, v ≠ VObj l) → similar n h v v.
Proof. intros Hv. destruct n; [done|]. destruct v; try done. by edestruct Hv. Qed.

Lemma describes_object_node d o t path : describes_object d o t path → is_node t.
Proof.
  unfold describes_object. destruct (internal o).
  2: by intros (? & -> & _).
  all: by intros (? & -> & _).
Qed.

Lemma vals_obj_lookup ρ path obj b i k x :
  NoDup obj.*1 → obj !! i = Some (k, x) →
  ∃ bx, locate_obj obj k b = Some (x, bx)
        ∧ vals_obj ρ path obj b !! i = Some (k, val ρ x bx (path ++ [k])).
Proof.
  revert b i. induction obj as [|[k' y] obj IH]; intros b i Hnd Hi; [done|].
  rewrite fmap_cons in Hnd. apply NoDup_cons in Hnd as [Hk Hnd].
  destruct i as [|i]; simpl in *.
  - simplify_eq. exists b. by rewrite decide_True.
  - destruct (IH (b + size y) i Hnd Hi) as (bx & Hl & Hv).
    exists bx. rewrite decide_False; [done|].
    intros ->. apply Hk. apply list_elem_of_fmap. exists (k, x).
    split; [done|]. by eapply list_elem_of_lookup_2.
Qed.

Section similar.
Context (h : heap) (T : SerItem) (D : Dict) (H' : heap).
Let b := length h.
Context (Hplain : plain_heap h).
Context (Hwf : wf_tree T).
Context (Hentries : ∀ l pl, D !! l = Some pl →
  ∃ o t', h !! l = Some o ∧ sub_at T pl = Some t' ∧ describes_object D o t' pl).
Context (Hlaid : laid_out T b (resolved T b) H').
Context (Hprefix : ∀ l, l < b → H' !! l = h !! l).

Lemma entry_located l pl :
  D !! l = Some pl →
  ∃ o node bq, h !! l = Some o ∧ locate T b pl = Some (node, bq)
               ∧ is_node node ∧ describes_object D o node pl.
Proof.
  intros Hl. destruct (Hentries _ _ Hl) as (o & t' & Ho & Hsub & Hdo).
  rewrite (sub_at_locate _ b) in Hsub.
  destruct (locate T b pl) as [[node bq]|]; [|done]. simpl in Hsub. simplify_eq.
  exists o, t', bq. split_and!; try done. by eapply describes_object_node.
Qed.

Lemma similar_child n p x bx e :
  (∀ l pl, D !! l = Some pl →
     ∃ node bq, locate T b pl = Some (node, bq) ∧ is_node node
                ∧ similar n H' (VObj l) (VObj (node_loc node bq))) →
  locate T b p = Some (x, bx) →
  describes D x p e →
  similar n H' e (val (resolved T b) x bx p).
Proof.
  intros IH Hx Hdesc. destruct e as [| | | | | | |l].
  1-7: simpl in Hdesc; subst; simpl; by apply similar_refl_primitive.
  destruct Hdesc as [(ref & -> & Hl)|[Hl Hn]].
  - destruct (IH _ _ Hl) as (node & bq & Hloc & Hnode & Hsim).
    simpl. unfold resolved. rewrite (sub_at_locate _ b), Hx. simpl.
    by rewrite Hloc, val_node.
  - destruct (IH _ _ Hl) as (node & bq & Hloc & Hnode & Hsim).
    simplify_eq. by rewrite val_node.
Qed.

Lemma clone_similar n :
  ∀ l pl, D !! l = Some pl →
    ∃ node bq, locate T b pl = Some (node, bq) ∧ is_node node
               ∧ similar n H' (VObj l) (VObj (node_loc node bq)).
Proof.
  induction n as [|n IH]; intros l pl Hl;
    destruct (entry_located _ _ Hl) as (o & node & bq & Ho & Hloc & Hnode & Hdo);
    exists node, bq; split_and!; try done.
  pose proof (lookup_lt_Some _ _ _ Ho) as Hlt.
  pose proof (locate_wf _ _ _ _ _ Hwf Hloc) as Hwfn.
  simpl. rewrite (Hprefix l Hlt), Ho, (Hlaid _ _ _ Hloc Hnode).
  destruct (plain_object_cases _ _ (plain_heap_lookup _ _ _ Hplain Ho))
    as [(elems & -> & Helems)|(kvs & -> & Hnd & Hkvs)].
  - destruct Hdo as (items & -> & Hlen & Hdesc). simpl.
    split_and!; try done; [constructor|].
    apply Forall2_same_length_lookup. split; [by rewrite length_vals_arr|].
    intros i e v' He Hv'.
    destruct (lookup_lt_is_Some_2 items i) as [x Hx].
    { rewrite Hlen. by eapply lookup_lt_Some. }
    destruct (locate_arr_of_lookup items i bq x Hx) as [bx Hbx].
    rewrite (vals_arr_lookup _ _ _ 0 _ _ _ _ Hbx) in Hv'. simplify_eq.
    apply similar_child; [done| |by eapply Hdesc].
    rewrite (locate_snoc _ _ _ _ _ _ Hloc). simpl.
    rewrite index_of_String by by eapply lookup_lt_Some.
    simpl. by rewrite Hbx.
  - destruct Hdo as (obj & -> & Hkeys & Hdesc). simpl in *.
    apply wf_tree_SObj in Hwfn as [Hndo _].
    split_and!; try done.
    + by rewrite vals_obj_keys.
    + apply Forall2_same_length_lookup. split.
      { rewrite !length_fmap. rewrite <- (length_fmap fst kvs), <- Hkeys.
        by rewrite <- (vals_obj_keys (resolved T b) pl obj (S bq)), length_fmap. }
      intros i e v' He Hv'.
      rewrite list_lookup_fmap in He, Hv'.
      destruct (kvs !! i) as [[k e']|] eqn:Hkv; [|done]. simpl in He. simplify_eq.
      destruct (obj !! i) as [[k' x]|] eqn:Hx.
      2: { apply lookup_ge_None in Hx.
           destruct (vals_obj _ _ _ _ !! i) as [kv|] eqn:Hv; [|done].
           apply lookup_lt_Some in Hv.
           rewrite <- (length_fmap fst), vals_obj_keys, length_fmap in Hv. lia. }
      assert (k' = k) as ->.
      { apply (f_equal (λ l, l !! i)) in Hkeys.
        rewrite !list_lookup_fmap, Hkv, Hx in Hkeys. by simplify_eq/=. }
      destruct (vals_obj_lookup (resolved T b) pl obj (S bq) i k x Hndo Hx)
        as (bx & Hbx & Hv).
      rewrite Hv in Hv'. simpl in Hv'. simplify_eq.
      apply similar_child; [done| |by eapply Hdesc].
      rewrite (locate_snoc _ _ _ _ _ _ Hloc). simpl. by rewrite Hbx.
Qed.
End similar.

(** ** The clone of plain data is a copy that keeps identities *)

Section identity.
Context (h : heap) (T : SerItem) (D : Dict) (H' : heap).
Let b := length h.
Context (Hplain : plain_heap h).
Context (Hwf : wf_tree T).
Context (Hentries : ∀ l pl, D !! l = Some pl →
  ∃ o t', h !! l = Some o ∧ sub_at T pl = Some t' ∧ describes_object D o t' pl).
Context (Hlaid : laid_out T b (resolved T b) H').

Lemma val_rename p x bx e :
  locate T b p = Some (x, bx) →
  describes D x p e →
  val (resolved T b) x bx p = rename_value (image T b D) e.
Proof.
  intros Hx Hdesc. destruct e as [| | | | | | |l].
  1-7: by simpl in Hdesc; subst.
  destruct Hdesc as [(ref & -> & Hl)|[Hl Hn]]; simpl; unfold image; rewrite Hl.
  - destruct (entry_located h T D Hentries _ _ Hl)
      as (o & node & bq & Ho & Hloc & Hnode & Hdo). fold b in Hloc.
    unfold resolved. rewrite (sub_at_locate _ b), Hx. simpl.
    by rewrite Hloc, val_node.
  - rewrite Hx. by rewrite val_node.
Qed.

Lemma object_rename l pl o node bq :
  D !! l = Some pl → h !! l = Some o →
  locate T b pl = Some (node, bq) →
  node_object (resolved T b) node bq pl = rename_object (image T b D) o.
Proof.
  intros Hl Ho Hloc.
  destruct (Hentries _ _ Hl) as (o' & t' & Ho' & Hsub & Hdo).
  rewrite (sub_at_locate _ b), Hloc in Hsub. simpl in Hsub. simplify_eq.
  pose proof (locate_wf _ _ _ _ _ Hwf Hloc) as Hwfn.
  destruct (plain_object_cases _ _ (plain_heap_lookup _ _ _ Hplain Ho))
    as [(elems & -> & Helems)|(kvs & -> & Hnd & Hkvs)].
  - destruct Hdo as (items & -> & Hlen & Hdesc). simpl.
    unfold array, rename_object. simpl. do 2 f_equal.
    apply list_eq_same_length with (length items).
    { by rewrite length_fmap. }
    { by rewrite length_vals_arr. }
    intros i v1 v2 Hi Hv1 Hv2.
    destruct (lookup_lt_is_Some_2 items i Hi) as [x Hx].
    destruct (locate_arr_of_lookup items i bq x Hx) as [bx Hbx].
    rewrite (vals_arr_lookup _ _ _ 0 _ _ _ _ Hbx) in Hv1.
    rewrite list_lookup_fmap in Hv2.
    destruct (elems !! i) as [e|] eqn:He; [|done]. simpl in *. simplify_eq.
    apply val_rename; [|by eapply Hdesc].
    rewrite (locate_snoc _ _ _ _ _ _ Hloc). simpl.
    rewrite index_of_String by done. simpl. by rewrite Hbx.
  - destruct Hdo as (obj & -> & Hkeys & Hdesc). simpl in *.
    apply wf_tree_SObj in Hwfn as [Hndo _].
    unfold plain, rename_object. simpl. f_equal.
    assert (Hlen : length obj = length kvs).
    { by rewrite <- (length_fmap fst obj), Hkeys, length_fmap. }
    apply list_eq_same_length with (length obj).
    { by rewrite length_fmap. }
    { by rewrite <- (length_fmap fst), vals_obj_keys, length_fmap. }
    intros i v1 v2 Hi Hv1 Hv2.
    destruct (lookup_lt_is_Some_2 obj i Hi) as [[k x] Hx].
    destruct (vals_obj_lookup (resolved T b) pl obj (S bq) i k x Hndo Hx)
      as (bx & Hbx & Hv).
    rewrite Hv in Hv1. rewrite list_lookup_fmap in Hv2.
    destruct (kvs !! i) as [[k' e]|] eqn:He; [|done]. simpl in *. simplify_eq.
    assert (k' = k) as ->.
    { apply (f_equal (λ l, l !! i)) in Hkeys.
      rewrite !list_lookup_fmap, He, Hx in Hkeys. by simplify_eq/=. }
    f_equal. apply val_rename; [|by eapply Hdesc].
    rewrite (locate_snoc _ _ _ _ _ _ Hloc). simpl. by rewrite Hbx.
Qed.

Lemma image_copy l pl :
  D !! l = Some pl →
  length h ≤ image T b D l
  ∧ ∃ o, h !! l = Some o ∧ H' !! image T b D l = Some (rename_object (image T b D) o).
Proof.
  intros Hl.
  destruct (entry_located h T D Hentries _ _ Hl)
    as (o & node & bq & Ho & Hloc & Hnode & Hdo). fold b in Hloc.
  pose proof (locate_range _ _ _ _ _ Hloc Hnode) as [? ?].
  unfold image at 1 2. rewrite Hl, Hloc. split; [done|].
  exists o. split; [done|]. rewrite (Hlaid _ _ _ Hloc Hnode).
  f_equal. by eapply object_rename.
Qed.
End identity.

Lemma potential_from_le_length k h d : potential_from unit_weight k h d ≤ length h.
Proof.
  revert k. induction h as [|o h IH]; intros k; simpl; [done|].
  specialize (IH (S k)). unfold unit_weight at 1. destruct (d !! k); lia.
Qed.

Lemma own_enumerable_array elems s c :
  (s, c) ∈ own_enumerable (array elems) → ∃ i, s = String_ i ∧ elems !! i = Some c.
Proof.
  unfold own_enumerable. simpl. rewrite app_nil_r.
  intros Hin. apply list_elem_of_lookup in Hin as [i Hi].
  rewrite list_lookup_imap in Hi.
  destruct (elems !! i) as [e|] eqn:He; [|done]. simpl in Hi. simplify_eq. eauto.
Qed.

Lemma reach_recorded h D T v p l x pv :
  plain_heap h →
  (∀ l pl, D !! l = Some pl →
     ∃ o t', h !! l = Some o ∧ sub_at T pl = Some t' ∧ describes_object D o t' pl) →
  reach h v p (VObj l) → describes D x pv v → is_Some (D !! l).
Proof.
  intros Hplain Hentries Hreach. revert x pv.
  remember (VObj l) as target eqn:Ht.
  induction Hreach as [v|v s c p v' Hchild Hreach IH]; intros x pv Hdesc; subst.
  - destruct Hdesc as [(ref & _ & Hl)|[Hl _]]; by eexists.
  - destruct Hchild as (l0 & o & -> & Ho & Hin).
    assert (∃ pl0, D !! l0 = Some pl0) as [pl0 Hl0].
    { destruct Hdesc as [(ref & _ & Hl)|[Hl _]]; by eexists. }
    destruct (Hentries _ _ Hl0) as (o' & t' & Ho' & Hsub & Hdo). simplify_eq.
    destruct (plain_object_cases _ _ (plain_heap_lookup _ _ _ Hplain Ho))
      as [(elems & -> & Helems)|(kvs & -> & Hnd & Hkvs)].
    + destruct Hdo as (items & -> & Hlen & Hdo).
      apply own_enumerable_array in Hin as (i & -> & He).
      destruct (lookup_lt_is_Some_2 items i) as [y Hy].
      { rewrite Hlen. by eapply lookup_lt_Some. }
      eapply (IH eq_refl). by eapply Hdo.
    + destruct Hdo as (obj & -> & Hkeys & Hdo). simpl in *.
      change (own_enumerable (plain kvs)) with kvs in Hin.
      apply list_elem_of_lookup in Hin as [i Hi].
      destruct (lookup_lt_is_Some_2 obj i) as [[k y] Hy].
      { rewrite <- (length_fmap fst obj), Hkeys, length_fmap. by eapply lookup_lt_Some. }
      assert (k = s) as ->.
      { apply (f_equal (λ l, l !! i)) in Hkeys.
        rewrite !list_lookup_fmap, Hi, Hy in Hkeys. by simplify_eq/=. }
      eapply (IH eq_refl). by eapply Hdo.
Qed.

Lemma reach_primitive h v p l :
  (∀ l', v ≠ VObj l') → ¬ reach h v p (VObj l).
Proof.
  intros Hv Hreach. inversion Hreach as [|? ? ? ? ? (l0 & o & -> & _)]; subst.
  - by eapply Hv.
  - by eapply Hv.
Qed.

(** On a heap of plain data, with references allowed, [clone] succeeds with
    any fuel above the size of the heap; the clone is structurally equal to
    the input; it is a copy, allocated after the heap, in which every
    composite reached from the input has one image; and the heap it started
    from is left as it was. *)
Lemma clone_plain_data converters options h v fuel :
  plain_heap h → plain_value_in (length h) v = true →
  noRefs options = false → length h < fuel →
  ∃ r h' φ,
    clone converters options fuel h v = Ok (r, h')
    ∧ structurally_equal h' v r
    ∧ r = rename_value φ v
    ∧ copy_along φ h v h'
    ∧ ∀ l, l < length h → h' !! l = h !! l.
Proof.
  intros Hplain Hv Hno Hfuel.
  assert (Hpot : potential unit_weight h ∅ < fuel).
  { pose proof (potential_from_le_length 0 h ∅). unfold potential. lia. }
  destruct (ser_settles converters options h fuel Hplain v [] ∅ Hv Hpot)
    as [(T & D & Hser)|[Hno' _]]; [|congruence].
  destruct (ser_plain converters options h fuel Hplain _ _ _ _ _ _ Hv Hser)
    as (_ & _ & Hwf & Hdesc & Hroot & Hrefs & Hnew).
  unfold clone, normalize. rewrite Hser. simpl.
  assert (Hentries : ∀ l pl, D !! l = Some pl →
    ∃ o t', h !! l = Some o ∧ sub_at T pl = Some t' ∧ describes_object D o t' pl).
  { intros l pl Hl. destruct (Hnew l pl (lookup_empty _) Hl) as (q & o & t' & -> & ? & ? & ?).
    by exists o, t'. }
  assert (Hcases : (∃ l, v = VObj l) ∨ ∀ l, v ≠ VObj l)
    by (destruct v; eauto).
  destruct Hcases as [[l ->]|Hv'].
  - specialize (Hroot l eq_refl (lookup_empty _)).
    assert (Hres : refs_resolvable T).
    { intros p source Hsub. split.
      - intros ->. simpl in Hsub. simplify_eq. done.
      - destruct (Hrefs _ _ Hsub) as (l' & Hl').
        destruct (Hentries _ _ Hl') as (o & t' & _ & Ht' & Hdo).
        exists t'. split; [done|]. by eapply describes_object_node. }
    destruct (denormalize_plain converters options h T Hwf Hres Hroot)
      as (H' & Hden & Hlaid & Hprefix).
    assert (Hl : D !! l = Some []).
    { destruct Hdesc as [(ref & -> & _)|[Hl _]]; done. }
    exists (VObj (node_loc T (length h))), H', (image T (length h) D).
    split_and!; try done.
    + intros n.
      destruct (clone_similar h T D H' Hplain Hwf Hentries Hlaid Hprefix n l [] Hl)
        as (node & bq & Hloc & _ & Hsim).
      simpl in Hloc. by simplify_eq.
    + simpl. unfold image. by rewrite Hl.
    + intros l' [p Hreach].
      destruct (reach_recorded h D T _ _ _ _ _ Hplain Hentries Hreach Hdesc) as [pl Hpl].
      by eapply image_copy.
  - assert (T = SVal v) as -> by (destruct v; try done; by edestruct Hv').
    exists v, h, id. split_and!; try done.
    + intros n. by apply similar_refl_primitive.
    + by destruct v.
    + intros l [p Hreach]. by apply reach_primitive in Hreach.
Qed.

(** ** With [noRefs], a result means that nothing is shared *)

Section no_refs.
Context (converters : ConverterConfig) (options : Options) (h : heap).
Local Abbreviation ser := (ser converters options).



End no_refs.

(** ** C1: the round trip through the intermediate tree *)




(** ** C4: noRefs *)




(** ** Every composite that normalize records has been dealt with *)

Lemma dealt_with_mono converters h h' d d' l :
  h `prefix_of` h' → d ⊆ d' →
  dealt_with converters h d l → dealt_with converters h' d' l.
Proof.
  intros Hh Hd (o & Ho & H). exists o. split; [by eapply prefix_lookup_Some|].
  assert (Hw : ∀ l', is_Some (d !! l') → is_Some (d' !! l')).
  { intros l' [p Hp]. exists p. by eapply lookup_weaken. }
  destruct (internal o); try (destruct H as (cl & Hc & H); exists cl; split; [done|];
    case_decide; [intros s l' Hin; eauto|done]).
  intros i l' Hi. eauto.
Qed.

Section thorough.
Context (converters : ConverterConfig) (options : Options).
Local Abbreviation ser := (ser converters options).

Lemma ser_elems_thorough f path elems :
  extending f → thorough converters f →
  ∀ i0 h d items h' d',
    ser_elems f path elems i0 h d = Ok (items, (h', d')) →
    (∀ i l', elems !! i = Some (VObj l') → is_Some (d' !! l'))
    ∧ ∀ l, d !! l = None → is_Some (d' !! l) → dealt_with converters h' d' l.
Proof.
  intros Hext Hf. induction elems as [|elem rest IH]; intros i0 h d items h' d' H.
  - simpl in H. simplify_eq. split; [done|]. intros l Hn [? ?]. congruence.
  - simpl in H.
    apply bind_Ok in H as ([r [h1 d1]] & Hr & H).
    apply bind_Ok in H as ([rs [h2 d2]] & Hrs & H). simplify_eq.
    pose proof (ser_elems_extending _ _ _ _ _ _ _ _ _ Hext Hrs) as [Hh2 Hd2].
    destruct (Hf _ _ _ _ _ _ _ Hr) as [Hrec1 Hdone1].
    destruct (IH _ _ _ _ _ _ Hrs) as [Hrec2 Hdone2].
    split.
    + intros [|i] l' Hi; simpl in Hi; [|by eapply Hrec2].
      simplify_eq. destruct (Hrec1 l' eq_refl) as [p Hp].
      exists p. by eapply lookup_weaken.
    + intros l Hn Hs. destruct (d1 !! l) as [pl|] eqn:Hl1.
      * eapply dealt_with_mono; [exact Hh2|exact Hd2|]. apply Hdone1; [done|by eexists].
      * by apply Hdone2.
Qed.

Lemma ser_props_thorough f path entries :
  extending f → thorough converters f →
  ∀ acc h d obj h' d',
    ser_props f path entries acc h d = Ok (obj, (h', d')) →
    (∀ s l', (s, VObj l') ∈ entries → is_Some (d' !! l'))
    ∧ ∀ l, d !! l = None → is_Some (d' !! l) → dealt_with converters h' d' l.
Proof.
  intros Hext Hf. induction entries as [|[key e] rest IH]; intros acc h d obj h' d' H.
  - simpl in H. simplify_eq. split.
    + intros s l' Hin. by apply elem_of_nil in Hin.
    + intros l Hn [? ?]. congruence.
  - simpl in H.
    apply bind_Ok in H as ([r [h1 d1]] & Hr & H).
    pose proof (ser_props_extending _ _ _ _ _ _ _ _ _ Hext H) as [Hh2 Hd2].
    destruct (Hf _ _ _ _ _ _ _ Hr) as [Hrec1 Hdone1].
    destruct (IH _ _ _ _ _ _ H) as [Hrec2 Hdone2].
    split.
    + intros s l' Hin. apply elem_of_cons in Hin as [Heq|Hin]; [|by eapply Hrec2].
      simplify_eq. destruct (Hrec1 l' eq_refl) as [p Hp].
      exists p. by eapply lookup_weaken.
    + intros l Hn Hs. destruct (d1 !! l) as [pl|] eqn:Hl1.
      * eapply dealt_with_mono; [exact Hh2|exact Hd2|]. apply Hdone1; [done|by eexists].
      * by apply Hdone2.
Qed.

Lemma ser_thorough fuel : thorough converters (ser fuel).
Proof.
  induction fuel as [|fuel IH]; intros v p h d r h' d' H; [done|].
  pose proof (ser_extending converters options (S fuel) _ _ _ _ _ _ _ H) as [Hh Hd].
  pose proof H as H0.
  simpl in H. destruct v as [| | | | | | |l].
  1-5: simplify_eq; split; [done|]; intros l Hn [? ?]; congruence.
  - (* symbol *)
    apply bind_Ok in H as ([sym h1] & Hc & H). simplify_eq.
    split; [done|]. intros l Hn [? ?]. congruence.
  - (* function *)
    apply bind_Ok in H as ([state h1] & Hc & H).
    apply bind_Ok in H as ([r1 [h2 d2]] & Hs & H). simplify_eq.
    split; [done|]. by apply (IH _ _ _ _ _ _ _ Hs).
  - (* object *)
    destruct (d !! l) as [ref|] eqn:Hdl.
    { destruct (noRefs options); [done|]. simplify_eq. split.
      - intros l' [= <-]. by eexists.
      - intros l' Hn [? ?]. congruence. }
    assert (Hl : is_Some (d' !! l)).
    { exists p. eapply ser_records; [exact Hdl|exact H0]. }
    split; [by intros l' [= <-]|].
    destruct (h !! l) as [o|] eqn:Ho; [|done].
    assert (Ho' : h' !! l = Some o) by by eapply prefix_lookup_Some.
    assert (Hother : ∀ l', l' ≠ l → d !! l' = None → <[l:=p]> d !! l' = None).
    { intros l' Hne Hn. by rewrite lookup_insert_ne. }
    destruct (internal o) eqn:Hi.
    2: { (* array *)
      apply bind_Ok in H as ([items [h1 d1]] & Hs & H). simplify_eq.
      destruct (ser_elems_thorough _ _ _ (ser_extending converters options fuel) IH
                  _ _ _ _ _ _ Hs) as [Hrec Hdone].
      intros l' Hn Hs'. destruct (decide (l' = l)) as [->|Hne]; [|by eauto].
      exists o. split; [done|]. by rewrite Hi. }
    all: destruct (ctor o) as [cl|] eqn:Hcl; [|done];
      destruct (decide (class_name cl = "Object")) as [Hname|Hname];
      [ apply bind_Ok in H as ([obj [h1 d1]] & Hs & H); simplify_eq;
        destruct (ser_props_thorough _ _ _ (ser_extending converters options fuel) IH
                    _ _ _ _ _ _ Hs) as [Hrec Hdone];
        intros l' Hn Hs'; destruct (decide (l' = l)) as [->|Hne]; [|by eauto];
        exists o; split; [done|]; rewrite Hi; exists cl; split; [done|];
        by rewrite decide_True
      | destruct (converters !! class_name cl) as [converter|] eqn:Hcv; [|done];
        apply bind_Ok in H as ([state h1] & Hc & H);
        apply bind_Ok in H as ([r1 [h2 d2]] & Hs & H); simplify_eq;
        destruct (IH _ _ _ _ _ _ _ Hs) as [_ Hdone];
        intros l' Hn Hs'; destruct (decide (l' = l)) as [->|Hne]; [|by eauto];
        exists o; split; [done|]; rewrite Hi; exists cl; split; [done|];
        rewrite decide_False by done; by rewrite Hcv ].
Qed.

(** What [ser] has walked from the input is all in the identity map. *)
Lemma walk_recorded h h' D v p l :
  h `prefix_of` h' →
  (∀ l, is_Some (D !! l) → dealt_with converters h' D l) →
  (∀ l, v = VObj l → is_Some (D !! l)) →
  walk h v p (VObj l) → is_Some (D !! l).
Proof.
  intros Hh Hdone Hv Hwalk. remember (VObj l) as target eqn:Ht.
  induction Hwalk as [v|v s c p v' Hstep Hwalk IH]; subst; [by apply Hv|].
  apply IH; [|done]. intros l1 ->.
  destruct Hstep as (l0 & o & -> & Ho & Hstep).
  destruct (Hdone l0 (Hv l0 eq_refl)) as (o' & Ho' & Hd).
  eapply prefix_lookup_Some in Ho; [|exact Hh].
  assert (o' = o) as -> by congruence.
  destruct (internal o).
  2: { destruct Hstep as (i & -> & Hi). by eapply Hd. }
  all: destruct Hstep as (cl & Hcl & Hname & Hin);
    destruct Hd as (cl' & Hcl' & Hd); simplify_eq;
    rewrite decide_True in Hd by done; by eapply Hd.
Qed.

(** An instance of an unregistered class among what is walked: no tree. *)
Lemma normalize_unregistered fuel h v p l o cl :
  walk h v p (VObj l) → h !! l = Some o → isArray o = false →
  ctor o = Some cl → class_name cl ≠ "Object" →
  converters !! class_name cl = None →
  ¬ is_Ok (normalize converters options fuel h v).
Proof.
  intros Hwalk Ho Harr Hcl Hname Hreg [[t h'] H].
  unfold normalize in H.
  apply bind_Ok in H as ([t' [h1 D]] & Hser & H). simplify_eq.
  pose proof (ser_extending converters options fuel _ _ _ _ _ _ _ Hser) as [Hh _].
  destruct (ser_thorough fuel _ _ _ _ _ _ _ Hser) as [Hrec Hdone].
  assert (Hl : is_Some (D !! l)).
  { eapply walk_recorded; [exact Hh| |exact Hrec|exact Hwalk].
    intros l' Hl'. by apply Hdone. }
  destruct (Hdone l (lookup_empty _) Hl) as (o' & Ho' & Hd).
  eapply prefix_lookup_Some in Ho; [|exact Hh].
  assert (o' = o) as -> by congruence.
  unfold isArray in Harr.
  destruct (internal o); try done;
    destruct Hd as (cl' & Hcl' & Hd); simplify_eq;
    rewrite decide_False in Hd by done; rewrite Hreg in Hd; by destruct Hd.
Qed.
End thorough.

(** ** C5: which composites need a converter *)

Lemma ser_array converters options fuel l o elems path h d :
  d !! l = None → h !! l = Some o → internal o = ArrayData elems →
  ser converters options (S fuel) (VObj l) path h d =
    '(items, st) ← ser_elems (ser converters options fuel) path elems 0 h (<[l:=path]> d);
    Ok (SArr items, st).
Proof. intros Hd Ho Hi. simpl. by rewrite Hd, Ho, Hi. Qed.

Lemma ser_Object converters options fuel l o c path h d :
  d !! l = None → h !! l = Some o → isArray o = false →
  ctor o = Some c → class_name c = "Object" →
  ser converters options (S fuel) (VObj l) path h d =
    '(obj, st) ← ser_props (ser converters options fuel) path (own_enumerable o) []
                   h (<[l:=path]> d);
    Ok (SObj obj, st).
Proof.
  intros Hd Ho Ha Hc Hn. simpl. rewrite Hd, Ho, Hc.
  unfold isArray in Ha. destruct (internal o); try done; by rewrite decide_True.
Qed.



(** ** C2: references into typed instances *)

(** C2 fails on the code.  A reference fixup is ordered by the length of
    its source path alone; when its target lies in the state of a typed
    instance that is at least as deep as the source, the conversion runs
    first and the target path no longer leads anywhere: for a shared object
    that comes before a [Map] holding it, [denormalize] of the tree that
    [normalize] built throws, while with the [Map] first the clone shares
    the object.  And when the root is a typed instance, the loop returns at
    its conversion and the references to the root that are still in the list
    are dropped: the clone of an instance that refers to itself holds
    [null], while the same instance under a property is resolved. *)
Theorem references_into_typed_instances :
  (∃ t h1,
     normalize ConvertersDefault.default defaultOptions 6 example_map_below (VObj 3)
       = Ok (t, h1)
     ∧ denormalize ConvertersDefault.default defaultOptions h1 t = Err TypeError)
  ∧ (∃ t h1,
     normalize ConvertersDefault.default defaultOptions 6 example_readme (VObj 3)
       = Ok (t, h1)
     ∧ denormalize ConvertersDefault.default defaultOptions h1 t = Err TypeError)
  ∧ (∃ r h1 m entry,
     clone ConvertersDefault.default defaultOptions 6 example_map_first (VObj 2)
       = Ok (r, h1)
     ∧ get h1 r "0" = Ok (VObj m)
     ∧ internal <$> h1 !! m = Some (MapData [(VNum (Fin 1), entry)])
     ∧ get h1 r "1" = Ok entry)
  ∧ (∃ r h1,
     clone (Converters.allProps Test) defaultOptions 4 example_self_instance (VObj 0)
       = Ok (r, h1)
     ∧ get h1 r "self" = Ok VNull)
  ∧ (∃ r h1 a,
     clone (Converters.allProps Test) defaultOptions 5 example_self_instance_below (VObj 1)
       = Ok (r, h1)
     ∧ get h1 r "a" = Ok a
     ∧ get h1 a "self" = Ok a).
Proof.
  split_and!.
  - eexists _, _. split; vm_compute; reflexivity.
  - eexists _, _. split; vm_compute; reflexivity.
  - eexists _, _, _, _. split_and!; vm_compute; reflexivity.
  - eexists _, _. split; vm_compute; reflexivity.
  - eexists _, _, _. split_and!; vm_compute; reflexivity.
Qed.

(** ** C6: the text round trip *)

(** C6 fails on the code.  [JSON.stringify] omits a property whose value is
    [undefined], so the item [{val: undefined}] is written as [{}], which
    [des] does not know; and it writes [NaN] as [null].  [clone] keeps
    both. *)
Theorem text_round_trip_loses_undefined :
  serialize ConvertersDefault.default defaultOptions 1 [] VUndefined = Ok (JObj [], [])
  ∧ deserialize ConvertersDefault.default defaultOptions [] (JObj []) = Err UnknownItem
  ∧ clone ConvertersDefault.default defaultOptions 1 [] VUndefined = Ok (VUndefined, [])
  ∧ serialize ConvertersDefault.default defaultOptions 1 [] (VNum NaN)
      = Ok (JObj [("val", JNull)], [])
  ∧ deserialize ConvertersDefault.default defaultOptions [] (JObj [("val", JNull)])
      = Ok (VNull, [])
  ∧ clone ConvertersDefault.default defaultOptions 1 [] (VNum NaN) = Ok (VNum NaN, []).
Proof. split_and!; vm_compute; reflexivity. Qed.

(** ** Termination of normalize *)

Lemma terminates_bind {A B} (m : res A) (f : A → res B) :
  terminates m → (∀ a, m = Ok a → terminates (f a)) → terminates (m ≫= f).
Proof. intros Hm Hf. destruct m; simpl; [by apply Hf|done|done]. Qed.

Lemma terminates_call c h v : c h v ≠ OutOfFuel → terminates (call c h v).
Proof.
  intros Hc. unfold call. apply terminates_bind; [apply Hc|]. by intros [r fresh] _.
Qed.

Lemma instance_of_intro o cl :
  ctor o = Some cl → class_name cl ≠ "Object" → isArray o = false →
  instance_of (class_name cl) o.
Proof. intros. split_and!; try done. by exists cl. Qed.

Section termination.
Context (converters : ConverterConfig) (options : Options) (w : object → nat).
Context (Htame : tame converters options w).
Local Abbreviation ser := (ser converters options).
Local Abbreviation P := (potential w).

Lemma ser_elems_lowering f path elems :
  lowering w f →
  ∀ i0 h d items h' d',
    ser_elems f path elems i0 h d = Ok (items, (h', d')) → P h' d' ≤ P h d.
Proof.
  intros Hf. induction elems as [|elem rest IH]; intros i0 h d items h' d' H; simpl in H.
  - by simplify_eq.
  - apply bind_Ok in H as ([r [h1 d1]] & Hr & H).
    apply bind_Ok in H as ([rs [h2 d2]] & Hrs & H). simplify_eq.
    apply Hf in Hr. apply IH in Hrs. lia.
Qed.

Lemma ser_props_lowering f path entries :
  lowering w f →
  ∀ acc h d obj h' d',
    ser_props f path entries acc h d = Ok (obj, (h', d')) → P h' d' ≤ P h d.
Proof.
  intros Hf. induction entries as [|[key e] rest IH]; intros acc h d obj h' d' H; simpl in H.
  - by simplify_eq.
  - apply bind_Ok in H as ([r [h1 d1]] & Hr & H).
    apply Hf in Hr. apply IH in H. lia.
Qed.

Lemma ser_lowering fuel : lowering w (ser fuel).
Proof.
  induction fuel as [|fuel IH]; intros v p h d r h' d' H; [done|].
  simpl in H. destruct v as [| | | | | | |l].
  1-5: by simplify_eq.
  - (* symbol *)
    apply bind_Ok in H as ([sym h1] & Hc & H). simplify_eq.
    apply call_Ok in Hc as (fresh & Hc & ->).
    apply (tame_symbol_state _ _ _ Htame) in Hc as ->; [|done]. by rewrite app_nil_r.
  - (* function *)
    apply bind_Ok in H as ([state h1] & Hc & H).
    apply bind_Ok in H as ([r1 [h2 d2]] & Hs & H). simplify_eq.
    apply call_Ok in Hc as (fresh & Hc & ->).
    apply (tame_function_state _ _ _ Htame) in Hc as [-> _]; [|done].
    rewrite app_nil_r in Hs. by apply IH in Hs.
  - (* object *)
    destruct (d !! l) as [ref|] eqn:Hd.
    { destruct (noRefs options); [done|]. by simplify_eq. }
    destruct (h !! l) as [o|] eqn:Ho; [|done].
    pose proof (potential_insert w h d l o p Ho Hd) as Hins.
    destruct (internal o) eqn:Hi.
    2: { apply bind_Ok in H as ([items [h1 d1]] & Hs & H). simplify_eq.
         apply (ser_elems_lowering _ _ _ IH) in Hs. lia. }
    all: assert (Harr : isArray o = false) by (unfold isArray; by rewrite Hi);
      destruct (ctor o) as [cl|] eqn:Hcl; [|done]; case_decide;
      [ apply bind_Ok in H as ([obj [h1 d1]] & Hs & H); simplify_eq;
        apply (ser_props_lowering _ _ _ IH) in Hs; lia
      | destruct (converters !! class_name cl) as [converter|] eqn:Hcv; [|done];
        apply bind_Ok in H as ([state h1] & Hc & H);
        apply bind_Ok in H as ([r1 [h2 d2]] & Hs & H); simplify_eq;
        apply call_Ok in Hc as (fresh & Hc & ->);
        apply IH in Hs;
        pose proof (tame_registry_extracts _ _ _ Htame _ _ _ _ _ _ _ Hcv Ho
                      (instance_of_intro _ _ Hcl ltac:(done) Harr) Hc);
        pose proof (potential_app w h fresh (<[l:=p]> d)); lia ].
Qed.

Lemma ser_elems_terminates n path elems :
  (∀ item p h d, 2 * P h d + 2 ≤ n → terminates (ser n item p h d)) →
  ∀ i0 h d, 2 * P h d + 2 ≤ n → terminates (ser_elems (ser n) path elems i0 h d).
Proof.
  intros Hser. induction elems as [|elem rest IH]; intros i0 h d Hn; simpl; [done|].
  apply terminates_bind; [by apply Hser|]. intros [r [h1 d1]] Hr.
  apply ser_lowering in Hr.
  apply terminates_bind; [apply IH; lia|]. by intros [rs st] _.
Qed.

Lemma ser_props_terminates n path entries :
  (∀ item p h d, 2 * P h d + 2 ≤ n → terminates (ser n item p h d)) →
  ∀ acc h d, 2 * P h d + 2 ≤ n → terminates (ser_props (ser n) path entries acc h d).
Proof.
  intros Hser. induction entries as [|[key e] rest IH]; intros acc h d Hn; simpl; [done|].
  apply terminates_bind; [by apply Hser|]. intros [r [h1 d1]] Hr.
  apply ser_lowering in Hr. apply IH. lia.
Qed.

Lemma ser_terminates_both n :
  (∀ item p h d, (∀ name, item ≠ VFun name) → 2 * P h d + 1 ≤ n →
     terminates (ser n item p h d))
  ∧ (∀ item p h d, 2 * P h d + 2 ≤ n → terminates (ser n item p h d)).
Proof.
  induction n as [|n [IHB IHA]]; [split; intros; lia|].
  assert (HB : ∀ item p h d, (∀ name, item ≠ VFun name) → 2 * P h d + 1 ≤ S n →
                terminates (ser (S n) item p h d)).
  { intros item p h d Hitem Hn. simpl. destruct item as [| | | | | | |l]; try done.
    - apply terminates_bind;
        [by apply terminates_call, (tame_symbol_returns _ _ _ Htame)|].
      by intros [sym h1] _.
    - by edestruct Hitem.
    - destruct (d !! l) as [ref|] eqn:Hd; [by destruct (noRefs options)|].
      destruct (h !! l) as [o|] eqn:Ho; [|done].
      pose proof (potential_insert w h d l o p Ho Hd) as Hins.
      pose proof (tame_positive _ _ _ Htame o) as Hpos.
      destruct (internal o) eqn:Hi.
      2: { apply terminates_bind; [apply ser_elems_terminates; [done|lia]|].
           by intros [items st] _. }
      all: assert (Harr : isArray o = false) by (unfold isArray; by rewrite Hi);
        destruct (ctor o) as [cl|] eqn:Hcl; [|done]; case_decide;
        [ apply terminates_bind; [apply ser_props_terminates; [done|lia]|];
          by intros [obj st] _
        | destruct (converters !! class_name cl) as [converter|] eqn:Hcv; [|done];
          apply terminates_bind;
            [by eapply terminates_call, (tame_registry_returns _ _ _ Htame)|];
          intros [state h1] Hc; apply call_Ok in Hc as (fresh & Hc & ->);
          pose proof (tame_registry_extracts _ _ _ Htame _ _ _ _ _ _ _ Hcv Ho
                        (instance_of_intro _ _ Hcl ltac:(done) Harr) Hc);
          pose proof (potential_app w h fresh (<[l:=p]> d));
          apply terminates_bind; [apply IHA; lia|]; by intros [r st] _ ]. }
  split; [done|].
  intros item p h d Hn.
  assert (Hcases : (∃ name, item = VFun name) ∨ ∀ name, item ≠ VFun name)
    by (destruct item; eauto).
  destruct Hcases as [[name ->]|Hfun].
  - simpl. apply terminates_bind;
      [by apply terminates_call, (tame_function_returns _ _ _ Htame)|].
    intros [state h1] Hc. apply call_Ok in Hc as (fresh & Hc & ->).
    destruct (tame_function_state _ _ _ Htame h (VFun name) _ _ I Hc) as [-> Hstate].
    rewrite app_nil_r.
    apply terminates_bind; [|by intros [r st] _].
    apply IHB; [|lia]. intros name' ->. by apply Hstate.
  - apply HB; [done|lia].
Qed.

Lemma normalize_terminates fuel h input :
  2 * P h ∅ + 2 ≤ fuel → terminates (normalize converters options fuel h input).
Proof.
  intros Hn. unfold normalize. apply terminates_bind.
  - by apply ser_terminates_both.
  - by intros [r [h' d']] _.
Qed.
End termination.

(** ** The default engine is tame *)

Lemma default_weight_positive o : 0 < default_weight o.
Proof.
  unfold default_weight. destruct (isArray o); [lia|].
  destruct (ctor o); [|lia]. case_decide; [lia|]. destruct (internal o); lia.
Qed.

Lemma default_weight_instance name o :
  instance_of name o →
  default_weight o =
    match internal o with MapData entries => 2 + length entries | _ => 2 end.
Proof.
  intros (Harr & Hname & cl & Hcl & <-). unfold default_weight.
  rewrite Harr, Hcl. by rewrite decide_False.
Qed.

Lemma default_weight_array elems : default_weight (array elems) = 1.
Proof. done. Qed.

Lemma default_weight_object_set o key v :
  default_weight o = 1 → isArray o = false → default_weight (object_set o key v) = 1.
Proof.
  unfold default_weight, isArray, object_set. destruct o as [c kvs i].
  simpl. destruct i; simpl; try done.
Qed.

Lemma isArray_object_set o key v :
  isArray o = false → isArray (object_set o key v) = false.
Proof.
  unfold isArray, object_set. destruct o as [c kvs i]. simpl. by destruct i.
Qed.

Lemma sum_entry_arrays (entries : list (value * value)) :
  sum_list_with default_weight ((λ e, array [e.1; e.2]) <$> entries) = length entries.
Proof. induction entries as [|e entries IH]; simpl; [done|]. f_equal. exact IH. Qed.

Lemma default_registry_cases name converter :
  ConvertersDefault.default !! name = Some converter →
  (∃ C, converter = the_converter (Converters.valueOf C) (class_name (class C)))
  ∨ (∃ C, converter = the_converter (Converters.fromIterable C) (class_name (class C)))
  ∨ converter = the_converter (Converters.pick Builtin.Error ["name"; "message"]) "Error".
Proof.
  unfold ConvertersDefault.default, Converters.all, assign_config. simpl.
  unfold assign_config.
  intros H.
  repeat (apply lookup_union_Some_raw in H as [H|[_ H]]);
    try (by rewrite lookup_empty in H);
    unfold Converters.pick, Converters.fromIterable, Converters.valueOf in H;
    apply lookup_singleton_Some in H as [<- <-];
    unfold the_converter, Converters.pick, Converters.fromIterable, Converters.valueOf.
  - right. right. by rewrite lookup_singleton_eq.
  - right. left. exists Builtin.Set_. by rewrite lookup_singleton_eq.
  - right. left. exists Builtin.Map. by rewrite lookup_singleton_eq.
  - left. exists Builtin.Number. by rewrite lookup_singleton_eq.
  - left. exists Builtin.String. by rewrite lookup_singleton_eq.
  - left. exists Builtin.Boolean. by rewrite lookup_singleton_eq.
  - left. exists Builtin.Date. by rewrite lookup_singleton_eq.
Qed.

Lemma default_tame : tame ConvertersDefault.default defaultOptions default_weight.
Proof.
  split.
  - apply default_weight_positive.
  - intros h [] Hv; done.
  - intros h [] state fresh Hv H; try done. simpl in H. simplify_eq.
    split; [done|]. by intros [].
  - intros h [| | | | |[]| |] Hv; done.
  - intros h [| | | | |[]| |] state fresh Hv H; try done; simpl in H; by simplify_eq.
  - intros name converter h l Hc.
    destruct (default_registry_cases _ _ Hc) as [[C ->]|[[C ->]| ->]];
      unfold the_converter, Converters.valueOf, Converters.fromIterable, Converters.pick;
      rewrite lookup_singleton_eq; simpl.
    + unfold valueOf_method. by destruct (h !! l).
    + destruct (h !! l) as [o|]; [|done]. by destruct (internal o) as [| |[]| |].
    + unfold get. by destruct (h !! l).
  - intros name converter h l o state fresh Hc Ho Hinst Hfrom.
    rewrite (default_weight_instance _ _ Hinst).
    destruct (default_registry_cases _ _ Hc) as [[C ->]|[[C ->]| ->]];
      unfold the_converter, Converters.valueOf, Converters.fromIterable, Converters.pick
        in Hfrom;
      rewrite lookup_singleton_eq in Hfrom; simpl in Hfrom.
    + unfold valueOf_method in Hfrom. rewrite Ho in Hfrom. simpl in Hfrom.
      simplify_eq. simpl. destruct (internal o); lia.
    + rewrite Ho in Hfrom. destruct Hinst as (Harr & _).
      unfold isArray in Harr.
      destruct (internal o) as [| |[]| |] eqn:Hi; try done; simpl in Hfrom; simplify_eq;
        rewrite ?sum_list_with_app; simpl; rewrite ?sum_entry_arrays; lia.
    + unfold get in Hfrom. rewrite Ho in Hfrom. simpl in Hfrom. simplify_eq.
      unfold sum_list_with. rewrite !default_weight_object_set; try done.
      destruct (internal o); lia.
Qed.

(** ** C3: cycles *)

Lemma assoc_get_rename φ key (kvs : list (string * value)) :
  assoc_get key ((λ kv, (kv.1, rename_value φ kv.2)) <$> kvs)
  = rename_value φ <$> assoc_get key kvs.
Proof.
  induction kvs as [|[k v] kvs IH]; [done|].
  rewrite fmap_cons. simpl. by case_decide.
Qed.

Lemma object_get_rename φ o key :
  object_get (rename_object φ o) key = rename_value φ (object_get o key).
Proof.
  unfold object_get, rename_object. simpl.
  assert (default VUndefined
            (assoc_get key ((λ kv, (kv.1, rename_value φ kv.2)) <$> props o))
          = rename_value φ (default VUndefined (assoc_get key (props o)))) as Hprops.
  { rewrite assoc_get_rename. by destruct (assoc_get key (props o)). }
  destruct (internal o) as [|elems| | |]; try done.
  rewrite length_fmap. destruct (index_of key (length elems)) as [i|].
  - rewrite list_lookup_fmap. by destruct (elems !! i).
  - by case_decide.
Qed.

(** The clone of a plain object that holds itself under [self] holds itself
    under [self], and is a new object. *)
Lemma clone_self_cycle converters options h l o fuel :
  plain_heap h → h !! l = Some o → object_get o "self" = VObj l →
  noRefs options = false → length h < fuel →
  ∃ l' h',
    clone converters options fuel h (VObj l) = Ok (VObj l', h')
    ∧ l' ≠ l
    ∧ get h' (VObj l') "self" = Ok (VObj l').
Proof.
  intros Hplain Ho Hself HnoRefs Hfuel.
  pose proof (lookup_lt_Some _ _ _ Ho) as Hl.
  destruct (clone_plain_data converters options h (VObj l) fuel)
    as (r & h' & φ & Hclone & _ & -> & Hcopy & _); try done.
  { simpl. by apply bool_decide_eq_true. }
  destruct (Hcopy l) as (Hfresh & o' & Ho' & Himage).
  { exists []. constructor. }
  assert (o' = o) as -> by congruence.
  exists (φ l), h'. split_and!; [done|lia|].
  unfold get. rewrite Himage. by rewrite object_get_rename, Hself.
Qed.

(** C3: [normalize] returns on every heap and input, also a cyclic one, once
    the fuel exceeds twice the weight of the heap, for every registry and
    options whose converters are tame.  A composite that is not in the
    identity map is recorded there at its path before its elements, its
    properties or its extracted state are walked; the map only grows; and a
    composite that is in the map is answered with the reference to its
    recorded path, in one step and with the state unchanged.  The clone of a
    plain object [o] with [o.self = o] is a new object that holds itself
    under [self].

    The last part of C3 fails on the code when the references to [o] meet
    typed instances: for [o.m = new Map([[1, o]])] the reference into the
    [Map] is applied after the [Map] was built and [clone] throws; and for
    an instance [o] of a registered class the loop of [denormalize] returns
    at the conversion of the root, before the reference to it is applied,
    and [clone(o).self] is [null]. *)
Theorem cycles_terminate_typed_cycles_break :
  (∀ converters options w h input fuel,
     tame converters options w →
     2 * potential w h ∅ + 2 ≤ fuel →
     terminates (normalize converters options fuel h input))
  ∧ (∀ converters options fuel l o elems path h d,
       d !! l = None → h !! l = Some o → internal o = ArrayData elems →
       ser converters options (S fuel) (VObj l) path h d =
         '(items, st) ← ser_elems (ser converters options fuel) path elems 0 h
                          (<[l:=path]> d);
         Ok (SArr items, st))
  ∧ (∀ converters options fuel l o c path h d,
       d !! l = None → h !! l = Some o → isArray o = false →
       ctor o = Some c → class_name c = "Object" →
       ser converters options (S fuel) (VObj l) path h d =
         '(obj, st) ← ser_props (ser converters options fuel) path (own_enumerable o) []
                        h (<[l:=path]> d);
         Ok (SObj obj, st))
  ∧ (∀ converters options fuel l o c converter path h d,
       d !! l = None → h !! l = Some o → isArray o = false →
       ctor o = Some c → class_name c ≠ "Object" →
       converters !! class_name c = Some converter →
       ser converters options (S fuel) (VObj l) path h d =
         '(state, h1) ← call (from converter) h (VObj l);
         '(r, st) ← ser converters options fuel state path h1 (<[l:=path]> d);
         Ok (SProto (class_name c) r, st))
  ∧ (∀ converters options fuel, extending (ser converters options fuel))
  ∧ (∀ converters options fuel l ref path h d,
       noRefs options = false → d !! l = Some ref →
       ser converters options (S fuel) (VObj l) path h d = Ok (SRef ref, (h, d)))
  ∧ (∀ converters options h l o fuel,
       plain_heap h → h !! l = Some o → object_get o "self" = VObj l →
       noRefs options = false → length h < fuel →
       ∃ l' h',
         clone converters options fuel h (VObj l) = Ok (VObj l', h')
         ∧ l' ≠ l
         ∧ get h' (VObj l') "self" = Ok (VObj l'))
  ∧ clone ConvertersDefault.default defaultOptions 10 example_self_with_map (VObj 0)
      = Err TypeError
  ∧ (∃ r h1,
       clone (Converters.allProps Test) defaultOptions 4 example_self_instance (VObj 0)
         = Ok (r, h1)
       ∧ get h1 r "self" = Ok VNull).
Proof.
  split_and!.
  - intros converters options w h input fuel Htame Hfuel.
    by eapply normalize_terminates.
  - intros. by eapply ser_array.
  - intros. by eapply ser_Object.
  - intros. by eapply ser_custom.
  - intros. apply ser_extending.
  - intros converters options fuel l ref path h d HnoRefs Hd.
    rewrite (ser_revisit _ _ _ _ _ _ _ _ Hd). by rewrite HnoRefs.
  - intros. by eapply clone_self_cycle.
  - vm_compute. reflexivity.
  - eexists _, _. split; vm_compute; reflexivity.
Qed.

Lemma cycles_terminate_typed_cycles_break_witness :
  terminates (normalize ConvertersDefault.default defaultOptions 10
                example_self_with_map (VObj 0))
  ∧ ser ConvertersDefault.default defaultOptions 1 (VObj 0) ["self"] example_cycle
      {[ 0 := [] ]} = Ok (SRef [], (example_cycle, {[ 0 := [] ]}))
  ∧ ∃ l' h',
      clone ConvertersDefault.default defaultOptions 2 example_cycle (VObj 0)
        = Ok (VObj l', h')
      ∧ l' ≠ 0
      ∧ get h' (VObj l') "self" = Ok (VObj l').
Proof.
  pose proof cycles_terminate_typed_cycles_break
    as (Hterm & _ & _ & _ & _ & Hrevisit & Hself & _).
  split_and!.
  - apply (Hterm _ _ default_weight); [apply default_tame|].
    vm_compute. lia.
  - apply Hrevisit; reflexivity.
  - apply (Hself _ _ example_cycle 0 (plain [("self", VObj 0)]));
      try reflexivity. simpl. lia.
Defined.

(** * Further properties of the library *)

(** ** [Arr] *)

(** X1. An array is its [init] followed by its [last], and its [first]
    followed by its [tail]; [last] and [first] are undefined exactly on the
    empty array, where [init] and [tail] are empty. *)
Theorem Arr_init_last_first_tail {E} (arr : list E) :
  Arr.init arr ++ option_list (Arr.last arr) = arr
  ∧ option_list (Arr.first arr) ++ Arr.tail arr = arr
  ∧ (Arr.last arr = None ↔ arr = [])
  ∧ (Arr.first arr = None ↔ arr = [])
  ∧ length (Arr.init arr) = length arr - 1
  ∧ length (Arr.tail arr) = length arr - 1.
Proof.
  unfold Arr.init, Arr.last, Arr.first, Arr.tail. split_and!.
  - destruct (decide (arr = [])) as [->|Hne]; [done|].
    destruct (snoc_of_nonempty _ Hne) as (q & s & ->).
    rewrite length_app. simpl.
    replace (length q + 1 - 1) with (length q) by lia.
    rewrite take_app_length, lookup_app_r, Nat.sub_diag by lia. done.
  - by destruct arr.
  - destruct arr as [|x arr]; [done|]. split; [|done].
    intros H. apply lookup_ge_None in H. simpl in H. lia.
  - by destruct arr.
  - rewrite length_take. lia.
  - rewrite length_drop. lia.
Qed.

(** ** [Path.find] and [Path.copyProperty] *)

Lemma find_undefined h path : Path.find h VUndefined path = Ok VUndefined.
Proof. by destruct path. Qed.

(** X2. Following a path that is the concatenation of two paths is following
    the first and then, from where it leads, the second. *)
Theorem find_app h root p q :
  Path.find h root (p ++ q) = r ← Path.find h root p; Path.find h r q.
Proof.
  revert root. induction p as [|s p IH]; intros root; [done|].
  simpl. case_decide as Hroot.
  - simpl. by rewrite find_undefined.
  - destruct (get h root s) as [v| |]; simpl; [apply IH|done|done].
Qed.








(** X5. When the parent of the target path is not an object, as when the
    path runs through a property that is missing or still [null],
    [copyProperty] throws a [TypeError] and nothing is written. *)
Theorem copyProperty_needs_object h root source target item parent :
  Path.find h root source = Ok item →
  Path.find h root (Arr.init target) = Ok parent →
  (∀ l, parent ≠ VObj l) → (∀ name, parent ≠ VFun name) →
  Path.copyProperty h root source target = Err TypeError.
Proof.
  intros Hsource Hparent Hobj Hfun.
  unfold Path.copyProperty. rewrite Hsource, Hparent. simpl.
  destruct parent; try done. by destruct (Hobj l).
Qed.

Lemma copyProperty_needs_object_witness :
  Path.copyProperty example_cycle (VObj 0) ["self"] ["missing"; "0"; "1"]
  = Err TypeError.
Proof.
  apply (copyProperty_needs_object example_cycle (VObj 0) ["self"]
           ["missing"; "0"; "1"] (VObj 0) VUndefined); try reflexivity; done.
Defined.

(** ** The default function and symbol converters *)

(** X6. With the default function converter the clone of a function is not
    a function: it is the string [[function name]] made of the name of the
    function, whatever the registry holds, and nothing is allocated. *)
Theorem clone_of_function converters h name fuel :
  clone converters defaultOptions (S (S fuel)) h (VFun name)
  = Ok (VStr ("[function " +:+ name +:+ "]"), h).
Proof.
  unfold clone, normalize, denormalize. simpl. by rewrite !app_nil_r.
Qed.

(** X7. With the default symbol converter the clone of a symbol of the
    global registry is that symbol; the clone of any other symbol is not the
    symbol itself but the global symbol whose key is its description. *)
Theorem clone_of_symbol converters h fuel :
  (∀ key,
     clone converters defaultOptions (S fuel) h (VSym (GlobalSymbol key))
     = Ok (VSym (GlobalSymbol key), h))
  ∧ (∀ id description,
     clone converters defaultOptions (S fuel) h (VSym (LocalSymbol id description))
     = Ok (VSym (GlobalSymbol description), h)).
Proof.
  split; intros; unfold clone, normalize, denormalize; simpl; by rewrite !app_nil_r.
Qed.

(** ** The default registry *)

Lemma default_lookup_Date :
  ConvertersDefault.default !! "Date"
  = Some (the_converter (Converters.valueOf Builtin.Date) "Date").
Proof. reflexivity. Qed.

Lemma default_lookup_Boolean :
  ConvertersDefault.default !! "Boolean"
  = Some (the_converter (Converters.valueOf Builtin.Boolean) "Boolean").
Proof. reflexivity. Qed.

Lemma default_lookup_String :
  ConvertersDefault.default !! "String"
  = Some (the_converter (Converters.valueOf Builtin.String) "String").
Proof. reflexivity. Qed.

Lemma default_lookup_Number :
  ConvertersDefault.default !! "Number"
  = Some (the_converter (Converters.valueOf Builtin.Number) "Number").
Proof. reflexivity. Qed.

Lemma default_lookup_Map :
  ConvertersDefault.default !! "Map"
  = Some (the_converter (Converters.fromIterable Builtin.Map) "Map").
Proof. reflexivity. Qed.

Lemma default_lookup_Set :
  ConvertersDefault.default !! "Set"
  = Some (the_converter (Converters.fromIterable Builtin.Set_) "Set").
Proof. reflexivity. Qed.

Lemma default_lookup_Error :
  ConvertersDefault.default !! "Error"
  = Some (the_converter (Converters.pick Builtin.Error ["name"; "message"]) "Error").
Proof. reflexivity. Qed.

Lemma bind_ret {A B} (a : A) (f : A → res B) : Ok a ≫= f = f a.
Proof. done. Qed.

Lemma ser_primitive converters options fuel v path h d :
  is_primitive v = true →
  ser converters options (S fuel) v path h d = Ok (SVal v, (h, d)).
Proof. by destruct v. Qed.

Lemma isArray_PrimitiveValue o v : internal o = PrimitiveValue v → isArray o = false.
Proof. unfold isArray. by intros ->. Qed.

(** An instance that [Converters.valueOf] handles and whose [valueOf] is a
    primitive is cloned by calling the constructor on the primitive. *)
Lemma clone_valueOf converters options h l o constructor v fuel :
  converters !! class_name (class constructor)
    = Some (the_converter (Converters.valueOf constructor)
              (class_name (class constructor))) →
  h !! l = Some o → ctor o = Some (class constructor) →
  class_name (class constructor) ≠ "Object" →
  internal o = PrimitiveValue v → is_primitive v = true →
  clone converters options (S (S fuel)) h (VObj l)
  = call (λ h value, new constructor h [value]) h v.
Proof.
  intros Hc Ho Hctor Hname Hi Hv.
  set (converter := the_converter (Converters.valueOf constructor)
                      (class_name (class constructor))) in *.
  assert (call (from converter) h (VObj l) = Ok (v, h)) as Hfrom.
  { unfold converter, the_converter, Converters.valueOf.
    rewrite lookup_singleton_eq. unfold call. simpl.
    by rewrite Ho; simpl; rewrite Hi, app_nil_r. }
  assert (to converter = λ h value, new constructor h [value]) as Hto.
  { unfold converter, the_converter, Converters.valueOf.
    by rewrite lookup_singleton_eq. }
  unfold clone, normalize.
  erewrite ser_custom; eauto using isArray_PrimitiveValue.
  rewrite Hfrom, bind_ret. cbv beta iota.
  rewrite ser_primitive, !bind_ret by done. cbv beta iota.
  unfold denormalize. simpl. by rewrite Hc, Hto.
Qed.

(** X8. The default engine clones a wrapper object of the language, a
    [Number], a [String], a [Boolean] or a [Date], into a new object of the
    same class that holds the same primitive; own properties added to the
    wrapper are not copied. *)
Theorem clone_of_wrapper h l o constructor v fuel :
  h !! l = Some o → ctor o = Some (class constructor) →
  internal o = PrimitiveValue v → wrapper constructor v →
  clone ConvertersDefault.default defaultOptions (S (S fuel)) h (VObj l)
  = Ok (VObj (length h),
        h ++ [Object (Some (class constructor)) [] (PrimitiveValue v)]).
Proof.
  intros Ho Hctor Hi Hw.
  destruct v; try done; simpl in Hw.
  - subst constructor.
    by rewrite (clone_valueOf _ _ _ _ _ Builtin.Boolean (VBool b) _
                  default_lookup_Boolean Ho Hctor); [destruct b|..].
  - destruct Hw as [->| ->].
    + by rewrite (clone_valueOf _ _ _ _ _ Builtin.Number (VNum n) _
                    default_lookup_Number Ho Hctor).
    + by rewrite (clone_valueOf _ _ _ _ _ Builtin.Date (VNum n) _
                    default_lookup_Date Ho Hctor).
  - subst constructor.
    by rewrite (clone_valueOf _ _ _ _ _ Builtin.String (VStr s) _
                  default_lookup_String Ho Hctor).
Qed.

Lemma clone_of_wrapper_witness :
  clone ConvertersDefault.default defaultOptions 2
    [Object (Some DateClass) [("note", VStr "x")] (PrimitiveValue (VNum (Fin 836438400000)))]
    (VObj 0)
  = Ok (VObj 1,
        [Object (Some DateClass) [("note", VStr "x")] (PrimitiveValue (VNum (Fin 836438400000)))]
        ++ [Object (Some DateClass) [] (PrimitiveValue (VNum (Fin 836438400000)))]).
Proof.
  apply (clone_of_wrapper
           [Object (Some DateClass) [("note", VStr "x")]
              (PrimitiveValue (VNum (Fin 836438400000)))]
           0 (Object (Some DateClass) [("note", VStr "x")]
                (PrimitiveValue (VNum (Fin 836438400000))))
           Builtin.Date (VNum (Fin 836438400000)) 0); try reflexivity.
  simpl. by right.
Defined.

(** ** [Converters.fromIterable]: sets and maps of primitives *)

Lemma ser_elems_primitives converters options fuel path elems index h d :
  forallb is_primitive elems = true →
  ser_elems (ser converters options (S fuel)) path elems index h d
  = Ok (SVal <$> elems, (h, d)).
Proof.
  revert index. induction elems as [|v elems IH]; intros index Hp; [done|].
  apply andb_prop in Hp as [Hv Hp].
  rewrite fmap_cons.
  change (ser_elems ?f path (v :: elems) index h d)
    with ('(r, (h, dict)) ← f v (path ++ [String_ index]) h d;
          '(rs, st) ← ser_elems f path elems (S index) h dict;
          Ok (r :: rs, st)).
  rewrite ser_primitive, bind_ret by done. cbv beta iota.
  by rewrite IH, bind_ret.
Qed.

Lemma des_arr_values options path vals index h actions :
  des_arr options path (SVal <$> vals) index h actions = Ok (vals, (h, actions)).
Proof.
  revert index. induction vals as [|v vals IH]; intros index; [done|].
  rewrite fmap_cons.
  change (des_arr options path (SVal v :: (SVal <$> vals)) index h actions)
    with ('(vs, st) ← des_arr options path (SVal <$> vals) (S index) h actions;
          Ok (v :: vs, st)).
  by rewrite IH.
Qed.

Lemma foldl_set_add acc elems :
  NoDup (acc ++ elems) → foldl Builtin.set_add acc elems = acc ++ elems.
Proof.
  revert acc. induction elems as [|v elems IH]; intros acc Hnd.
  - by rewrite app_nil_r.
  - simpl. unfold Builtin.set_add at 2.
    rewrite decide_False.
    + rewrite IH; rewrite <- app_assoc; done.
    + apply NoDup_app in Hnd as (_ & Hdisj & _).
      intros Hin. apply (Hdisj _ Hin). left.
Qed.

(** X9. The default engine clones a [Set] whose members are primitives into
    a new [Set] with the same members in the same order; the two arrays the
    converter and the first pass built on the way stay behind. *)
Theorem clone_of_Set h l o elems fuel :
  h !! l = Some o → ctor o = Some SetClass → internal o = SetData elems →
  forallb is_primitive elems = true → NoDup elems →
  clone ConvertersDefault.default defaultOptions (S (S (S fuel))) h (VObj l)
  = Ok (VObj (length h + 2),
        h ++ [array elems; array elems; Object (Some SetClass) [] (SetData elems)]).
Proof.
  intros Ho Hctor Hi Hprim Hnd.
  pose proof (lookup_lt_Some _ _ _ Ho) as Hl.
  set (converter := the_converter (Converters.fromIterable Builtin.Set_) "Set").
  assert (call (from converter) h (VObj l)
          = Ok (VObj (length h), h ++ [array elems])) as Hfrom.
  { unfold converter, the_converter, Converters.fromIterable.
    rewrite lookup_singleton_eq. unfold call. simpl.
    rewrite Ho. simpl. rewrite Hi. simpl. by rewrite Nat.add_0_r. }
  assert (∀ h2, h2 !! (length h + 1) = Some (array elems) →
            call (to converter) h2 (VObj (length h + 1))
            = Ok (VObj (length h2),
                  h2 ++ [Object (Some SetClass) [] (SetData elems)])) as Hto.
  { intros h2 Hh2. unfold converter, the_converter, Converters.fromIterable.
    rewrite lookup_singleton_eq. unfold call, new. simpl.
    rewrite Hh2. simpl. by rewrite (foldl_set_add []). }
  unfold clone, normalize.
  erewrite ser_custom; [|done|done|unfold isArray; by rewrite Hi|done|done
                        |apply default_lookup_Set].
  fold converter. rewrite Hfrom, bind_ret. cbv beta iota.
  erewrite ser_array; [| |by apply list_lookup_middle|reflexivity].
  2: { rewrite lookup_insert_ne by lia. apply lookup_empty. }
  rewrite ser_elems_primitives, !bind_ret by done. cbv beta iota.
  unfold denormalize.
  change (des defaultOptions (SProto ?p ?s) [] ?h0 [])
    with (des defaultOptions s [] h0 ([] ++ [ConversionFixup p []])).
  rewrite des_SArr, des_arr_values, !bind_ret. cbv beta iota.
  simpl. rewrite default_lookup_Set. fold converter.
  rewrite length_app. simpl.
  rewrite Hto.
  - rewrite !length_app. simpl. rewrite <- !app_assoc. simpl.
    do 3 f_equal. lia.
  - rewrite lookup_app_r; rewrite length_app; simpl; [|lia].
    by replace (length h + 1 - (length h + 1)) with 0 by lia.
Qed.

Lemma clone_of_Set_witness :
  clone ConvertersDefault.default defaultOptions 3
    [Object (Some SetClass) [] (SetData [VUndefined; VBool false; VStr ""])] (VObj 0)
  = Ok (VObj 3,
        [Object (Some SetClass) [] (SetData [VUndefined; VBool false; VStr ""])]
        ++ [array [VUndefined; VBool false; VStr ""];
            array [VUndefined; VBool false; VStr ""];
            Object (Some SetClass) [] (SetData [VUndefined; VBool false; VStr ""])]).
Proof.
  apply (clone_of_Set
           [Object (Some SetClass) [] (SetData [VUndefined; VBool false; VStr ""])]
           0 (Object (Some SetClass) [] (SetData [VUndefined; VBool false; VStr ""]))
           [VUndefined; VBool false; VStr ""] 0); try reflexivity.
  apply (bool_decide_unpack (NoDup [VUndefined; VBool false; VStr ""])).
  reflexivity.
Defined.

Lemma imap_locs {A} b (l : list A) :
  imap (λ i _, VObj (b + i)) l = VObj <$> seq b (length l).
Proof.
  revert b. induction l as [|x l IH]; intros b; [done|].
  simpl. rewrite Nat.add_0_r. f_equal.
  rewrite <- IH. apply imap_ext. intros i y _. simpl. f_equal. lia.
Qed.

Lemma ser_elems_cons f path elem rest index h d :
  ser_elems f path (elem :: rest) index h d
  = '(r, (h, dict)) ← f elem (path ++ [String_ index]) h d;
    '(rs, st) ← ser_elems f path rest (S index) h dict;
    Ok (r :: rs, st).
Proof. done. Qed.

Lemma ser_elems_entries converters options fuel path (es : list (value * value)) :
  ∀ b index H d,
    (∀ i e, es !! i = Some e → H !! (b + i) = Some (array [e.1; e.2])) →
    forallb (λ e, is_primitive e.1 && is_primitive e.2) es = true →
    (∀ x, b ≤ x < b + length es → d !! x = None) →
    ∃ d',
      ser_elems (ser converters options (S (S fuel))) path
        (VObj <$> seq b (length es)) index H d
      = Ok ((λ e, SArr [SVal e.1; SVal e.2]) <$> es, (H, d')).
Proof.
  induction es as [|e es IH]; intros b index H d Hes Hprim Hd.
  - by eexists.
  - simpl in Hprim. apply andb_prop in Hprim as [He Hprim].
    apply andb_prop in He as [Hk Hv].
    assert (∀ i e', es !! i = Some e' → H !! (S b + i) = Some (array [e'.1; e'.2]))
      as Hes'.
    { intros i e' Hi. replace (S b + i) with (b + S i) by lia. by apply Hes. }
    assert (∀ x, S b ≤ x < S b + length es →
              <[b := path ++ [String_ index]]> d !! x = None) as Hd'.
    { intros x Hx. rewrite lookup_insert_ne by lia. apply Hd. simpl. lia. }
    destruct (IH (S b) (S index) H _ Hes' Hprim Hd') as [d' Hrest].
    exists d'. simpl length. rewrite <- cons_seq, !fmap_cons, ser_elems_cons.
    rewrite (ser_array _ _ _ b (array [e.1; e.2]) [e.1; e.2]);
      [|apply Hd; simpl; lia| |done].
    2: { specialize (Hes 0 e eq_refl). by rewrite Nat.add_0_r in Hes. }
    rewrite ser_elems_primitives by (simpl; by rewrite Hk, Hv).
    rewrite !bind_ret. cbv beta iota. rewrite Hrest. done.
Qed.

Lemma des_arr_entries options path (es : list (value * value)) :
  ∀ index H actions,
    des_arr options path ((λ e, SArr [SVal e.1; SVal e.2]) <$> es) index H actions
    = Ok (VObj <$> seq (length H) (length es),
          (H ++ ((λ e, array [e.1; e.2]) <$> es), actions)).
Proof.
  induction es as [|e es IH]; intros index H actions.
  - simpl. by rewrite app_nil_r.
  - rewrite !fmap_cons.
    change (des_arr options path (?t :: ?ts) index H actions)
      with ('(v, (h, actions)) ← des options t (path ++ [String_ index]) H actions;
            '(vs, st) ← des_arr options path ts (S index) h actions;
            Ok (v :: vs, st)).
    change [SVal e.1; SVal e.2] with (SVal <$> [e.1; e.2]).
    rewrite des_SArr, des_arr_values, !bind_ret. cbv beta iota.
    rewrite IH, bind_ret. cbv beta iota.
    rewrite length_app. simpl length.
    rewrite <- app_assoc. simpl.
    by replace (length H + 1) with (S (length H)) by lia.
Qed.

Lemma map_set_fresh data k v :
  k ∉ data.*1 → Builtin.map_set data k v = data ++ [(k, v)].
Proof.
  induction data as [|[k' v'] data IH]; intros Hk; [done|].
  rewrite fmap_cons in Hk. apply not_elem_of_cons in Hk as [Hne Hk].
  simpl. rewrite decide_False by done. by rewrite IH.
Qed.

Lemma Map_entries H (es : list (value * value)) :
  ∀ acc b,
    (∀ i e, es !! i = Some e → H !! (b + i) = Some (array [e.1; e.2])) →
    NoDup (acc ++ es).*1 →
    foldl (λ acc entry,
             data ← acc;
             match entry with
             | VObj _ =>
                 k ← get (H ++ []) entry "0";
                 v ← get (H ++ []) entry "1";
                 Ok (Builtin.map_set data k v)
             | _ => Err TypeError
             end) (Ok acc) (VObj <$> seq b (length es))
    = Ok (acc ++ es).
Proof.
  set (step := λ (acc : res (list (value * value))) (entry : value),
         data ← acc;
         match entry with
         | VObj _ =>
             k ← get (H ++ []) entry "0";
             v ← get (H ++ []) entry "1";
             Ok (Builtin.map_set data k v)
         | _ => Err TypeError
         end).
  induction es as [|[k v] es IH]; intros acc b Hes Hnd.
  - simpl. by rewrite (app_nil_r acc).
  - simpl length. rewrite <- cons_seq, fmap_cons.
    change (foldl step (Ok acc) (?x :: ?rest)) with (foldl step (step (Ok acc) x) rest).
    pose proof (Hes 0 (k, v) eq_refl) as Hb. rewrite Nat.add_0_r in Hb.
    assert (step (Ok acc) (VObj b) = Ok (acc ++ [(k, v)])) as ->.
    { unfold step. rewrite bind_ret, (app_nil_r H).
      change "0" with (String_ 0). change "1" with (String_ 1).
      rewrite !(get_array _ _ _ _ Hb) by (simpl; lia). simpl.
      rewrite map_set_fresh; [done|].
      rewrite fmap_app, fmap_cons in Hnd.
      apply NoDup_app in Hnd as (_ & Hdisj & _).
      intros Hin. apply (Hdisj _ Hin). left. }
    rewrite IH.
    + by rewrite <- app_assoc.
    + intros i e Hi. replace (S b + i) with (b + S i) by lia. by apply Hes.
    + by rewrite <- app_assoc.
Qed.

(** X10. The default engine clones a [Map] whose keys and values are
    primitives into a new [Map] with the same entries in the same order, and
    leaves the objects of the input as they were. *)
Theorem clone_of_Map h l o entries fuel :
  h !! l = Some o → ctor o = Some MapClass → internal o = MapData entries →
  forallb (λ e, is_primitive e.1 && is_primitive e.2) entries = true →
  NoDup entries.*1 →
  ∃ h',
    clone ConvertersDefault.default defaultOptions (S (S (S (S fuel)))) h (VObj l)
    = Ok (VObj (length h + 2 * length entries + 2), h')
    ∧ h' !! (length h + 2 * length entries + 2)
      = Some (Object (Some MapClass) [] (MapData entries))
    ∧ h `prefix_of` h'.
Proof.
  intros Ho Hctor Hi Hprim Hnd.
  pose proof (lookup_lt_Some _ _ _ Ho) as Hl.
  set (n := length entries).
  set (E := (λ e : value * value, array [e.1; e.2]) <$> entries).
  assert (length E = n) as HE by apply length_fmap.
  assert (∀ i e, entries !! i = Some e → E !! i = Some (array [e.1; e.2])) as HEi.
  { intros i e Hie. unfold E. by rewrite list_lookup_fmap, Hie. }
  set (converter := the_converter (Converters.fromIterable Builtin.Map) "Map").
  set (h1 := h ++ E ++ [array (VObj <$> seq (length h) n)]).
  assert (call (from converter) h (VObj l) = Ok (VObj (length h + n), h1)) as Hfrom.
  { unfold converter, the_converter, Converters.fromIterable.
    rewrite lookup_singleton_eq. unfold call. simpl.
    rewrite Ho. simpl. rewrite Hi. simpl.
    fold E. by rewrite HE, imap_locs. }
  assert (∀ h2 r b,
            h2 !! r = Some (array (VObj <$> seq b n)) →
            (∀ i e, entries !! i = Some e → h2 !! (b + i) = Some (array [e.1; e.2])) →
            call (to converter) h2 (VObj r)
            = Ok (VObj (length h2),
                  h2 ++ [Object (Some MapClass) [] (MapData entries)])) as Hto.
  { intros h2 r b Hr Hes. unfold converter, the_converter, Converters.fromIterable.
    rewrite lookup_singleton_eq. unfold call, new. simpl.
    rewrite Hr. simpl.
    unfold n. by rewrite (Map_entries h2 entries [] b Hes Hnd). }
  assert (length h1 = length h + n + 1) as Hh1.
  { unfold h1. rewrite !length_app, HE. simpl. lia. }
  destruct (ser_elems_entries ConvertersDefault.default defaultOptions fuel []
              entries (length h) 0 h1 (<[length h + n := []]> (<[l := []]> ∅)))
    as [d' Hser]; [|done| |].
  { intros i e Hie. unfold h1.
    pose proof (lookup_lt_Some _ _ _ Hie).
    rewrite lookup_app_r, lookup_app_l by (rewrite ?HE; fold n; lia).
    replace (length h + i - length h) with i by lia. by apply HEi. }
  { intros x Hx. fold n in Hx. rewrite !lookup_insert_ne by lia. apply lookup_empty. }
  eexists. split_and!.
  - unfold clone, normalize.
    erewrite ser_custom; [|done|done|unfold isArray; by rewrite Hi|done|done
                          |apply default_lookup_Map].
    fold converter. rewrite Hfrom, bind_ret. cbv beta iota.
    rewrite (ser_array _ _ _ (length h + n) (array (VObj <$> seq (length h) n))
               (VObj <$> seq (length h) n)); [| | |done].
    2: { rewrite lookup_insert_ne by lia. apply lookup_empty. }
    2: { unfold h1. rewrite lookup_app_r, lookup_app_r by (rewrite ?HE; lia).
         rewrite HE. by replace (length h + n - length h - n) with 0 by lia. }
    fold n in Hser. rewrite Hser, !bind_ret. cbv beta iota.
    unfold denormalize.
    change (des defaultOptions (SProto ?p ?s) [] ?h0 [])
      with (des defaultOptions s [] h0 ([] ++ [ConversionFixup p []])).
    rewrite des_SArr, des_arr_entries, !bind_ret. cbv beta iota.
    simpl. rewrite default_lookup_Map. fold converter. fold E. fold n.
    rewrite (Hto _ _ (length h1)).
    + rewrite !length_app, HE, Hh1. simpl.
      do 3 f_equal. lia.
    + by rewrite list_lookup_middle.
    + intros i e Hie. pose proof (lookup_lt_Some _ _ _ Hie).
      rewrite lookup_app_l, lookup_app_r by (rewrite ?length_app, ?HE; fold n; lia).
      replace (length h1 + i - length h1) with i by lia. by apply HEi.
  - apply list_lookup_middle.
    rewrite !length_app, HE, Hh1. simpl. fold n. lia.
  - unfold h1. rewrite <- !app_assoc. by apply prefix_app_r.
Qed.

Lemma clone_of_Map_witness :
  ∃ h',
    clone ConvertersDefault.default defaultOptions 4
      [Object (Some MapClass) [] (MapData [(VNum (Fin 1), VStr "a"); (VStr "b", VNull)])]
      (VObj 0)
    = Ok (VObj (1 + 2 * 2 + 2), h')
    ∧ h' !! (1 + 2 * 2 + 2)
      = Some (Object (Some MapClass) []
                (MapData [(VNum (Fin 1), VStr "a"); (VStr "b", VNull)]))
    ∧ [Object (Some MapClass) [] (MapData [(VNum (Fin 1), VStr "a"); (VStr "b", VNull)])]
        `prefix_of` h'.
Proof.
  apply (clone_of_Map
           [Object (Some MapClass) [] (MapData [(VNum (Fin 1), VStr "a"); (VStr "b", VNull)])]
           0
           (Object (Some MapClass) [] (MapData [(VNum (Fin 1), VStr "a"); (VStr "b", VNull)]))
           [(VNum (Fin 1), VStr "a"); (VStr "b", VNull)] 0); try reflexivity.
  apply (bool_decide_unpack (NoDup [VNum (Fin 1); VStr "b"])).
  reflexivity.
Defined.

(** ** [Converters.allProps] and [Converters.pick] *)











(** ** [Converters.all] and the default registry *)

Lemma all_foldl_absent (toConverter : AnyConstructor → ConverterConfig) cs k :
  (∀ c, c ∈ cs → toConverter c !! k = None) →
  ∀ acc,
    foldl (λ result item, assign_config result (toConverter item)) acc cs !! k
    = acc !! k.
Proof.
  induction cs as [|c cs IH]; intros Hcs acc; [done|].
  simpl. rewrite IH.
  - apply assign_config_lookup_target. apply Hcs. left.
  - intros c' Hc'. apply Hcs. by right.
Qed.

Lemma last_binding (toConverter : AnyConstructor → ConverterConfig) k cs :
  (∃ c, c ∈ cs ∧ is_Some (toConverter c !! k)) →
  ∃ before c after x,
    cs = before ++ c :: after
    ∧ toConverter c !! k = Some x
    ∧ ∀ c', c' ∈ after → toConverter c' !! k = None.
Proof.
  induction cs as [|d cs IH] using rev_ind; intros (c & Hc & Hsome).
  - by apply elem_of_nil in Hc.
  - destruct (toConverter d !! k) as [x|] eqn:Hd.
    + exists cs, d, [], x. split_and!; [done|done|].
      intros c' Hc'. by apply elem_of_nil in Hc'.
    + apply elem_of_app in Hc as [Hc|Hc].
      * destruct IH as (before & c0 & after & x0 & -> & Hx0 & Hafter); [by eauto|].
        exists before, c0, (after ++ [d]), x0. split_and!.
        -- by rewrite <- app_assoc.
        -- done.
        -- intros c' [Hc'|Hc']%elem_of_app; [by apply Hafter|].
           apply list_elem_of_singleton in Hc' as ->. done.
      * apply list_elem_of_singleton in Hc as ->.
        rewrite Hd in Hsome. by destruct Hsome.
Qed.

(** X13. [Converters.all] binds a key to what the last of the listed classes
    that binds it gives, and leaves unbound exactly the keys that no listed
    class binds. *)
Theorem all_last_wins (toConverter : AnyConstructor → ConverterConfig) constructors k :
  (∀ before c after x,
     constructors = before ++ c :: after →
     toConverter c !! k = Some x →
     (∀ c', c' ∈ after → toConverter c' !! k = None) →
     Converters.all toConverter constructors !! k = Some x)
  ∧ ((∀ c, c ∈ constructors → toConverter c !! k = None) ↔
     Converters.all toConverter constructors !! k = None).
Proof.
  unfold Converters.all. split.
  - intros before c after x -> Hx Hafter.
    rewrite foldl_app. simpl.
    rewrite all_foldl_absent by done.
    by apply assign_config_lookup_source.
  - split.
    + intros Hnone. by rewrite all_foldl_absent.
    + intros Hnone c Hc.
      destruct (toConverter c !! k) as [x|] eqn:Hx; [|done].
      destruct (last_binding toConverter k constructors)
        as (before & c0 & after & x0 & -> & Hx0 & Hafter); [by eauto|].
      rewrite foldl_app in Hnone. simpl in Hnone.
      rewrite all_foldl_absent in Hnone by done.
      by rewrite (assign_config_lookup_source _ _ _ _ Hx0) in Hnone.
Qed.

Lemma default_registry_names name :
  is_Some (ConvertersDefault.default !! name)
  ↔ name ∈ ["Date"; "Boolean"; "String"; "Number"; "Map"; "Set"; "Error"].
Proof.
  rewrite <- elem_of_dom.
  unfold ConvertersDefault.default, Converters.all, assign_config,
    Converters.valueOf, Converters.fromIterable, Converters.pick.
  simpl. unfold assign_config.
  rewrite !dom_union_L, !dom_singleton_L, dom_empty_L. simpl.
  rewrite !elem_of_union, !elem_of_singleton, elem_of_empty.
  rewrite !elem_of_cons, elem_of_nil. tauto.
Qed.

(** X14. The default registry serves the classes named [Date], [Boolean],
    [String], [Number], [Map], [Set] and [Error] and no other: with it
    [normalize] returns no tree for an input from which it walks to an
    instance of a class of any other name than these and [Object]. *)
Theorem default_engine_classes name :
  (is_Some (ConvertersDefault.default !! name)
   ↔ name ∈ ["Date"; "Boolean"; "String"; "Number"; "Map"; "Set"; "Error"])
  ∧ ∀ options fuel h v p l o cl,
      walk h v p (VObj l) → h !! l = Some o → isArray o = false →
      ctor o = Some cl → class_name cl = name →
      name ∉ ["Object"; "Date"; "Boolean"; "String"; "Number"; "Map"; "Set"; "Error"] →
      ¬ is_Ok (normalize ConvertersDefault.default options fuel h v).
Proof.
  split; [apply default_registry_names|].
  intros options fuel h v p l o cl Hwalk Ho Harr Hctor <- Hname.
  apply not_elem_of_cons in Hname as [Hobj Hname].
  eapply normalize_unregistered; eauto.
  apply eq_None_not_Some. by rewrite default_registry_names.
Qed.

(** ** Chains of [withConverters] and [withOptions] *)

Lemma same_behaviour_intro st1 e1 st2 e2 :
  Deserted.table st1 e1 = Deserted.table st2 e2 →
  Deserted.setting st1 e1 = Deserted.setting st2 e2 →
  same_behaviour st1 e1 st2 e2.
Proof.
  intros Ht Ho fuel h input item text.
  unfold Deserted.normalize, Deserted.denormalize, Deserted.clone,
    Deserted.serialize, Deserted.deserialize.
  by rewrite Ht, Ho.
Qed.

Lemma table_new ts x os o :
  Deserted.table {| tables := ts ++ [x]; settings := os |} (Deserted.make (length ts) o)
  = Ok x.
Proof. unfold Deserted.table. simpl. by rewrite list_lookup_middle. Qed.

Lemma setting_new ts os x c :
  Deserted.setting {| tables := ts; settings := os ++ [x] |} (Deserted.make c (length os))
  = Ok x.
Proof. unfold Deserted.setting. simpl. by rewrite list_lookup_middle. Qed.

Lemma withOptions_spec st this o patch :
  Deserted.setting st this = Ok o →
  Deserted.withOptions st this patch
  = Ok (Deserted.make (converters this) (length (settings st)),
        {| tables := tables st; settings := settings st ++ [spread_options o patch] |}).
Proof. intros Ho. unfold Deserted.withOptions. by rewrite Ho. Qed.

Lemma table_keep st x this t :
  Deserted.table st this = Ok t →
  Deserted.table {| tables := tables st ++ [x]; settings := settings st |}
    (Deserted.make (converters this) (length (settings st))) = Ok t
  ∧ ∀ y c,
      Deserted.table {| tables := tables st; settings := settings st ++ [y] |}
        (Deserted.make (converters this) c) = Ok t.
Proof.
  intros Ht. apply table_valid in Ht.
  unfold Deserted.table. simpl. split; [|by intros; rewrite Ht].
  by rewrite (lookup_app_l_Some _ _ _ _ Ht).
Qed.

Lemma setting_keep st x this o :
  Deserted.setting st this = Ok o →
  Deserted.setting {| tables := tables st; settings := settings st ++ [x] |}
    (Deserted.make (length (tables st)) (options this)) = Ok o
  ∧ ∀ y c,
      Deserted.setting {| tables := tables st ++ [y]; settings := settings st |}
        (Deserted.make c (options this)) = Ok o.
Proof.
  intros Ho. apply setting_valid in Ho.
  unfold Deserted.setting. simpl. split; [|by intros; rewrite Ho].
  by rewrite (lookup_app_l_Some _ _ _ _ Ho).
Qed.

(** X15. Extending an engine by some fragments and the result by further
    fragments gives an engine with the same table and the same options, and
    so the same results on every call, as extending the engine once by all
    the fragments in that order; with no fragment at all the new engine
    behaves as the engine it came from. *)
Theorem withConverters_composes st this t fragments1 fragments2 :
  Deserted.table st this = Ok t →
  ∃ e1 st1 e2 st2 e12 st12,
    Deserted.withConverters st this fragments1 = Ok (e1, st1)
    ∧ Deserted.withConverters st1 e1 fragments2 = Ok (e2, st2)
    ∧ Deserted.withConverters st this (fragments1 ++ fragments2) = Ok (e12, st12)
    ∧ Deserted.table st2 e2 = Ok (foldl assign_config t (fragments1 ++ fragments2))
    ∧ Deserted.table st12 e12 = Ok (foldl assign_config t (fragments1 ++ fragments2))
    ∧ same_behaviour st2 e2 st12 e12
    ∧ (fragments1 = [] → same_behaviour st1 e1 st this).
Proof.
  intros Ht.
  pose proof (withConverters_spec st this t fragments1 Ht) as H1.
  pose proof (withConverters_spec st this t (fragments1 ++ fragments2) Ht) as H12.
  set (st1 := {| tables := tables st ++ [foldl assign_config t fragments1];
                 settings := settings st |}) in *.
  set (e1 := Deserted.make (length (tables st)) (options this)) in *.
  assert (Deserted.table st1 e1 = Ok (foldl assign_config t fragments1)) as Ht1
    by apply table_new.
  pose proof (withConverters_spec st1 e1 _ fragments2 Ht1) as H2.
  eexists _, _, _, _, _, _. split_and!; [exact H1|exact H2|exact H12|..].
  - rewrite <- foldl_app. apply table_new.
  - apply table_new.
  - apply same_behaviour_intro; [|done].
    rewrite <- foldl_app. etrans; [apply table_new|]. symmetry. apply table_new.
  - intros ->. apply same_behaviour_intro; [by rewrite Ht1|done].
Qed.

Lemma withConverters_composes_witness :
  ∃ e1 st1 e2 st2 e12 st12,
    Deserted.withConverters Deserted.initial deserted [Converters.allProps Test]
      = Ok (e1, st1)
    ∧ Deserted.withConverters st1 e1 [Converters.allProps OtherTest] = Ok (e2, st2)
    ∧ Deserted.withConverters Deserted.initial deserted
        ([Converters.allProps Test] ++ [Converters.allProps OtherTest]) = Ok (e12, st12)
    ∧ Deserted.table st2 e2
      = Ok (foldl assign_config ConvertersDefault.default
              ([Converters.allProps Test] ++ [Converters.allProps OtherTest]))
    ∧ Deserted.table st12 e12
      = Ok (foldl assign_config ConvertersDefault.default
              ([Converters.allProps Test] ++ [Converters.allProps OtherTest]))
    ∧ same_behaviour st2 e2 st12 e12
    ∧ ([Converters.allProps Test] = [] → same_behaviour st1 e1 Deserted.initial deserted).
Proof.
  apply (withConverters_composes Deserted.initial deserted ConvertersDefault.default
           [Converters.allProps Test] [Converters.allProps OtherTest]).
  reflexivity.
Defined.

(** X16. Extending an engine by fragments and then by options gives an
    engine with the same table and the same options, and so the same results
    on every call, as extending it by the options first and by the fragments
    afterwards. *)
Theorem withConverters_withOptions_commute st this t o fragments patch :
  Deserted.table st this = Ok t →
  Deserted.setting st this = Ok o →
  ∃ e1 st1 e2 st2 e1' st1' e2' st2',
    Deserted.withConverters st this fragments = Ok (e1, st1)
    ∧ Deserted.withOptions st1 e1 patch = Ok (e2, st2)
    ∧ Deserted.withOptions st this patch = Ok (e1', st1')
    ∧ Deserted.withConverters st1' e1' fragments = Ok (e2', st2')
    ∧ Deserted.table st2 e2 = Ok (foldl assign_config t fragments)
    ∧ Deserted.setting st2 e2 = Ok (spread_options o patch)
    ∧ same_behaviour st2 e2 st2' e2'.
Proof.
  intros Ht Ho.
  pose proof (withConverters_spec st this t fragments Ht) as H1.
  pose proof (withOptions_spec st this o patch Ho) as H1'.
  destruct (table_keep st (foldl assign_config t fragments) this t Ht) as [_ Hkeep].
  destruct (setting_keep st (spread_options o patch) this o Ho) as [_ Hkeep'].
  pose proof (withOptions_spec _ _ o patch (Hkeep' (foldl assign_config t fragments)
                (length (tables st)))) as H2.
  pose proof (withConverters_spec _ _ t fragments (Hkeep (spread_options o patch)
                (length (settings st)))) as H2'.
  simpl in H2, H2'.
  eexists _, _, _, _, _, _, _, _.
  split_and!; [exact H1|exact H2|exact H1'|exact H2'|..].
  - apply table_new.
  - apply setting_new.
  - apply same_behaviour_intro.
    + etrans; [apply table_new|]. symmetry. apply table_new.
    + etrans; [apply setting_new|]. symmetry. apply setting_new.
Qed.

Lemma withConverters_withOptions_commute_witness :
  ∃ e1 st1 e2 st2 e1' st1' e2' st2',
    Deserted.withConverters Deserted.initial deserted [Converters.allProps Test]
      = Ok (e1, st1)
    ∧ Deserted.withOptions st1 e1 empty_patch = Ok (e2, st2)
    ∧ Deserted.withOptions Deserted.initial deserted empty_patch = Ok (e1', st1')
    ∧ Deserted.withConverters st1' e1' [Converters.allProps Test] = Ok (e2', st2')
    ∧ Deserted.table st2 e2
      = Ok (foldl assign_config ConvertersDefault.default [Converters.allProps Test])
    ∧ Deserted.setting st2 e2 = Ok (spread_options defaultOptions empty_patch)
    ∧ same_behaviour st2 e2 st2' e2'.
Proof.
  apply (withConverters_withOptions_commute Deserted.initial deserted
           ConvertersDefault.default defaultOptions
           [Converters.allProps Test] empty_patch); reflexivity.
Defined.

Lemma spread_options_twice o first second :
  spread_options (spread_options o first) second
  = spread_options o (spread_patch first second).
Proof.
  unfold spread_options, spread_patch.
  destruct first as [[?|] [?|] [?|] [?|]], second as [[?|] [?|] [?|] [?|]]; done.
Qed.

Lemma spread_options_empty o : spread_options o empty_patch = o.
Proof. by destruct o. Qed.

(** X17. Extending an engine by options twice gives the options of
    extending it once by the second argument spread over the first: a key
    of the second overrides the first, a key of neither keeps the value of
    the engine.  So the same argument twice is as good as once, and the
    empty argument gives an engine that behaves as the one it came from. *)
Theorem withOptions_composes st this o first second :
  Deserted.setting st this = Ok o →
  ∃ e1 st1 e2 st2 e12 st12,
    Deserted.withOptions st this first = Ok (e1, st1)
    ∧ Deserted.withOptions st1 e1 second = Ok (e2, st2)
    ∧ Deserted.withOptions st this (spread_patch first second) = Ok (e12, st12)
    ∧ Deserted.setting st2 e2 = Ok (spread_options o (spread_patch first second))
    ∧ same_behaviour st2 e2 st12 e12
    ∧ (second = first → same_behaviour st2 e2 st1 e1)
    ∧ (first = empty_patch → same_behaviour st1 e1 st this).
Proof.
  intros Ho.
  pose proof (withOptions_spec st this o first Ho) as H1.
  pose proof (withOptions_spec st this o (spread_patch first second) Ho) as H12.
  pose proof (withOptions_spec _ _ _ second
                (setting_new (tables st) (settings st) (spread_options o first)
                   (converters this))) as H2.
  simpl in H2.
  assert (∀ x y,
            Deserted.table {| tables := tables st; settings := x |}
              (Deserted.make (converters this) y)
            = Deserted.table st this) as Htable by done.
  eexists _, _, _, _, _, _. split_and!; [exact H1|exact H2|exact H12|..].
  - rewrite <- spread_options_twice. apply setting_new.
  - apply same_behaviour_intro; [by rewrite !Htable|].
    etrans; [apply setting_new|]. rewrite spread_options_twice.
    symmetry. apply setting_new.
  - intros ->. apply same_behaviour_intro; [by rewrite !Htable|].
    etrans; [apply setting_new|]. rewrite spread_options_twice.
    symmetry. etrans; [apply setting_new|]. f_equal.
    unfold spread_options, spread_patch.
    by destruct first as [[?|] [?|] [?|] [?|]].
  - intros ->. apply same_behaviour_intro; [by rewrite Htable|].
    etrans; [apply setting_new|]. by rewrite spread_options_empty.
Qed.

Lemma withOptions_composes_witness :
  ∃ e1 st1 e2 st2 e12 st12,
    Deserted.withOptions Deserted.initial deserted empty_patch = Ok (e1, st1)
    ∧ Deserted.withOptions st1 e1 empty_patch = Ok (e2, st2)
    ∧ Deserted.withOptions Deserted.initial deserted (spread_patch empty_patch empty_patch)
      = Ok (e12, st12)
    ∧ Deserted.setting st2 e2
      = Ok (spread_options defaultOptions (spread_patch empty_patch empty_patch))
    ∧ same_behaviour st2 e2 st12 e12
    ∧ (empty_patch = empty_patch → same_behaviour st2 e2 st1 e1)
    ∧ (empty_patch = empty_patch → same_behaviour st1 e1 Deserted.initial deserted).
Proof.
  apply (withOptions_composes Deserted.initial deserted defaultOptions
           empty_patch empty_patch).
  reflexivity.
Defined.

(** ** Trees built under [noRefs] *)

Lemma ser_elems_refless f path elems index h d rs h' d' :
  refless f →
  ser_elems f path elems index h d = Ok (rs, (h', d')) →
  existsb has_ref rs = false.
Proof.
  intros Hf. revert index h d rs.
  induction elems as [|elem rest IH]; intros index h d rs H; simpl in H.
  - by inv_res.
  - apply bind_Ok in H as ([r [h1 d1]] & H1 & H).
    apply bind_Ok in H as ([rs' [h2 d2]] & H2 & H). inv_res.
    apply Hf in H1. apply IH in H2. by rewrite H1, H2.
Qed.

Lemma existsb_assoc_set (P : SerItem → bool) key r (acc : list (string * SerItem)) :
  P r = false → existsb (λ kx, P kx.2) acc = false →
  existsb (λ kx, P kx.2) (assoc_set key r acc) = false.
Proof.
  intros Hr. induction acc as [|[k x] acc IH]; simpl; intros Hacc.
  - by rewrite Hr.
  - apply orb_false_elim in Hacc as [Hx Hacc].
    case_decide; simpl; [by rewrite Hr, Hacc|by rewrite Hx, IH].
Qed.

Lemma ser_props_refless f path entries obj h d obj' h' d' :
  refless f →
  existsb (λ kx, has_ref kx.2) obj = false →
  ser_props f path entries obj h d = Ok (obj', (h', d')) →
  existsb (λ kx, has_ref kx.2) obj' = false.
Proof.
  intros Hf. revert obj h d.
  induction entries as [|[key v] rest IH]; intros obj h d Hobj H; simpl in H.
  - by inv_res.
  - apply bind_Ok in H as ([r [h1 d1]] & H1 & H).
    apply Hf in H1. eapply IH; [|exact H].
    by apply existsb_assoc_set.
Qed.

Lemma ser_refless converters options fuel :
  noRefs options = true → refless (ser converters options fuel).
Proof.
  intros HnoRefs.
  induction fuel as [|fuel IH]; intros v p h d r h' d' H; [done|].
  simpl in H. destruct v.
  1-5: by inv_res.
  - (* symbol *) by inv_res.
  - (* function *)
    apply bind_Ok in H as ([state h1] & Hc & H).
    apply bind_Ok in H as ([r1 [h2 d2]] & Hs & H). inv_res.
    by apply IH in Hs.
  - (* object *)
    destruct (d !! l) as [ref|] eqn:Hd.
    { by rewrite HnoRefs in H. }
    destruct (h !! l) as [o|]; [|done].
    assert (Hplain : ∀ r h' d',
      match ctor o with
      | Some constructor =>
          if decide (class_name constructor = "Object") then
            '(obj, st) ← ser_props (ser converters options fuel) p (own_enumerable o) []
                           h (<[l:=p]> d);
            Ok (SObj obj, st)
          else
            match converters !! class_name constructor with
            | Some converter =>
                '(state, h0) ← call (from converter) h (VObj l);
                '(r, st) ← ser converters options fuel state p h0 (<[l:=p]> d);
                Ok (SProto (class_name constructor) r, st)
            | None => Err UnregisteredClass
            end
      | None => Err NoConstructor
      end = Ok (r, (h', d')) → has_ref r = false).
    { clear H. intros r0 h0 d0 H.
      destruct (ctor o) as [c|]; [|done]. case_decide.
      - apply bind_Ok in H as ([obj [h1 d1]] & Hs & H). inv_res.
        by eapply ser_props_refless in Hs.
      - destruct (converters !! class_name c); [|done].
        apply bind_Ok in H as ([state h1] & Hc & H).
        apply bind_Ok in H as ([r1 [h2 d2]] & Hs & H). inv_res.
        by apply IH in Hs. }
    destruct (internal o) eqn:Hi; try by eapply Hplain, H.
    apply bind_Ok in H as ([items [h1 d1]] & Hs & H). inv_res.
    by eapply ser_elems_refless in Hs.
Qed.

(** X18. With [noRefs] set, a tree that [normalize] returns holds no
    reference item, whatever the registry and the input. *)
Theorem noRefs_tree_has_no_reference converters options fuel h input t h' :
  noRefs options = true →
  normalize converters options fuel h input = Ok (t, h') →
  has_ref t = false.
Proof.
  intros HnoRefs H. unfold normalize in H.
  apply bind_Ok in H as ([t' [h1 d1]] & Hser & H).
  injection H as <- <-.
  by eapply ser_refless.
Qed.

Lemma noRefs_tree_has_no_reference_witness :
  has_ref (SArr [SFun (SVal (VStr "f")); SFun (SVal (VStr "f"))]) = false.
Proof.
  apply (noRefs_tree_has_no_reference ∅ strictOptions 3 example_functions (VObj 0)
           _ example_functions); reflexivity.
Defined.

(** ** The default text codec *)























(** ** Conversions stacked at one path *)

Lemma des_stack options names t path h actions :
  des options (foldr SProto t names) path h actions
  = des options t path h (actions ++ ((λ name, ConversionFixup name path) <$> names)).
Proof.
  revert actions. induction names as [|name names IH]; intros actions.
  - simpl. by rewrite app_nil_r.
  - simpl foldr.
    change (des options (SProto name ?s) path h actions)
      with (des options s path h (actions ++ [ConversionFixup name path])).
    rewrite IH, fmap_cons. by rewrite <- app_assoc.
Qed.

Lemma sort_same_depth n actions :
  Forall (λ a, Action.depth a = n) actions → sort Action.compare actions = actions.
Proof.
  induction 1 as [|a actions Ha Hall IH]; [done|].
  unfold sort in *. simpl. rewrite IH.
  destruct Hall as [|b actions Hb Hall]; [done|].
  simpl. rewrite decide_True; [done|].
  unfold Action.compare. rewrite Ha, Hb. lia.
Qed.

(** X21. When the state of a typed item is itself a typed item, the
    conversions stand at one path and are applied outermost first, each on
    what is there at that moment.  At the root the loop returns at the first
    of them: the result is what the outermost converter makes of the
    innermost state, and no inner converter is looked up or called.  Under
    an index of an array the outer converter is called on the state and the
    inner converter on what the outer one returned. *)
Theorem stacked_conversions converters options h outer inners v A :
  converters !! outer = Some A →
  denormalize converters options h (SProto outer (foldr SProto (SVal v) inners))
  = call (to A) h v
  ∧ ∀ inner B x fresh1 y fresh2,
      converters !! inner = Some B →
      to A (h ++ [array [v]]) v = Ok (x, fresh1) →
      to B (h ++ [array [x]] ++ fresh1) x = Ok (y, fresh2) →
      denormalize converters options h (SArr [SProto outer (SProto inner (SVal v))])
      = Ok (VObj (length h), h ++ [array [y]] ++ fresh1 ++ fresh2).
Proof.
  intros HA. split.
  - unfold denormalize.
    change (SProto outer (foldr SProto (SVal v) inners))
      with (foldr SProto (SVal v) (outer :: inners)).
    rewrite des_stack. simpl des. rewrite bind_ret. cbv beta iota.
    rewrite (sort_same_depth 0).
    + simpl. by rewrite HA.
    + constructor; [done|]. apply Forall_fmap. by apply Forall_true.
  - intros inner B x fresh1 y fresh2 HB Hx Hy.
    assert (∀ (fresh : heap) z, (h ++ array [z] :: fresh) !! length h = Some (array [z]))
      as Hroot by (intros; apply list_lookup_middle; done).
    assert (∀ (fresh : heap) z z',
              <[length h := array [z']]> (h ++ array [z] :: fresh)
              = h ++ array [z'] :: fresh) as Hins.
    { intros. rewrite insert_app_r_alt, Nat.sub_diag by lia. done. }
    unfold denormalize. simpl des. rewrite !bind_ret. cbv beta iota.
    rewrite (sort_same_depth 1) by (repeat constructor).
    simpl. rewrite HA, HB. simpl.
    unfold Arr.last. simpl.
    change "0" with (String_ 0).
    rewrite (get_array _ _ [v] 0) by (by rewrite ?Hroot; simpl; try lia).
    simpl.
    assert (call (to A) (h ++ [array [v]]) v = Ok (x, h ++ array [v] :: fresh1)) as ->.
    { unfold call. rewrite Hx. simpl. by rewrite <- app_assoc. }
    rewrite bind_ret. cbv beta iota.
    rewrite (set_object _ _ _ _ _ (Hroot _ _)), bind_ret.
    rewrite object_set_array by (simpl; lia).
    change (<[0:=x]> [v]) with [x]. rewrite Hins.
    rewrite (get_array _ _ [x] 0) by (by rewrite ?Hroot; simpl; try lia).
    simpl. unfold call. simpl in Hy. rewrite Hy. simpl.
    rewrite <- app_assoc. simpl.
    rewrite (set_object _ _ _ _ _ (Hroot _ _)).
    rewrite object_set_array by (simpl; lia).
    change (<[0:=y]> [x]) with [y]. simpl.
    by rewrite Hins.
Qed.

Lemma stacked_conversions_witness :
  denormalize ConvertersDefault.default defaultOptions []
    (SProto "Number" (foldr SProto (SVal (VNum (Fin 0))) ["Boolean"]))
  = Ok (VObj 0, [Object (Some NumberClass) [] (PrimitiveValue (VNum (Fin 0)))])
  ∧ denormalize ConvertersDefault.default defaultOptions []
      (SArr [SProto "Number" (SProto "Boolean" (SVal (VNum (Fin 0))))])
    = Ok (VObj 0,
          [] ++ [array [VObj 2]]
          ++ [Object (Some NumberClass) [] (PrimitiveValue (VNum (Fin 0)))]
          ++ [Object (Some BooleanClass) [] (PrimitiveValue (VBool true))]).
Proof.
  destruct (stacked_conversions ConvertersDefault.default defaultOptions []
              "Number" ["Boolean"] (VNum (Fin 0)) _ default_lookup_Number)
    as [Hroot Hbelow].
  split.
  - rewrite Hroot. reflexivity.
  - apply (Hbelow "Boolean" _ (VObj 1) _ (VObj 2) _ default_lookup_Boolean);
      reflexivity.
Defined.

(** ** Trees without typed items *)

Lemma des_references options t :
  has_proto t = false →
  ∀ path h actions v h' actions',
    Forall is_reference actions →
    des options t path h actions = Ok (v, (h', actions')) →
    Forall is_reference actions'.
Proof.
  induction t as [val|ref|obj IH|fun_ IH|sym|items IH|proto state IH]
    using SerItem_ind; intros Hproto path h actions v h' actions' Hrefs H.
  - simpl in H. by inv_res.
  - simpl in H. inv_res. apply Forall_app. split; [done|]. by repeat constructor.
  - rewrite des_SObj in H.
    apply bind_Ok in H as ([h1 actions1] & Hgo & H). inv_res.
    simpl in Hproto. revert Hproto Hrefs Hgo.
    generalize (h ++ [plain []]) as h0. generalize (VObj (length h)) as result.
    revert actions.
    induction obj as [|[k x] obj IHobj]; intros actions result h0 Hproto Hrefs Hgo.
    + simpl in Hgo. by inv_res.
    + simpl in Hproto. apply orb_false_elim in Hproto as [Hx Hproto].
      apply Forall_cons in IH as [IHx IH].
      change (des_obj options result path ((k, x) :: obj) h0 actions)
        with ('(v, (h, actions)) ← des options x (path ++ [k]) h0 actions;
              h ← set h result k v;
              des_obj options result path obj h actions) in Hgo.
      apply bind_Ok in Hgo as ([v1 [h2 actions2]] & Hx1 & Hgo).
      apply bind_Ok in Hgo as (h3 & Hset & Hgo).
      eapply (IHobj IH); [done| |exact Hgo].
      eapply IHx; [done| |exact Hx1]. done.
  - simpl in H.
    apply bind_Ok in H as ([r [h1 actions1]] & Hsub & H).
    apply bind_Ok in H as ([v1 h2] & Hcall & H). inv_res.
    eapply IH; [done| |exact Hsub]. done.
  - simpl in H. apply bind_Ok in H as ([v1 h2] & Hcall & H). by inv_res.
  - rewrite des_SArr in H.
    apply bind_Ok in H as ([elems [h1 actions1]] & Hgo & H). inv_res.
    simpl in Hproto. revert Hproto Hrefs Hgo.
    generalize 0 as index. revert actions elems. generalize h as h0.
    induction items as [|x items IHitems];
      intros h0 actions elems index Hproto Hrefs Hgo.
    + simpl in Hgo. by inv_res.
    + simpl in Hproto. apply orb_false_elim in Hproto as [Hx Hproto].
      apply Forall_cons in IH as [IHx IH].
      change (des_arr options path (x :: items) index h0 actions)
        with ('(v, (h, actions)) ← des options x (path ++ [String_ index]) h0 actions;
              '(vs, st) ← des_arr options path items (S index) h actions;
              Ok (v :: vs, st)) in Hgo.
      apply bind_Ok in Hgo as ([v1 [h2 actions2]] & Hx1 & Hgo).
      apply bind_Ok in Hgo as ([vs [h3 actions3]] & Hrest & Hgo). inv_res.
      eapply (IHitems IH); [done| |exact Hrest].
      eapply IHx; [done| |exact Hx1]. done.
  - done.
Qed.

Lemma fixup_references c1 c2 actions result h :
  Forall is_reference actions →
  fixup c1 actions result h = fixup c2 actions result h.
Proof.
  intros Hrefs. revert h.
  induction Hrefs as [|[target source|] actions Ha Hrefs IH]; intros h; [done| |done].
  simpl. destruct (Path.copyProperty h result source target); simpl; [apply IH|done..].
Qed.

(** X22. The registry is not consulted for a tree without typed items: two
    engines that differ only in their registries, the empty one included,
    give the same result on it, references and all. *)
Theorem denormalize_without_registry c1 c2 options h t :
  has_proto t = false →
  denormalize c1 options h t = denormalize c2 options h t.
Proof.
  intros Hproto. unfold denormalize.
  destruct (des options t [] h []) as [[v [h' actions]]| |] eqn:Hdes; [|done..].
  simpl. apply fixup_references.
  eapply Permutation_Forall; [symmetry; apply sort_Permutation|].
  by eapply des_references.
Qed.

Lemma denormalize_without_registry_witness :
  denormalize ConvertersDefault.default defaultOptions []
    (SObj [("self", SRef [])])
  = denormalize ∅ defaultOptions [] (SObj [("self", SRef [])]).
Proof.
  apply (denormalize_without_registry ConvertersDefault.default ∅ defaultOptions []
           (SObj [("self", SRef [])])).
  reflexivity.
Defined.

(** ** Texts that are not items *)

(** X23. [deserialize] of a text that denotes an object with none of the
    keys [val], [fun], [sym], [ref], [obj] and [proto], the empty object
    included, throws the error [unknown item]; of a text that denotes
    [null], a boolean, a number or a string it throws a [TypeError], from the
    [in] test of the first pass. *)
Theorem deserialize_rejects converters h :
  (∀ fields,
     (∀ key, key ∈ ["val"; "fun"; "sym"; "ref"; "obj"; "proto"] →
        assoc_get key fields = None) →
     deserialize converters defaultOptions h (JObj fields) = Err UnknownItem)
  ∧ (∀ text,
       match text with JArr _ | JObj _ => False | _ => True end →
       deserialize converters defaultOptions h text = Err TypeError).
Proof.
  split.
  - intros fields Hkeys. unfold deserialize. simpl.
    match goal with
    | |- context [assoc_get "val" (?g fields)] => set (go := g)
    end.
    assert (∀ key, assoc_get key fields = None → assoc_get key (go fields) = None)
      as Hgo.
    { intros key. clear. induction fields as [|[k j] fields IH]; [done|].
      simpl. case_decide; [done|]. apply IH. }
    rewrite !Hgo; [done|apply Hkeys; set_solver..].
  - intros text Htext. unfold deserialize. by destruct text.
Qed.

(** ** What [noRefs] changes *)

Lemma ser_elems_agrees f1 f2 path elems index h d x :
  agrees f1 f2 →
  ser_elems f1 path elems index h d = Ok x →
  ser_elems f2 path elems index h d = Ok x.
Proof.
  intros Hf. revert index h d x.
  induction elems as [|elem rest IH]; intros index h d x H; [done|].
  rewrite ser_elems_cons in *.
  apply bind_Ok in H as ([r [h1 d1]] & H1 & H).
  apply bind_Ok in H as ([rs st] & H2 & H).
  rewrite (Hf _ _ _ _ _ H1), bind_ret. cbv beta iota.
  by rewrite (IH _ _ _ _ H2), bind_ret.
Qed.

Lemma ser_props_agrees f1 f2 path entries obj h d x :
  agrees f1 f2 →
  ser_props f1 path entries obj h d = Ok x →
  ser_props f2 path entries obj h d = Ok x.
Proof.
  intros Hf. revert obj h d x.
  induction entries as [|[key v] rest IH]; intros obj h d x H; [done|].
  change (ser_props ?f path ((key, v) :: rest) obj h d)
    with ('(r, (h, dict)) ← f v (path ++ [key]) h d;
          ser_props f path rest (assoc_set key r obj) h dict) in *.
  apply bind_Ok in H as ([r [h1 d1]] & H1 & H).
  rewrite (Hf _ _ _ _ _ H1), bind_ret. cbv beta iota.
  by apply IH.
Qed.

Lemma ser_strict_agrees converters strict options fuel :
  functionConverter strict = functionConverter options →
  symbolConverter strict = symbolConverter options →
  noRefs strict = true →
  agrees (ser converters strict fuel) (ser converters options fuel).
Proof.
  intros Hfun Hsym Hstrict.
  induction fuel as [|fuel IH]; intros v p h d x H; [done|].
  simpl in *. rewrite <- Hfun, <- Hsym. destruct v; try done.
  - (* function *)
    apply bind_Ok in H as ([state h1] & Hc & H).
    apply bind_Ok in H as ([r1 st] & Hs & H).
    rewrite Hc, bind_ret. cbv beta iota.
    by rewrite (IH _ _ _ _ _ Hs), bind_ret.
  - (* object *)
    destruct (d !! l) as [ref|] eqn:Hd.
    { by rewrite Hstrict in H. }
    destruct (h !! l) as [o|]; [|done].
    assert (Hplain :
      match ctor o with
      | Some constructor =>
          if decide (class_name constructor = "Object") then
            '(obj, st) ← ser_props (ser converters strict fuel) p (own_enumerable o) []
                           h (<[l:=p]> d);
            Ok (SObj obj, st)
          else
            match converters !! class_name constructor with
            | Some converter =>
                '(state, h0) ← call (from converter) h (VObj l);
                '(r, st) ← ser converters strict fuel state p h0 (<[l:=p]> d);
                Ok (SProto (class_name constructor) r, st)
            | None => Err UnregisteredClass
            end
      | None => Err NoConstructor
      end = Ok x →
      match ctor o with
      | Some constructor =>
          if decide (class_name constructor = "Object") then
            '(obj, st) ← ser_props (ser converters options fuel) p (own_enumerable o) []
                           h (<[l:=p]> d);
            Ok (SObj obj, st)
          else
            match converters !! class_name constructor with
            | Some converter =>
                '(state, h0) ← call (from converter) h (VObj l);
                '(r, st) ← ser converters options fuel state p h0 (<[l:=p]> d);
                Ok (SProto (class_name constructor) r, st)
            | None => Err UnregisteredClass
            end
      | None => Err NoConstructor
      end = Ok x).
    { clear H. intros H.
      destruct (ctor o) as [c|]; [|done]. case_decide.
      - apply bind_Ok in H as ([obj st] & Hs & H).
        by rewrite (ser_props_agrees _ _ _ _ _ _ _ _ IH Hs), bind_ret.
      - destruct (converters !! class_name c); [|done].
        apply bind_Ok in H as ([state h1] & Hc & H).
        apply bind_Ok in H as ([r1 st] & Hs & H).
        rewrite Hc, bind_ret. cbv beta iota.
        by rewrite (IH _ _ _ _ _ Hs), bind_ret. }
    destruct (internal o) eqn:Hi; try by apply Hplain.
    apply bind_Ok in H as ([items st] & Hs & H).
    by rewrite (ser_elems_agrees _ _ _ _ _ _ _ _ IH Hs), bind_ret.
Qed.

(** X24. Setting [noRefs] only adds failures: whenever [normalize] returns
    a tree with [noRefs] set on top of some options, it returns the same tree
    and heap with those options as they are. *)
Theorem noRefs_only_adds_failures converters options fuel h input r :
  normalize converters (spread_options options (only_noRefs true)) fuel h input = Ok r →
  normalize converters options fuel h input = Ok r.
Proof.
  unfold normalize. intros H.
  apply bind_Ok in H as ([t [h1 d1]] & Hser & H).
  by rewrite (ser_strict_agrees converters (spread_options options (only_noRefs true))
                options fuel eq_refl eq_refl eq_refl _ _ _ _ _ Hser), bind_ret.
Qed.

Lemma noRefs_only_adds_failures_witness :
  normalize ∅ defaultOptions 3 example_functions (VObj 0)
  = Ok (SArr [SFun (SVal (VStr "f")); SFun (SVal (VStr "f"))], example_functions).
Proof.
  apply (noRefs_only_adds_failures ∅ defaultOptions 3 example_functions (VObj 0)).
  reflexivity.
Defined.

(** ** A state that is the instance itself *)

(** X25. When the state a converter extracts from an instance is the
    instance itself, as [Converters.valueOf] does for an object whose
    [valueOf] returns the object, the instance is already in the identity
    map when its state is walked: [ser] answers with a typed item whose state
    is the reference to the item's own path, or throws under [noRefs]; and
    at the root [clone] hands [null] to the [to] function of the converter,
    the reference being dropped. *)
Theorem state_that_is_the_instance converters options h l o cl converter fuel :
  h !! l = Some o → isArray o = false →
  ctor o = Some cl → class_name cl ≠ "Object" →
  converters !! class_name cl = Some converter →
  from converter h (VObj l) = Ok (VObj l, []) →
  (∀ path d, d !! l = None →
     ser converters options (S (S fuel)) (VObj l) path h d
     = if noRefs options then Err ReferenceFound
       else Ok (SProto (class_name cl) (SRef path), (h, <[l:=path]> d)))
  ∧ (noRefs options = false →
     clone converters options (S (S fuel)) h (VObj l) = call (to converter) h VNull).
Proof.
  intros Ho Harr Hctor Hname Hc Hfrom.
  assert (∀ path d, d !! l = None →
     ser converters options (S (S fuel)) (VObj l) path h d
     = if noRefs options then Err ReferenceFound
       else Ok (SProto (class_name cl) (SRef path), (h, <[l:=path]> d))) as Hser.
  { intros path d Hd.
    erewrite ser_custom; [|done..].
    unfold call. rewrite Hfrom, bind_ret. cbv beta iota.
    rewrite app_nil_r, bind_ret. cbv beta iota.
    rewrite (ser_revisit _ _ _ _ path) by apply lookup_insert_eq.
    by destruct (noRefs options). }
  split; [done|].
  intros HnoRefs. unfold clone, normalize.
  rewrite Hser by apply lookup_empty. rewrite HnoRefs, !bind_ret. cbv beta iota.
  unfold denormalize. simpl des. rewrite bind_ret. cbv beta iota.
  rewrite (sort_same_depth 0) by (repeat constructor).
  simpl. by rewrite Hc.
Qed.

Lemma state_that_is_the_instance_witness :
  (∀ path d, d !! 0 = None →
     ser (Converters.valueOf Test) defaultOptions 2 (VObj 0) path example_instance d
     = if noRefs defaultOptions then Err ReferenceFound
       else Ok (SProto (class_name TestClass) (SRef path),
                (example_instance, <[0:=path]> d)))
  ∧ (noRefs defaultOptions = false →
     clone (Converters.valueOf Test) defaultOptions 2 example_instance (VObj 0)
     = call (to (the_converter (Converters.valueOf Test) "Test")) example_instance VNull).
Proof.
  apply (state_that_is_the_instance (Converters.valueOf Test) defaultOptions
           example_instance 0 (Object (Some TestClass) [("x", VNull)] Ordinary)
           TestClass (the_converter (Converters.valueOf Test) "Test") 0);
    try reflexivity.
  simpl. discriminate.
Defined.

(** ** Objects without a constructor *)

(** X26. An object that is not an array and has no constructor, as
    [Object.create(null)] makes, stops [normalize]: its first visit throws
    the error [no constructor], whatever the registry holds, and no tree is
    returned for an input from which [normalize] walks to such an object. *)
Theorem no_constructor converters options h l o :
  h !! l = Some o → isArray o = false → ctor o = None →
  (∀ fuel path d, d !! l = None →
     ser converters options (S fuel) (VObj l) path h d = Err NoConstructor)
  ∧ ∀ fuel v p, walk h v p (VObj l) →
      ¬ is_Ok (normalize converters options fuel h v).
Proof.
  intros Ho Harr Hctor. split.
  - intros fuel path d Hd. simpl. rewrite Hd, Ho, Hctor.
    unfold isArray in Harr. by destruct (internal o).
  - intros fuel v p Hwalk [[t h'] H].
    unfold normalize in H.
    apply bind_Ok in H as ([t' [h1 D]] & Hser & H).
    pose proof (ser_extending converters options fuel _ _ _ _ _ _ _ Hser) as [Hh _].
    destruct (ser_thorough converters options fuel _ _ _ _ _ _ _ Hser) as [Hrec Hdone].
    assert (Hl : is_Some (D !! l)).
    { eapply walk_recorded; [exact Hh| |exact Hrec|exact Hwalk].
      intros l' Hl'. by apply Hdone. }
    destruct (Hdone l (lookup_empty _) Hl) as (o' & Ho' & Hd).
    eapply prefix_lookup_Some in Ho; [|exact Hh].
    assert (o' = o) as -> by congruence.
    unfold isArray in Harr.
    destruct (internal o); try done;
      destruct Hd as (cl' & Hcl' & _); congruence.
Qed.

Lemma no_constructor_witness :
  (∀ fuel path d, d !! 0 = None →
     ser ConvertersDefault.default defaultOptions (S fuel) (VObj 0) path
       [Object None [("x", VNull)] Ordinary; array [VObj 0]] d
     = Err NoConstructor)
  ∧ ∀ fuel v p,
      walk [Object None [("x", VNull)] Ordinary; array [VObj 0]] v p (VObj 0) →
      ¬ is_Ok (normalize ConvertersDefault.default defaultOptions fuel
                 [Object None [("x", VNull)] Ordinary; array [VObj 0]] v).
Proof.
  apply (no_constructor ConvertersDefault.default defaultOptions
           [Object None [("x", VNull)] Ordinary; array [VObj 0]] 0
           (Object None [("x", VNull)] Ordinary)); reflexivity.
Defined.

(** ** Instances of the properties stated for every input *)

Lemma all_last_wins_witness :
  Converters.all Converters.allProps [Test; OtherTest] !! "Test"
  = Some (the_converter (Converters.allProps OtherTest) "Test").
Proof.
  apply (proj1 (all_last_wins Converters.allProps [Test; OtherTest] "Test")
           [Test] OtherTest []); [reflexivity|reflexivity|].
  intros c' Hc'. by apply elem_of_nil in Hc'.
Defined.

Lemma default_engine_classes_witness :
  ¬ is_Ok (normalize ConvertersDefault.default defaultOptions 5 example_instance (VObj 1)).
Proof.
  apply (proj2 (default_engine_classes "Test") defaultOptions 5 example_instance
           (VObj 1) ["0"] 0 (Object (Some TestClass) [("x", VNull)] Ordinary) TestClass);
    try reflexivity.
  - eapply walk_step; [|apply walk_here].
    eexists 1, _. split_and!; [done|reflexivity|]. simpl. by exists 0.
  - apply (bool_decide_unpack
             ("Test" ∉ ["Object"; "Date"; "Boolean"; "String"; "Number"; "Map"; "Set";
                        "Error"])).
    reflexivity.
Defined.

Lemma deserialize_rejects_witness :
  deserialize ConvertersDefault.default defaultOptions [] (JObj [("value", JNum 1)])
  = Err UnknownItem.
Proof.
  apply (proj1 (deserialize_rejects ConvertersDefault.default [])).
  intros key Hkey.
  repeat (apply elem_of_cons in Hkey as [->|Hkey]; [reflexivity|]).
  by apply elem_of_nil in Hkey.
Defined.
